(** * AudioAlarmLibrosa: the audio alarm monitor of [alarm_numpy.py]

    A shallow embedding of the monitor: the loudness metric of the audio
    callback (root mean square of a block), the threshold and cooldown
    decision, the single-flight beep player, the queue between the audio
    callback and the socket emitter, the input device selection and the
    search for a free TCP port.

    Numbers.  The audio samples and the loudness are IEEE-754 binary32
    values ([sounddevice] delivers [float32] blocks unless told otherwise, and
    NumPy keeps that type through [**], [mean] and [sqrt]); they are modelled
    bit for bit with the executable [spec_float] operations of the standard
    library: the sum of [mean] in NumPy's pairwise order, its division in
    binary64.  The comparison with the threshold follows NumPy 2: the Python
    float is converted to the type of the binary32 operand before the two
    are compared.  Clock
    readings ([time.time()]) are modelled as rationals: the program only
    orders them and subtracts two readings before comparing with the literal
    [2].  Python integers are [Z]. *)

From Stdlib Require Import ZArith QArith Qpower Lqa List Bool Lia.
From Stdlib Require Import Sorting.Permutation.
From Stdlib Require Import Floats.SpecFloat.
From Equations Require Import Equations.
From stdpp Require Import base list gmap.
Import ListNotations.

(* ===================================================================== *)
(** * Part I: the program *)
(* ===================================================================== *)

(** ** Python outcomes *)

(** The exception classes the program meets.  [InvalidBlock] is the error
    name of the design document; no statement of the program raises it. *)
Inductive exn : Type :=
  | ValueError
  | IndexError
  | OSError
  | OverflowError
  | KeyboardInterrupt
  | SystemExit
  | InvalidBlock.

(** [isinstance(e, Exception)]: [KeyboardInterrupt] and [SystemExit] derive
    from [BaseException] only, so [except Exception] lets them through. *)
Definition is_Exception (e : exn) : bool :=
  match e with
  | KeyboardInterrupt | SystemExit => false
  | _ => true
  end.

(** A call either returns a value or raises. *)
Inductive result (A : Type) : Type :=
  | Return (a : A)
  | Raise (e : exn).
Arguments Return {A} a.
Arguments Raise {A} e.

Definition bind_result {A B : Type} (r : result A) (k : A -> result B) : result B :=
  match r with
  | Return a => k a
  | Raise e => Raise e
  end.

(** [seq[i]] on a Python sequence: negative indices count from the end,
    anything outside [-len, len) raises [IndexError]. *)
Definition py_getitem {A : Type} (l : list A) (i : Z) : result A :=
  let n := Z.of_nat (length l) in
  let j := if (i <? 0)%Z then (i + n)%Z else i in
  if ((0 <=? j)%Z && (j <? n)%Z)%bool
  then match nth_error l (Z.to_nat j) with
       | Some x => Return x
       | None => Raise IndexError
       end
  else Raise IndexError.

(** ** Settings (lines 13-19) *)

Definition SR : Z := 44100.
Definition BLOCK_SECONDS : Z := 1.
(** The decimal of line 17, as it is written (and as the page shows it). *)
Definition THRESHOLD : Q := 0.05.

(** ** The loudness metric (line 149) *)

(** binary32: 24 bits of precision, infinities at exponent 128. *)
Definition prec : Z := 24.
Definition emax : Z := 128.

Definition float32 : Type := spec_float.

Definition f32_add : float32 -> float32 -> float32 := SFadd prec emax.
Definition f32_mul : float32 -> float32 -> float32 := SFmul prec emax.
Definition f32_sqrt : float32 -> float32 := SFsqrt prec emax.
Definition f32_zero : float32 := S754_zero false.

(** An integer converted to binary32, rounding to nearest even. *)
Definition f32_of_Z (n : Z) : float32 := binary_normalize prec emax n 0 false.

(** binary64, the type of Python floats and of NumPy's [float64]: 53 bits
    of precision, infinities at exponent 1024.  A binary64 number converted
    to binary32, rounding to nearest even. *)
Definition f32_of_float (x : spec_float) : float32 :=
  match x with
  | S754_finite s m e => binary_normalize prec emax (cond_Zopp s (Z.pos m)) e s
  | _ => x
  end.

(** An integer as a float with that very mantissa. *)
Definition float_of_Z (n : Z) : spec_float :=
  match n with
  | Z0 => S754_zero false
  | Z.pos p => S754_finite false p 0
  | Z.neg p => S754_finite true p 0
  end.

(** A decimal literal as a Python float: the binary64 number nearest to
    it, here the correctly rounded quotient of its numerator and denominator
    (both are binary64 numbers for the literals of the program). *)
Definition py_float (q : Q) : spec_float :=
  SFdiv 53 1024 (float_of_Z (Qnum q)) (float_of_Z (Z.pos (Qden q))).

(** [x ** 2]: NumPy evaluates the power with exponent 2 as [x * x]. *)
Definition np_square (x : float32) : float32 := f32_mul x x.

(** NumPy adds up a contiguous float array by pairwise summation
    ([pairwise_sum] in [loops_utils.h.src]).  Above [PW_BLOCKSIZE] elements
    the array is split in two; a block is added up with eight accumulators. *)
Definition PW_BLOCKSIZE : nat := 128.

(** The unrolled loop on a block: accumulator [r_j] takes the elements at
    positions [j], [8 + j], [16 + j], ... as long as eight more elements
    are left; then the accumulators are added two by two, and the fewer than
    eight elements left over are added one by one. *)
Fixpoint pairwise_unrolled (r0 r1 r2 r3 r4 r5 r6 r7 : float32) (a : list float32)
  : float32 :=
  match a with
  | x0 :: x1 :: x2 :: x3 :: x4 :: x5 :: x6 :: x7 :: rest =>
      pairwise_unrolled (f32_add r0 x0) (f32_add r1 x1) (f32_add r2 x2)
        (f32_add r3 x3) (f32_add r4 x4) (f32_add r5 x5) (f32_add r6 x6)
        (f32_add r7 x7) rest
  | _ =>
      fold_left f32_add a
        (f32_add (f32_add (f32_add r0 r1) (f32_add r2 r3))
                 (f32_add (f32_add r4 r5) (f32_add r6 r7)))
  end.

(** A block of at most [PW_BLOCKSIZE] elements: fewer than eight are added
    one by one, starting from [-0.0]; eight or more start the accumulators. *)
Definition pairwise_block (a : list float32) : float32 :=
  match a with
  | x0 :: x1 :: x2 :: x3 :: x4 :: x5 :: x6 :: x7 :: rest =>
      pairwise_unrolled x0 x1 x2 x3 x4 x5 x6 x7 rest
  | _ => fold_left f32_add a (S754_zero true)
  end.

(** [n2 = n / 2; n2 -= n2 % 8]: the two halves are added up on their own
    and their sums added. *)
Equations? pairwise_sum (a : list float32) : float32 by wf (length a) lt :=
  pairwise_sum a with le_lt_dec (length a) PW_BLOCKSIZE := {
    | left _ => pairwise_block a
    | right _ =>
        let n2 := (length a / 2 - (length a / 2) mod 8)%nat in
        f32_add (pairwise_sum (take n2 a)) (pairwise_sum (drop n2 a)) }.
Proof.
  - rewrite length_take. unfold PW_BLOCKSIZE in *.
    pose proof (Nat.div_mod_eq (length a) 2) as H.
    pose proof (Nat.mod_upper_bound (length a) 2 ltac:(lia)). lia.
  - rewrite length_drop. unfold PW_BLOCKSIZE in *.
    pose proof (Nat.div_mod_eq (length a) 2) as H.
    pose proof (Nat.mod_upper_bound (length a) 2 ltac:(lia)).
    pose proof (Nat.mod_upper_bound (length a / 2) 8 ltac:(lia)). lia.
Qed.

(** [np.sum] of a float array, all axes reduced: the reduction starts from
    a zero ([0.0] on an empty array, the sign-preserving [-0.0] otherwise) and
    adds the pairwise sum of the elements to it.  The sign of that zero
    cannot be seen on the squares of line 149, whose sum is [nan], [+0.0] or
    above. *)
Definition np_sum (xs : list float32) : float32 :=
  f32_add (match xs with [] => S754_zero false | _ :: _ => S754_zero true end)
          (pairwise_sum xs).

(** [ret.dtype.type(ret / rcount)] of [np.mean]: the binary32 sum and the
    count (an [intp]) are divided in binary64, and the quotient is converted
    to binary32. *)
Definition mean_of_sum (sum : float32) (rcount : nat) : float32 :=
  f32_of_float
    (SFdiv 53 1024 sum (binary_normalize 53 1024 (Z.of_nat rcount) 0 false)).

(** [np.mean]: the sum divided by the element count; on an empty array this
    is [0.0 / 0], which NumPy returns as [nan] with a warning, not an
    exception. *)
Definition np_mean (xs : list float32) : float32 :=
  mean_of_sum (np_sum xs) (length xs).

Definition np_sqrt (x : float32) : float32 := f32_sqrt x.

(** [rms = np.sqrt(np.mean(indata**2))] *)
Definition rms_of (indata : list float32) : float32 :=
  np_sqrt (np_mean (map np_square indata)).

(** The metric as a fallible computation: line 149 has no [raise], and
    none of the three NumPy calls raises on a float array. *)
Definition compute (indata : list float32) : result float32 :=
  Return (rms_of indata).

(** Ways of adding up: any way of adding terms two at a time, in which an
    accumulator may start at [0.0].  The left to right loop is one, the
    pairwise order of [np_sum] another. *)
Inductive summation : Type :=
  | sum_start
  | sum_term (x : float32)
  | sum_add (a b : summation).

Fixpoint sum_terms (t : summation) : list float32 :=
  match t with
  | sum_start => []
  | sum_term x => [x]
  | sum_add a b => sum_terms a ++ sum_terms b
  end.

Fixpoint sum_value (t : summation) : float32 :=
  match t with
  | sum_start => f32_zero
  | sum_term x => x
  | sum_add a b => f32_add (sum_value a) (sum_value b)
  end.

Definition left_to_right (xs : list float32) : summation :=
  fold_left (fun t x => sum_add t (sum_term x)) xs sum_start.

(** The loudness when the squares are added up as [t] says. *)
Definition rms_summed (t : summation) : float32 :=
  np_sqrt (mean_of_sum (sum_value t) (length (sum_terms t))).

(** The rational a finite binary32 value stands for. *)
Definition Q_of_f32 (x : float32) : Q :=
  match x with
  | S754_finite s m e =>
      let v := (inject_Z (Z.pos m) * Qpower 2 e)%Q in
      if s then Qopp v else v
  | _ => 0%Q
  end.

Definition Qltb (x y : Q) : bool := negb (Qle_bool y x).

(** [x > t] for a binary32 [x] and a Python float [t] written as the
    decimal [t]: NumPy converts [t] to the type of [x] and compares the two
    binary32 numbers.  False on [nan], decided by the sign on the infinities,
    the comparison of the values otherwise ([t] is a finite number). *)
Definition f32_gt (x : float32) (t : Q) : bool :=
  match x with
  | S754_nan => false
  | S754_infinity s => negb s
  | _ => Qltb (Q_of_f32 (f32_of_float (py_float t))) (Q_of_f32 x)
  end.

Arguments py_float : simpl never.

(** ** The audio callback (lines 144-159) *)

(** The dictionary put on the queue: [{'rms': rms, 'alarm': rms > THRESHOLD}]. *)
Record sample : Type := mk_sample { rms : float32; alarm : bool }.

(** The module level state the callback and the beep player share. *)
Record globals : Type := mk_globals {
  last_beep_time : Q;          (* line 19, starts at 0 *)
  beep_playing : bool;         (* line 18, starts False *)
  data_queue : list sample     (* line 44: oldest element first *)
}.

Definition initial_globals : globals :=
  {| last_beep_time := 0; beep_playing := false; data_queue := [] |}.

Definition queue_put (s : sample) (g : globals) : globals :=
  {| last_beep_time := last_beep_time g;
     beep_playing := beep_playing g;
     data_queue := data_queue g ++ [s] |}.

Definition set_last_beep_time (t : Q) (g : globals) : globals :=
  {| last_beep_time := t;
     beep_playing := beep_playing g;
     data_queue := data_queue g |}.

Definition set_beep_playing (b : bool) (g : globals) : globals :=
  {| last_beep_time := last_beep_time g;
     beep_playing := b;
     data_queue := data_queue g |}.

(** One callback reads the clock up to twice: in the cooldown test of line
    155 and, when the test passes, again in the assignment of line 156. *)
Record clock : Type := mk_clock { t_test : Q; t_assign : Q }.

(** The clock of a callback during which time stands still. *)
Definition at_instant (now : Q) : clock := {| t_test := now; t_assign := now |}.

(** Lines 151-157 for a computed loudness.  The boolean tells whether line
    157 started a [play_beep] thread. *)
Definition on_loudness (rms : float32) (clk : clock) (g : globals) : globals * bool :=
  let g1 := queue_put {| rms := rms; alarm := f32_gt rms THRESHOLD |} g in
  if f32_gt rms THRESHOLD then
    if Qltb 2 (t_test clk - last_beep_time g1) then
      (set_last_beep_time (t_assign clk) g1, true)
    else (g1, false)
  else (g1, false).

(** The callback: the [try] body never raises, so the handler of line 158
    is not entered; the [print] calls are left out. *)
Definition callback (indata : list float32) (clk : clock) (g : globals) : globals * bool :=
  match compute indata with
  | Return rms => on_loudness rms clk g
  | Raise _ => (g, false)
  end.

(** A run of the audio stream: one callback per delivered block.  The
    result lists, block by block, whether a beep thread was started. *)
Fixpoint run_loudness (inputs : list (float32 * clock)) (g : globals) : globals * list bool :=
  match inputs with
  | [] => (g, [])
  | (x, clk) :: rest =>
      let '(g1, b) := on_loudness x clk g in
      let '(g2, bs) := run_loudness rest g1 in
      (g2, b :: bs)
  end.

(** The same run driven by blocks, through the whole callback. *)
Fixpoint run_callbacks (inputs : list (list float32 * clock)) (g : globals) : globals * list bool :=
  match inputs with
  | [] => (g, [])
  | (indata, clk) :: rest =>
      let '(g1, b) := callback indata clk g in
      let '(g2, bs) := run_callbacks rest g1 in
      (g2, b :: bs)
  end.

(** The blocks (numbered from 1) at which a beep thread was started. *)
Fixpoint alert_blocks_from (k : nat) (bs : list bool) : list nat :=
  match bs with
  | [] => []
  | b :: rest => (if b then [k] else []) ++ alert_blocks_from (S k) rest
  end.

Definition alert_blocks (bs : list bool) : list nat := alert_blocks_from 1 bs.

(** ** The beep player (lines 21-40) *)

(** The three calls of the loop body, each of which may raise. *)
Inductive sd_call : Type := sd_play | sd_wait | time_sleep.

(** What a call does: it returns, raises an [Exception] (caught at line 37),
    or raises a [BaseException] that is no [Exception] (only the [finally]
    clause sees it). *)
Inductive fate : Type :=
  | returns
  | raises_Exception
  | raises_BaseException.

(** The sound device as the player meets it: the fate of each call of each
    round. *)
Definition device_behaviour : Type := nat -> sd_call -> fate.

(** What the player does that can be observed from outside. *)
Inductive beep_event : Type :=
  | ev_tone (round : nat)        (* sd.play(beep, samplerate=SR) went through *)
  | ev_gap (round : nat)         (* time.sleep(0.1) went through *)
  | ev_error_printed.            (* line 38 *)

(** [for _ in range(3)]: rounds [k, k+1, ..., k+n-1]; the loop stops at the
    first call that raises. *)
Fixpoint beep_rounds (dev : device_behaviour) (k n : nat) : list beep_event * fate :=
  match n with
  | O => ([], returns)
  | S n' =>
      match dev k sd_play with
      | returns =>
          match dev k sd_wait with
          | returns =>
              match dev k time_sleep with
              | returns =>
                  let '(evs, f) := beep_rounds dev (S k) n' in
                  (ev_tone k :: ev_gap k :: evs, f)
              | f => ([ev_tone k], f)
              end
          | f => ([ev_tone k], f)
          end
      | f => ([], f)
      end
  end.

(** Lines 24-26: the test of the flag and its setting.  [None]: the call
    returns at line 25; otherwise the globals in which the tones are
    played. *)
Definition play_beep_enter (g : globals) : option globals :=
  if beep_playing g then None else Some (set_beep_playing true g).

(** Lines 31-38, the [try] statement with its handler: the events, and how
    the statement ends. *)
Definition play_beep_sequence (dev : device_behaviour)
  : list beep_event * result unit :=
  let '(evs, f) := beep_rounds dev 0 3 in
  match f with
  | returns => (evs, Return tt)
  | raises_Exception => (evs ++ [ev_error_printed], Return tt)
  | raises_BaseException => (evs, Raise KeyboardInterrupt)
  end.

(** Line 40, the [finally] clause. *)
Definition play_beep_leave (g : globals) : globals := set_beep_playing false g.

(** [play_beep()]: the new globals, the events, and how the call ends. *)
Definition play_beep (dev : device_behaviour) (g : globals)
  : globals * list beep_event * result unit :=
  match play_beep_enter g with
  | None => (g, [], Return tt)
  | Some g1 =>
      let '(evs, r) := play_beep_sequence dev in
      (play_beep_leave g1, evs, r)
  end.

(** ** The emitter (lines 161-172) and its subscribers *)

(** The two Socket.IO events of the program. *)
Inductive message : Type :=
  | rms_update (rms : float32) (timestamp : Q)
  | alarm_event (rms : float32).

(** The browsers: the connected ones, and for every client the messages
    it has received so far, oldest first. *)
Record hub : Type := mk_hub {
  connected : gset nat;
  received : nat -> list message
}.

Definition initial_hub : hub := {| connected := ∅; received := fun _ => [] |}.

Definition connect (c : nat) (h : hub) : hub :=
  {| connected := {[c]} ∪ connected h; received := received h |}.

Definition disconnect (c : nat) (h : hub) : hub :=
  {| connected := connected h ∖ {[c]}; received := received h |}.

(** How one [socketio.emit] goes: which clients the message reaches, and
    whether the call returns or raises. *)
Record delivery : Type := mk_delivery { reaches : nat -> bool; completes : bool }.

(** [socketio.emit(event, data)], a broadcast: every connected client the
    message reaches gets it appended to what it has received.  Socket.IO
    is a library outside the program; this is the behaviour assumed of it. *)
Definition socketio_emit (d : delivery) (m : message) (h : hub) : hub * bool :=
  ({| connected := connected h;
      received := fun c =>
        if (bool_decide (c ∈ connected h) && reaches d c)%bool
        then received h c ++ [m] else received h c |},
   completes d).

(** One turn of the [while True] loop: take the oldest sample off the queue
    ([queue.Empty] after a second without one: nothing happens), emit
    [rms_update], and [alarm] when the sample is flagged.  An exception in
    the first emit skips the second (line 171 catches it). *)
Definition emit_data_turn (now : Q) (d1 d2 : delivery) (g : globals) (h : hub)
  : globals * hub :=
  match data_queue g with
  | [] => (g, h)
  | data :: rest =>
      let g1 := {| last_beep_time := last_beep_time g;
                   beep_playing := beep_playing g;
                   data_queue := rest |} in
      let '(h1, ok) := socketio_emit d1 (rms_update (rms data) now) h in
      if ok then
        if alarm data then (g1, fst (socketio_emit d2 (alarm_event (rms data)) h1))
        else (g1, h1)
      else (g1, h1)
  end.

(** What can happen to the running program, in any order. *)
Inductive step : Type :=
  | step_callback (indata : list float32) (clk : clock)
  | step_emit (now : Q) (d1 d2 : delivery)
  | step_connect (c : nat)
  | step_disconnect (c : nat).

Definition do_step (s : step) (st : globals * hub) : globals * hub :=
  let '(g, h) := st in
  match s with
  | step_callback indata clk => (fst (callback indata clk g), h)
  | step_emit now d1 d2 => emit_data_turn now d1 d2 g h
  | step_connect c => (g, connect c h)
  | step_disconnect c => (g, disconnect c h)
  end.

Definition run_steps (steps : list step) (st : globals * hub) : globals * hub :=
  fold_left (fun st s => do_step s st) steps st.



(** ** Device selection (lines 175-190) *)

(** An entry of [sd.query_devices()]; only the channel count is read. *)
Record device : Type := mk_device { max_input_channels : Z }.

(** [for i, dev in enumerate(devices): if dev[...] > 0: return i], counting
    from [i]. *)
Fixpoint first_input_from (i : Z) (devices : list device) : option Z :=
  match devices with
  | [] => None
  | dev :: rest =>
      if (0 <? max_input_channels dev)%Z then Some i
      else first_input_from (i + 1)%Z rest
  end.

(** Lines 182-190: the default input device, then any input device. *)
Definition select_fallback (default_input : Z) (devices : list device) : result Z :=
  bind_result (py_getitem devices default_input) (fun dev =>
    if (0 <? max_input_channels dev)%Z then Return default_input
    else match first_input_from 0 devices with
         | Some i => Return i
         | None => Raise ValueError
         end).

(** [select_device()], with the setting [DEVICE_INDEX] (line 14: an index
    or [None]), [sd.default.device[0]] and [sd.query_devices()] as
    arguments. *)
Definition select_device (DEVICE_INDEX : option Z) (default_input : Z)
    (devices : list device) : result Z :=
  match DEVICE_INDEX with
  | Some d =>
      if (d <? Z.of_nat (length devices))%Z then
        bind_result (py_getitem devices d) (fun dev =>
          if (0 <? max_input_channels dev)%Z then Return d
          else select_fallback default_input devices)
      else select_fallback default_input devices
  | None => select_fallback default_input devices
  end.

(** ** The search for a free port (lines 192-201) *)

(** What [s.bind(('0.0.0.0', port))] does: it binds, raises [OSError] (the
    port is taken or not permitted), or raises something line 199 does not
    catch (CPython raises [OverflowError] for a port outside 0..65535). *)
Inductive bind_outcome : Type :=
  | binds
  | bind_OSError
  | bind_raises (e : exn).

(** The [while] loop from the current [port]; the list gives the ports a
    bind was attempted on, in order. *)
Equations? find_free_port_from (bind : Z -> bind_outcome) (start_port port : Z)
  : list Z * result Z by wf (Z.to_nat (start_port + 100 - port)) lt :=
  find_free_port_from bind start_port port with Z_lt_dec port (start_port + 100) := {
    | left _ with bind port := {
        | binds => ([port], Return port)
        | bind_OSError =>
            let '(tried, r) := find_free_port_from bind start_port (port + 1) in
            (port :: tried, r)
        | bind_raises e => ([port], Raise e) };
    | right _ => ([], Raise OSError) }.
Proof. lia. Qed.

Definition find_free_port (bind : Z -> bind_outcome) (start_port : Z)
  : list Z * result Z :=
  find_free_port_from bind start_port start_port.

(** ** Vocabulary of the statements *)

(** A loudness strictly above the threshold 0.05, as a proposition: never
    for [nan], for [+inf], and by value for the finite numbers. *)
Definition exceeds_threshold (x : float32) : Prop :=
  match x with
  | S754_nan => False
  | S754_infinity s => s = false
  | _ => (THRESHOLD < Q_of_f32 x)%Q
  end.

(** The threshold as line 151 compares with it: the binary32 number
    nearest to 0.05, which is [13421773 * 2^-28], a little above 0.05. *)
Definition THRESHOLD_f32 : float32 := f32_of_float (py_float THRESHOLD).

(** A loudness strictly above the converted threshold. *)
Definition exceeds_threshold_f32 (x : float32) : Prop :=
  match x with
  | S754_nan => False
  | S754_infinity s => s = false
  | _ => (Q_of_f32 THRESHOLD_f32 < Q_of_f32 x)%Q
  end.

(** A float that fits binary32: a mantissa of at most 24 bits. *)
Definition fits_binary32 (x : float32) : Prop :=
  match x with
  | S754_finite _ m _ => (Z.pos m < 2 ^ prec)%Z
  | _ => True
  end.

(** The cooldown: the literal [2] of line 155, in seconds. *)
Definition cooldown_duration : Q := 2.

(** Within one callback the second clock reading is not earlier than the
    first. *)
Definition clock_forward (clk : clock) : Prop := (t_test clk <= t_assign clk)%Q.

(** A run in which every callback happens at one instant [now]: the calls
    [decide(loudness, now)] of the design document. *)
Definition instants (calls : list (float32 * Q)) : list (float32 * clock) :=
  map (fun c => (fst c, at_instant (snd c))) calls.

(** [last_beep_time] after each callback of a run. *)
Fixpoint beep_times (inputs : list (float32 * clock)) (g : globals) : list Q :=
  match inputs with
  | [] => []
  | (x, clk) :: rest =>
      let g1 := fst (on_loudness x clk g) in
      last_beep_time g1 :: beep_times rest g1
  end.

(** The binary32 number nearest to 0.10. *)
Definition loudness_0_10 : float32 := S754_finite false 13421773 (-27).

(** Scenario 1: ten blocks of loudness 0.10, one per second from [t0] on,
    each callback running at one instant. *)
Definition scenario1 (t0 : Q) : list (float32 * clock) :=
  map (fun k : nat =>
         (loudness_0_10, at_instant (t0 + inject_Z (BLOCK_SECONDS * Z.of_nat k))))
      (seq 0 10).

(** The same scenario as blocks: each block holds the one sample 0.10,
    whose root mean square is 0.10. *)
Definition scenario1_blocks (t0 : Q) : list (list float32 * clock) :=
  map (fun xc => ([fst xc], snd xc)) (scenario1 t0).




(** The configured device cannot be used and the program goes on to the
    default one: there is no configured index, or it is past the end of the
    list, or the device it names has no input channel. *)
Definition configured_unusable (DEVICE_INDEX : option Z) (devices : list device) : Prop :=
  match DEVICE_INDEX with
  | None => True
  | Some d =>
      (Z.of_nat (length devices) <= d)%Z
      \/ exists dev, py_getitem devices d = Return dev
                     /\ (max_input_channels dev <= 0)%Z
  end.

(** [i] is the first position of the list whose device has an input
    channel. *)
Definition first_input_capable (devices : list device) (i : Z) : Prop :=
  (0 <= i)%Z
  /\ (exists dev, nth_error devices (Z.to_nat i) = Some dev
                  /\ (0 < max_input_channels dev)%Z)
  /\ forall (m : nat) (dev : device),
       (Z.of_nat m < i)%Z -> nth_error devices m = Some dev ->
       (max_input_channels dev <= 0)%Z.

(** The sign bit of a float that is not [nan]. *)
Definition has_sign (s : bool) (x : float32) : Prop :=
  match x with
  | S754_nan => False
  | S754_zero s' | S754_infinity s' | S754_finite s' _ _ => s' = s
  end.

(** [nan], or a float with the given sign bit. *)
Definition nan_or_sign (s : bool) (x : float32) : Prop :=
  match x with
  | S754_nan => True
  | S754_zero s' | S754_infinity s' | S754_finite s' _ _ => s' = s
  end.

(** [x >= 0.0] as IEEE-754 compares: false for [nan], true for both zeros. *)
Definition f32_ge_zero (x : float32) : Prop := SFleb f32_zero x = true.

Definition is_zero (x : float32) : Prop :=
  match x with
  | S754_zero _ => True
  | _ => False
  end.

(** A float of magnitude at least [2^L]: an infinity, or a finite number
    whose leading bit has weight [2^L] or more. *)
Definition magnitude_ge (L : Z) (x : float32) : Prop :=
  match x with
  | S754_infinity _ => True
  | S754_finite _ m e => (L <= Z.log2 (Z.pos m) + e)%Z
  | _ => False
  end.

(** A sample that is not a non-zero number below [2^-62]: the squares of
    such samples, and their mean, stay in the range of binary32. *)
Definition not_tiny (x : float32) : Prop :=
  match x with
  | S754_finite _ m e => (-62 <= Z.log2 (Z.pos m) + e)%Z
  | _ => True
  end.

(** The sample [2^-100]: a binary32 number in canonical form, well inside
    the normal range, whose square [2^-200] is below the smallest binary32
    number. *)
Definition tiny_sample : float32 := S754_finite false 8388608 (-123).

(** The number of samples of a block: [int(SR * BLOCK_SECONDS)], line 210. *)
Definition block_size : nat := Z.to_nat (SR * BLOCK_SECONDS).

(** One block of the stream, one second of audio, whose every sample is the
    converted threshold. *)
Definition block_at_threshold : list float32 := repeat THRESHOLD_f32 block_size.

(** ** Further vocabulary: runs, the start-up script, the chart *)

(** The instants (first clock reading) of the callbacks of a run that
    start a beep, in order. *)
Fixpoint alert_times (inputs : list (float32 * clock)) (g : globals) : list Q :=
  match inputs with
  | [] => []
  | (x, clk) :: rest =>
      (if snd (on_loudness x clk g) then [t_test clk] else [])
      ++ alert_times rest (fst (on_loudness x clk g))
  end.

(** The steps of [k] emitter turns in a row. *)
Definition emitter_turns (turns : list (Q * delivery * delivery)) : list step :=
  map (fun t => step_emit (fst (fst t)) (snd (fst t)) (snd t)) turns.

(** An [alarm] event is justified when its loudness exceeds the
    threshold; any other message needs no justification. *)
Definition alarm_is_loud (m : message) : Prop :=
  match m with
  | alarm_event x => exceeds_threshold x
  | rms_update _ _ => True
  end.

(** A sample whose flag is what line 151 computes from its loudness. *)
Definition flag_matches (s : sample) : Prop :=
  alarm s = f32_gt (rms s) THRESHOLD.

(** Every queued sample has the flag of its loudness, and every [alarm]
    event received by a client is for a loudness above the threshold. *)
Definition queue_and_inboxes_sound (st : globals * hub) : Prop :=
  Forall flag_matches (data_queue (fst st))
  /\ forall c : nat, Forall alarm_is_loud (received (snd st) c).



(** *** The start-up script (lines 203-225) *)

(** What the script meets outside the program: the two device listings
    (lines 176 and 205), the default input, and how each call into
    [sounddevice], the socket layer and the web server ends.  A class of
    exception that is not listed in [exn] behaves like a listed one with the
    same base class ([PortAudioError] like [OSError], say). *)
Record host : Type := mk_host {
  host_devices : list device;
  host_default_input : Z;
  host_devices_again : list device;
  host_open_stream : Z -> result unit;      (* sd.InputStream(device=...) *)
  host_start_stream : result unit;          (* stream.start() *)
  host_start_task : result unit;            (* socketio.start_background_task *)
  host_bind : Z -> bind_outcome;
  host_run_server : Z -> result unit;       (* socketio.run(app, port=...) *)
  host_stop_stream : result unit;           (* stream.stop() *)
  host_close_stream : result unit           (* stream.close() *)
}.

(** What the script does that can be observed. *)
Inductive main_event : Type :=
  | ev_print_using (d : Z)                  (* line 205 *)
  | ev_stream_opened (d : Z)                (* line 206 returned: [stream] is bound *)
  | ev_stream_started                       (* line 211 returned *)
  | ev_task_started                         (* line 212 returned *)
  | ev_print_listening (d port : Z)         (* lines 214-216 *)
  | ev_server_run (port : Z)                (* line 217 is called *)
  | ev_print_stopping                       (* line 219 *)
  | ev_print_error (e : exn)                (* line 221 *)
  | ev_stop_called                          (* line 224 *)
  | ev_close_called.                        (* line 225 *)

(** The [try] body: the events, whether [stream] got bound, and how the
    body ends. *)
Definition main_try (DEVICE_INDEX : option Z) (h : host)
  : list main_event * bool * result unit :=
  match select_device DEVICE_INDEX (host_default_input h) (host_devices h) with
  | Raise e => ([], false, Raise e)
  | Return d =>
  match py_getitem (host_devices_again h) d with
  | Raise e => ([], false, Raise e)
  | Return _ =>
  match host_open_stream h d with
  | Raise e => ([ev_print_using d], false, Raise e)
  | Return _ =>
  match host_start_stream h with
  | Raise e => ([ev_print_using d; ev_stream_opened d], true, Raise e)
  | Return _ =>
  match host_start_task h with
  | Raise e =>
      ([ev_print_using d; ev_stream_opened d; ev_stream_started], true, Raise e)
  | Return _ =>
  match snd (find_free_port (host_bind h) 5000) with
  | Raise e =>
      ([ev_print_using d; ev_stream_opened d; ev_stream_started;
        ev_task_started], true, Raise e)
  | Return port =>
      ([ev_print_using d; ev_stream_opened d; ev_stream_started;
        ev_task_started; ev_print_listening d port; ev_server_run port],
       true, host_run_server h port)
  end end end end end end.

(** The handlers of lines 218-221: what is printed, and how the [try]
    statement ends before its [finally] clause.  An exception that is neither
    a [KeyboardInterrupt] nor an [Exception] is not handled. *)
Definition main_handlers (r : result unit) : list main_event * result unit :=
  match r with
  | Return _ => ([], Return tt)
  | Raise KeyboardInterrupt => ([ev_print_stopping], Return tt)
  | Raise e =>
      if is_Exception e then ([ev_print_error e], Return tt) else ([], Raise e)
  end.

(** The whole statement: the [try] body, the handlers, then the [finally]
    clause; an exception of [stop] or [close] leaves the script, and so does,
    after the [finally] clause, an exception the handlers did not take. *)
Definition main (DEVICE_INDEX : option Z) (h : host) : list main_event * result unit :=
  let '(evs, bound, r) := main_try DEVICE_INDEX h in
  let '(printed, pending) := main_handlers r in
  let evs1 := evs ++ printed in
  if bound then
    match host_stop_stream h with
    | Raise e => (evs1 ++ [ev_stop_called], Raise e)
    | Return _ =>
        match host_close_stream h with
        | Raise e => (evs1 ++ [ev_stop_called; ev_close_called], Raise e)
        | Return _ => (evs1 ++ [ev_stop_called; ev_close_called], pending)
        end
    end
  else (evs1, pending).

(** The events of the [finally] clause. *)
Definition cleanup_event (e : main_event) : bool :=
  match e with
  | ev_stop_called | ev_close_called => true
  | _ => false
  end.

(** A host on which everything works: one microphone, port 5000 taken,
    port 5001 free, and a server that runs until Ctrl+C. *)
Definition working_host : host :=
  {| host_devices := [mk_device 0; mk_device 2];
     host_default_input := 1;
     host_devices_again := [mk_device 0; mk_device 2];
     host_open_stream := fun _ => Return tt;
     host_start_stream := Return tt;
     host_start_task := Return tt;
     host_bind := fun p => if (p =? 5000)%Z then bind_OSError else binds;
     host_run_server := fun _ => Raise KeyboardInterrupt;
     host_stop_stream := Return tt;
     host_close_stream := Return tt |}.

(** *** The chart of the page (lines 114-137) *)

(** The data of the chart: the time labels, the loudness line, the
    threshold line and the alarm points. *)
Record chart : Type := mk_chart {
  chart_labels : list Q;
  chart_rms : list float32;
  chart_threshold : list Q;
  chart_alarms : list (Q * float32)
}.

Definition empty_chart : chart :=
  {| chart_labels := []; chart_rms := []; chart_threshold := [];
     chart_alarms := [] |}.

(** The handler of [rms_update] at page time [currentTime]: push on the
    three lines; past 50 labels, drop the alarm points older than the oldest
    label and shift the three lines. *)
Definition chart_on_update (currentTime : Q) (x : float32) (c : chart) : chart :=
  let labels := chart_labels c ++ [currentTime] in
  let line := chart_rms c ++ [x] in
  let thr := chart_threshold c ++ [THRESHOLD] in
  if (50 <? length labels)%nat then
    match labels with
    | minLabel :: _ =>
        {| chart_labels := tl labels;
           chart_rms := tl line;
           chart_threshold := tl thr;
           chart_alarms :=
             List.filter (fun p => Qle_bool minLabel (fst p)) (chart_alarms c) |}
    | [] => {| chart_labels := labels; chart_rms := line;
               chart_threshold := thr; chart_alarms := chart_alarms c |}
    end
  else
    {| chart_labels := labels; chart_rms := line; chart_threshold := thr;
       chart_alarms := chart_alarms c |}.

(** The handler of [alarm]: one more alarm point. *)
Definition chart_on_alarm (currentTime : Q) (x : float32) (c : chart) : chart :=
  {| chart_labels := chart_labels c; chart_rms := chart_rms c;
     chart_threshold := chart_threshold c;
     chart_alarms := chart_alarms c ++ [(currentTime, x)] |}.

(** The events the page receives, with the page time of their arrival. *)
Inductive page_event : Type :=
  | page_update (currentTime : Q) (x : float32)
  | page_alarm (currentTime : Q) (x : float32).

Definition chart_on (e : page_event) (c : chart) : chart :=
  match e with
  | page_update t x => chart_on_update t x c
  | page_alarm t x => chart_on_alarm t x c
  end.

Definition chart_after (events : list page_event) (c : chart) : chart :=
  fold_left (fun c e => chart_on e c) events c.

(** The updates among the events: their times and their values. *)
Fixpoint update_times (events : list page_event) : list Q :=
  match events with
  | [] => []
  | page_update t _ :: rest => t :: update_times rest
  | page_alarm _ _ :: rest => update_times rest
  end.

Fixpoint update_values (events : list page_event) : list float32 :=
  match events with
  | [] => []
  | page_update _ x :: rest => x :: update_values rest
  | page_alarm _ _ :: rest => update_values rest
  end.

(** The last [n] elements of a list. *)
Definition last_n {A : Type} (n : nat) (l : list A) : list A :=
  drop (length l - n) l.

(** The alarm points among the events, with the page time of their
    arrival. *)
Fixpoint alarm_points (events : list page_event) : list (Q * float32) :=
  match events with
  | [] => []
  | page_update _ _ :: rest => alarm_points rest
  | page_alarm t x :: rest => (t, x) :: alarm_points rest
  end.

Definition event_time (e : page_event) : Q :=
  match e with
  | page_update t _ => t
  | page_alarm t _ => t
  end.

(** The page clock does not run backwards between two arrivals. *)
Fixpoint arrival_ordered (events : list page_event) : Prop :=
  match events with
  | [] => True
  | e :: rest =>
      Forall (fun e0 => (event_time e <= event_time e0)%Q) rest
      /\ arrival_ordered rest
  end.

(** The labels that have left the 50-label window. *)
Definition shifted_out (events : list page_event) : list Q :=
  take (length (update_times events) - 50) (update_times events).

(** [point.x >= l] for every label [l] of the list. *)
Definition not_older_than (ls : list Q) (p : Q * float32) : bool :=
  forallb (fun l => Qle_bool l (fst p)) ls.

(* ===================================================================== *)
(** * Part II: properties *)
(* ===================================================================== *)

(** ** The program on small inputs *)

(** The loudness of the block [3.0, -4.0]: the binary32 number nearest to
    the square root of 12.5, that is 14829104 * 2^-22 = 3.5355339... *)
Example rms_of_3_4 :
  rms_of [f32_of_Z 3; f32_of_Z (-4)] = S754_finite false 14829104 (-22).
Proof. reflexivity. Qed.

Example rms_of_constant_sample : rms_of [loudness_0_10] = loudness_0_10.
Proof. reflexivity. Qed.

(** Eight samples, [4096.0] and seven times [1.0]: the squares go to eight
    accumulators that are added two by two, and the loudness is
    11863285 * 2^-13.  (Added from left to right, every [1.0] would be lost
    against 4096^2 and the result would be 11863283 * 2^-13.) *)
Example rms_of_eight_samples :
  rms_of (f32_of_Z 4096 :: repeat (f32_of_Z 1) 7)
  = S754_finite false 11863285 (-13).
Proof. vm_compute. reflexivity. Qed.

(** The threshold of line 17 as a Python float, and what the comparison
    of lines 151 and 152 makes of it. *)
Example py_float_THRESHOLD :
  py_float THRESHOLD = S754_finite false 7205759403792794 (-57)
  /\ f32_of_float (py_float THRESHOLD) = S754_finite false 13421773 (-28).
Proof. split; vm_compute; reflexivity. Qed.

(** One second of the constant sample 13419089 * 2^-28 = 0.04999...: the
    loudness is 13419090 * 2^-28, below the threshold; the flag is off. *)
Example rms_of_one_second_below_threshold :
  rms_of (repeat (S754_finite false 13419089 (-28)) 44100)
  = S754_finite false 13419090 (-28)
  /\ f32_gt (rms_of (repeat (S754_finite false 13419089 (-28)) 44100))
       THRESHOLD = false.
Proof. split; vm_compute; reflexivity. Qed.

(** The web server ends with [SystemExit]: no handler of lines 218-221
    takes it, the [finally] clause stops and closes the stream, and the
    exception leaves the script. *)
Example main_server_exits :
  main None
    {| host_devices := [mk_device 0; mk_device 2];
       host_default_input := 1;
       host_devices_again := [mk_device 0; mk_device 2];
       host_open_stream := fun _ => Return tt;
       host_start_stream := Return tt;
       host_start_task := Return tt;
       host_bind := fun _ => binds;
       host_run_server := fun _ => Raise SystemExit;
       host_stop_stream := Return tt;
       host_close_stream := Return tt |}
  = ([ev_print_using 1; ev_stream_opened 1; ev_stream_started;
      ev_task_started; ev_print_listening 1 5000; ev_server_run 5000;
      ev_stop_called; ev_close_called], Raise SystemExit).
Proof. reflexivity. Qed.

(** A loud block at a time when the cooldown is over: the sample is
    queued with its flag, [last_beep_time] is set, a beep is started. *)
Example callback_loud_block :
  callback [loudness_0_10] (at_instant 1700000000) initial_globals
  = ({| last_beep_time := 1700000000;
        beep_playing := false;
        data_queue := [{| rms := loudness_0_10; alarm := true |}] |}, true).
Proof. reflexivity. Qed.

(** A quiet block: queued with the flag off, nothing else happens. *)
Example callback_quiet_block :
  callback [f32_zero] (at_instant 1700000000) initial_globals
  = ({| last_beep_time := 0;
        beep_playing := false;
        data_queue := [{| rms := f32_zero; alarm := false |}] |}, false).
Proof. reflexivity. Qed.

(** The device raises in [sd.wait()] of the second round: the first tone
    and gap and the second tone have been played, the error is printed,
    [beep_playing] is false again and the call returns. *)
Example play_beep_error_in_second_round :
  play_beep
    (fun k c => match k, c with
                | 1%nat, sd_wait => raises_Exception
                | _, _ => returns
                end)
    initial_globals
  = (initial_globals, [ev_tone 0; ev_gap 0; ev_tone 1; ev_error_printed],
     Return tt).
Proof. reflexivity. Qed.

(** Two blocks are published, a first client is connected from the start,
    a second one connects after the first sample has been emitted: the first
    client receives both samples in order (with the alarm event of the loud
    one), the second only the later one. *)
Example two_subscribers :
  let all := {| reaches := fun _ => true; completes := true |} in
  let st :=
    run_steps
      [step_connect 1;
       step_callback [f32_of_Z 3] (at_instant 1700000000);
       step_callback [f32_zero] (at_instant 1700000001);
       step_emit 1700000001 all all;
       step_connect 2;
       step_emit 1700000002 all all]
      (initial_globals, initial_hub) in
  received (snd st) 1%nat
  = [rms_update (f32_of_Z 3) 1700000001; alarm_event (f32_of_Z 3);
     rms_update f32_zero 1700000002]
  /\ received (snd st) 2%nat = [rms_update f32_zero 1700000002]
  /\ data_queue (fst st) = [].
Proof. vm_compute. repeat split. Qed.

(** The default device has no input channel, the second device has. *)
Example select_device_first_input :
  select_device None 0 [mk_device 0; mk_device 2] = Return 1%Z.
Proof. reflexivity. Qed.

(** A configured index past the end of the list is given up for the
    default device. *)
Example select_device_configured_out_of_range :
  select_device (Some 5%Z) 1 [mk_device 0; mk_device 2] = Return 1%Z.
Proof. reflexivity. Qed.

Example select_device_no_input :
  select_device None 0 [mk_device 0; mk_device 0] = Raise ValueError.
Proof. reflexivity. Qed.

(** No device at all and no default ([-1]): [devices[-1]] raises. *)
Example select_device_no_device :
  select_device None (-1) [] = Raise IndexError.
Proof. reflexivity. Qed.

(** No default input device ([-1]) while the last device has input
    channels: [devices[-1]] is that last device, and [-1] is returned. *)
Example select_device_default_minus_one :
  select_device None (-1) [mk_device 0; mk_device 2] = Return (-1)%Z.
Proof. reflexivity. Qed.

(** Ports 5000 to 5002 are taken, 5003 is free. *)
Example find_free_port_fourth :
  find_free_port (fun p => if (p <? 5003)%Z then bind_OSError else binds) 5000
  = ([5000; 5001; 5002; 5003]%Z, Return 5003%Z).
Proof. reflexivity. Qed.

(** Port 65535 is taken and the next number is no port: the exception
    of [bind] that is not an [OSError] leaves the function. *)
Example find_free_port_past_65535 :
  find_free_port
    (fun p => if (65535 <? p)%Z then bind_raises OverflowError else bind_OSError)
    65535
  = ([65535; 65536]%Z, Raise OverflowError).
Proof. reflexivity. Qed.

(** ** Comparisons *)

Lemma Qltb_true (x y : Q) : Qltb x y = true <-> (x < y)%Q.
Proof.
  unfold Qltb. rewrite negb_true_iff. split.
  - intros H. apply Qnot_le_lt. intros Hle.
    apply Qle_bool_iff in Hle. congruence.
  - intros H. destruct (Qle_bool y x) eqn:E; [|reflexivity].
    apply Qle_bool_iff in E. exfalso. exact (Qlt_not_le _ _ H E).
Qed.

Lemma Qltb_false (x y : Q) : Qltb x y = false <-> (y <= x)%Q.
Proof.
  unfold Qltb. rewrite negb_false_iff. apply Qle_bool_iff.
Qed.

Lemma THRESHOLD_f32_value : THRESHOLD_f32 = S754_finite false 13421773 (-28).
Proof. vm_compute. reflexivity. Qed.

(** The converted threshold is above the decimal. *)
Lemma THRESHOLD_f32_above : (THRESHOLD < Q_of_f32 THRESHOLD_f32)%Q.
Proof. rewrite THRESHOLD_f32_value. reflexivity. Qed.

Lemma f32_gt_exceeds_f32 (x : float32) :
  f32_gt x THRESHOLD = true <-> exceeds_threshold_f32 x.
Proof.
  unfold f32_gt, exceeds_threshold_f32. fold THRESHOLD_f32.
  destruct x as [s|s| |s m e].
  - apply Qltb_true.
  - destruct s; simpl; split; congruence.
  - split; [discriminate | contradiction].
  - apply Qltb_true.
Qed.

Lemma exceeds_threshold_f32_exceeds (x : float32) :
  exceeds_threshold_f32 x -> exceeds_threshold x.
Proof.
  pose proof THRESHOLD_f32_above as H.
  destruct x as [s|s| |s m e]; unfold exceeds_threshold_f32, exceeds_threshold;
    try tauto; intros Hx; eapply Qlt_trans; eassumption.
Qed.

Lemma f32_gt_exceeds (x : float32) :
  f32_gt x THRESHOLD = true -> exceeds_threshold x.
Proof.
  intros H. apply exceeds_threshold_f32_exceeds, f32_gt_exceeds_f32, H.
Qed.

(** ** The threshold in binary32 *)

Lemma Qpower_2_pos (e : Z) : (0 < Qpower 2 e)%Q.
Proof. apply Qpower_0_lt; reflexivity. Qed.

(** [2^e] as a fraction of integers. *)
Lemma Qpower_2_nonneg (e : Z) : (0 <= e)%Z -> (Qpower 2 e == inject_Z (2 ^ e))%Q.
Proof. intros He. rewrite Zpower_Qpower by exact He. reflexivity. Qed.

Lemma Qpower_2_neg (e : Z) :
  (e <= 0)%Z -> (Qpower 2 e * inject_Z (2 ^ (- e)) == 1)%Q.
Proof.
  intros He. rewrite <- (Z.opp_involutive e) at 1.
  rewrite Qpower_opp, <- Qpower_2_nonneg by lia.
  rewrite Qmult_comm. apply Qmult_inv_r.
  intros H. pose proof (Qpower_2_pos (- e)) as Hp. rewrite H in Hp.
  exact (Qlt_irrefl _ Hp).
Qed.

(** No binary32 number lies strictly between 0.05 and [13421773 * 2^-28]. *)
Lemma no_binary32_in_gap (m : positive) (e : Z) :
  (Z.pos m < 2 ^ 24)%Z ->
  (0.05 < inject_Z (Z.pos m) * Qpower 2 e)%Q ->
  (inject_Z 13421773 * Qpower 2 (-28) <= inject_Z (Z.pos m) * Qpower 2 e)%Q.
Proof.
  intros Hm Hx.
  destruct (Z_le_gt_dec 0 e) as [He|He].
  - (* an integer, at least 1 *)
    assert (H1 : (0 < 2 ^ e)%Z) by (apply Z.pow_pos_nonneg; lia).
    apply Qle_trans with 1%Q; [vm_compute; discriminate|].
    rewrite (Qpower_2_nonneg e He), <- inject_Z_mult. change 1%Q with (inject_Z 1).
    rewrite <- Zle_Qle. nia.
  - pose proof (Qpower_2_neg e ltac:(lia)) as Hinv.
    set (D := (2 ^ (- e))%Z) in *.
    assert (HD : (0 < D)%Z) by (apply Z.pow_pos_nonneg; lia).
    assert (HDq : (0 < inject_Z D)%Q) by (change 0%Q with (inject_Z 0); rewrite <- Zlt_Qlt; exact HD).
    (* multiply through by D *)
    assert (Hval : (inject_Z (Z.pos m) * Qpower 2 e * inject_Z D == inject_Z (Z.pos m))%Q).
    { rewrite <- Qmult_assoc, Hinv. ring. }
    assert (Hlow : (0.05 * inject_Z D < inject_Z (Z.pos m))%Q).
    { rewrite <- Hval. apply Qmult_lt_compat_r; assumption. }
    assert (HlowZ : (D < 20 * Z.pos m)%Z).
    { rewrite Zlt_Qlt, inject_Z_mult. change (inject_Z 20) with 20%Q. lra. }
    apply Qmult_le_r with (z := inject_Z D); [exact HDq|].
    rewrite Hval.
    destruct (Z_le_gt_dec (-28) e) as [He28|He28].
    + assert (HK : (2 ^ 28 = D * 2 ^ (28 + e))%Z).
      { unfold D. rewrite <- Z.pow_add_r by lia. f_equal. lia. }
      assert (HKpos : (0 < 2 ^ (28 + e))%Z) by (apply Z.pow_pos_nonneg; lia).
      assert (Hq : (inject_Z 13421773 * Qpower 2 (-28) * inject_Z D * inject_Z (2 ^ (28 + e))
                    == inject_Z 13421773)%Q).
      { rewrite <- !Qmult_assoc, <- inject_Z_mult, <- HK.
        change (inject_Z (2 ^ 28)) with (inject_Z (2 ^ (- -28))).
        rewrite Qpower_2_neg by lia. ring. }
      apply Qmult_le_r with (z := inject_Z (2 ^ (28 + e)));
        [change 0%Q with (inject_Z 0); rewrite <- Zlt_Qlt; exact HKpos|].
      rewrite Hq, <- inject_Z_mult, <- Zle_Qle.
      assert (2 ^ 28 < 20 * (Z.pos m * 2 ^ (28 + e)))%Z by nia.
      change (2 ^ 28)%Z with 268435456%Z in *. lia.
    + exfalso.
      assert (2 ^ 29 <= D)%Z by (unfold D; apply Z.pow_le_mono_r; lia).
      change (2 ^ 29)%Z with 536870912%Z in *.
      change (2 ^ 24)%Z with 16777216%Z in *. lia.
Qed.

(** A binary32 loudness above 0.05 is above the converted threshold, or is
    the converted threshold itself. *)
Lemma exceeds_threshold_gap (x : float32) :
  fits_binary32 x ->
  exceeds_threshold x ->
  exceeds_threshold_f32 x \/ (Q_of_f32 x == Q_of_f32 THRESHOLD_f32)%Q.
Proof.
  unfold exceeds_threshold_f32. rewrite THRESHOLD_f32_value.
  destruct x as [s|s| |s m e]; cbn [fits_binary32 exceeds_threshold Q_of_f32].
  - intros _ H. discriminate H.
  - intros _ H. left. exact H.
  - intros _ [].
  - intros Hm Hx.
    assert (Hpos : (0 < inject_Z (Z.pos m) * Qpower 2 e)%Q).
    { apply Qmult_lt_0_compat; [reflexivity | apply Qpower_2_pos]. }
    destruct s.
    + exfalso. unfold THRESHOLD in Hx. lra.
    + destruct (Qle_lt_or_eq _ _ (no_binary32_in_gap m e Hm Hx)) as [Hlt|Heq].
      * left. exact Hlt.
      * right. symmetry. exact Heq.
Qed.

(** ** The decision of one callback *)

Lemma on_loudness_alert (x : float32) (clk : clock) (g : globals) :
  f32_gt x THRESHOLD = true ->
  (2 < t_test clk - last_beep_time g)%Q ->
  on_loudness x clk g =
    (set_last_beep_time (t_assign clk)
       (queue_put {| rms := x; alarm := true |} g), true).
Proof.
  intros Hx Ht. unfold on_loudness. rewrite Hx. simpl.
  apply Qltb_true in Ht. rewrite Ht. reflexivity.
Qed.

Lemma on_loudness_cooling (x : float32) (clk : clock) (g : globals) :
  f32_gt x THRESHOLD = true ->
  (t_test clk - last_beep_time g <= 2)%Q ->
  on_loudness x clk g = (queue_put {| rms := x; alarm := true |} g, false).
Proof.
  intros Hx Ht. unfold on_loudness. rewrite Hx. simpl.
  apply Qltb_false in Ht. rewrite Ht. reflexivity.
Qed.

Lemma on_loudness_below (x : float32) (clk : clock) (g : globals) :
  f32_gt x THRESHOLD = false ->
  on_loudness x clk g = (queue_put {| rms := x; alarm := false |} g, false).
Proof.
  intros Hx. unfold on_loudness. rewrite Hx. reflexivity.
Qed.

Lemma should_alert_iff (x : float32) (clk : clock) (g : globals) :
  snd (on_loudness x clk g) = true <->
  exceeds_threshold_f32 x
  /\ (cooldown_duration < t_test clk - last_beep_time g)%Q.
Proof.
  rewrite <- f32_gt_exceeds_f32. unfold cooldown_duration.
  destruct (f32_gt x THRESHOLD) eqn:Hx.
  - destruct (Qltb 2 (t_test clk - last_beep_time g)) eqn:Ht.
    + apply Qltb_true in Ht. rewrite on_loudness_alert by assumption.
      simpl. tauto.
    + apply Qltb_false in Ht. rewrite on_loudness_cooling by assumption.
      simpl. split; [discriminate|].
      intros [_ H]. exfalso. exact (Qlt_not_le _ _ H Ht).
  - rewrite on_loudness_below by assumption. simpl.
    split; [discriminate | intros [H _]; discriminate].
Qed.

(** After a callback [last_beep_time] is the second clock reading when a
    beep was started, and what it was otherwise. *)
Lemma on_loudness_last_beep_time (x : float32) (clk : clock) (g : globals) :
  last_beep_time (fst (on_loudness x clk g)) =
    if snd (on_loudness x clk g) then t_assign clk else last_beep_time g.
Proof.
  unfold on_loudness.
  destruct (f32_gt x THRESHOLD); simpl; [|reflexivity].
  destruct (Qltb 2 (t_test clk - last_beep_time g)); reflexivity.
Qed.

Lemma on_loudness_beep_playing (x : float32) (clk : clock) (g : globals) :
  beep_playing (fst (on_loudness x clk g)) = beep_playing g.
Proof.
  unfold on_loudness.
  destruct (f32_gt x THRESHOLD); simpl; [|reflexivity].
  destruct (Qltb 2 (t_test clk - last_beep_time g)); reflexivity.
Qed.

Lemma on_loudness_queue (x : float32) (clk : clock) (g : globals) :
  data_queue (fst (on_loudness x clk g)) =
    data_queue g ++ [{| rms := x; alarm := f32_gt x THRESHOLD |}].
Proof.
  unfold on_loudness.
  destruct (f32_gt x THRESHOLD); simpl; [|reflexivity].
  destruct (Qltb 2 (t_test clk - last_beep_time g)); reflexivity.
Qed.

(** A callback never moves [last_beep_time] back, provided its own two
    clock readings are in order. *)
Lemma on_loudness_monotone (x : float32) (clk : clock) (g : globals) :
  clock_forward clk ->
  (last_beep_time g <= last_beep_time (fst (on_loudness x clk g)))%Q.
Proof.
  unfold clock_forward. intros Hc. rewrite on_loudness_last_beep_time.
  destruct (snd (on_loudness x clk g)) eqn:Hb.
  - apply should_alert_iff in Hb. destruct Hb as [_ Hb].
    unfold cooldown_duration in Hb. lra.
  - lra.
Qed.

(** ** Runs of callbacks *)

Lemma run_loudness_cons (x : float32) (clk : clock)
    (rest : list (float32 * clock)) (g : globals) :
  run_loudness ((x, clk) :: rest) g =
    (fst (run_loudness rest (fst (on_loudness x clk g))),
     snd (on_loudness x clk g)
       :: snd (run_loudness rest (fst (on_loudness x clk g)))).
Proof.
  simpl. destruct (on_loudness x clk g) as [g1 b]. simpl.
  destruct (run_loudness rest g1) as [g2 bs]. reflexivity.
Qed.

(** A run on blocks is the run on their loudness values. *)
Lemma run_callbacks_loudness (inputs : list (list float32 * clock)) :
  forall g : globals,
    run_callbacks inputs g
    = run_loudness (map (fun bc => (rms_of (fst bc), snd bc)) inputs) g.
Proof.
  induction inputs as [|[indata clk] rest IH]; intros g; simpl.
  - reflexivity.
  - unfold callback, compute.
    destruct (on_loudness (rms_of indata) clk g) as [g1 b].
    rewrite IH. reflexivity.
Qed.

(** Every beep of a run is started more than the cooldown after the
    [last_beep_time] the run began with. *)
Lemma alert_after_initial_beep (inputs : list (float32 * clock)) :
  Forall (fun xc => clock_forward (snd xc)) inputs ->
  forall (g : globals) (j : nat) (xj : float32) (cj : clock),
    inputs !! j = Some (xj, cj) ->
    snd (run_loudness inputs g) !! j = Some true ->
    (cooldown_duration < t_test cj - last_beep_time g)%Q.
Proof.
  induction 1 as [|[x clk] rest Hclk Hrest IH]; intros g j xj cj Hj Hb.
  - discriminate.
  - rewrite run_loudness_cons in Hb. simpl in Hclk.
    destruct j as [|j]; simpl in Hj, Hb.
    + injection Hj as -> ->. injection Hb as Hb.
      apply should_alert_iff in Hb. tauto.
    + specialize (IH _ _ _ _ Hj Hb).
      pose proof (on_loudness_monotone x clk g Hclk) as Hm.
      lra.
Qed.

(** Two beeps of a run: the later one is started more than the cooldown
    after both clock readings of the earlier one. *)
Lemma alerts_spaced (inputs : list (float32 * clock)) :
  Forall (fun xc => clock_forward (snd xc)) inputs ->
  forall (g : globals) (i j : nat) (xi xj : float32) (ci cj : clock),
    (i < j)%nat ->
    inputs !! i = Some (xi, ci) ->
    inputs !! j = Some (xj, cj) ->
    snd (run_loudness inputs g) !! i = Some true ->
    snd (run_loudness inputs g) !! j = Some true ->
    (cooldown_duration < t_test cj - t_assign ci)%Q
    /\ (cooldown_duration < t_test cj - t_test ci)%Q.
Proof.
  induction 1 as [|[x clk] rest Hclk Hrest IH];
    intros g i j xi xj ci cj Hij Hi Hj Hbi Hbj.
  - discriminate.
  - rewrite run_loudness_cons in Hbi, Hbj. simpl in Hclk.
    destruct j as [|j]; [lia|].
    destruct i as [|i]; simpl in Hi, Hj, Hbi, Hbj.
    + injection Hi as -> ->. injection Hbi as Hbi.
      pose proof (alert_after_initial_beep rest Hrest _ _ _ _ Hj Hbj) as H.
      rewrite on_loudness_last_beep_time, Hbi in H.
      unfold clock_forward in Hclk. split; lra.
    + apply (IH (fst (on_loudness x clk g)) i j xi xj ci cj);
        [lia | assumption..].
Qed.

Lemma beep_times_cons (x : float32) (clk : clock)
    (rest : list (float32 * clock)) (g : globals) :
  beep_times ((x, clk) :: rest) g =
    last_beep_time (fst (on_loudness x clk g))
      :: beep_times rest (fst (on_loudness x clk g)).
Proof. reflexivity. Qed.

(** Along a run the values of [last_beep_time] never decrease. *)
Lemma beep_times_nondecreasing (inputs : list (float32 * clock)) :
  Forall (fun xc => clock_forward (snd xc)) inputs ->
  forall (g : globals) (i j : nat) (ti tj : Q),
    (i <= j)%nat ->
    (last_beep_time g :: beep_times inputs g) !! i = Some ti ->
    (last_beep_time g :: beep_times inputs g) !! j = Some tj ->
    (ti <= tj)%Q.
Proof.
  induction 1 as [|[x clk] rest Hclk Hrest IH]; intros g i j ti tj Hij Hi Hj.
  - destruct i as [|i]; [|discriminate].
    destruct j as [|j]; [|discriminate].
    simpl in Hi, Hj. injection Hi as <-. injection Hj as <-. apply Qle_refl.
  - rewrite beep_times_cons in Hi, Hj. simpl in Hclk.
    pose proof (on_loudness_monotone x clk g Hclk) as Hm.
    destruct j as [|j].
    + assert (i = 0%nat) as -> by lia.
      simpl in Hi, Hj. injection Hi as <-. injection Hj as <-. apply Qle_refl.
    + destruct i as [|i].
      * simpl in Hi. injection Hi as <-.
        apply Qle_trans with (last_beep_time (fst (on_loudness x clk g)));
          [exact Hm|].
        apply (IH (fst (on_loudness x clk g)) 0%nat j _ tj);
          [lia | reflexivity | exact Hj].
      * apply (IH (fst (on_loudness x clk g)) i j ti tj);
          [lia | exact Hi | exact Hj].
Qed.

(** ** The claims on the alarm decision *)

Lemma instants_clock_forward (calls : list (float32 * Q)) :
  Forall (fun xc => clock_forward (snd xc)) (instants calls).
Proof.
  unfold instants. apply List.Forall_map, List.Forall_forall.
  intros c _. unfold clock_forward. simpl. apply Qle_refl.
Qed.

Lemma instants_lookup (calls : list (float32 * Q)) (i : nat) (x : float32) (t : Q) :
  calls !! i = Some (x, t) -> instants calls !! i = Some (x, at_instant t).
Proof.
  intros H. unfold instants. rewrite list_lookup_fmap, H. reflexivity.
Qed.

(** C1, as the program decides: a beep thread is started exactly when the
    loudness exceeds the threshold as line 152 compares with it, converted to
    binary32, and the clock read in the cooldown test is more than
    [cooldown_duration] past [last_beep_time].  Such a loudness exceeds 0.05;
    of the binary32 loudness values above 0.05 only the converted threshold
    itself starts no beep once the cooldown is over.  Hence in every run of
    callbacks, whatever the loudness values and the times, any two callbacks
    that both start a beep are more than [cooldown_duration] apart.  This is
    stated for runs whose callbacks each happen at one instant [now], with no
    condition on the times at all, and for runs in which a callback that
    starts a beep reads the clock twice (lines 155 and 156), the two readings
    being in their order. *)
Theorem should_alert_respects_cooldown :
  (forall (x : float32) (clk : clock) (g0 : globals),
      (snd (on_loudness x clk g0) = true <->
       exceeds_threshold_f32 x
       /\ (cooldown_duration < t_test clk - last_beep_time g0)%Q)
      /\ (snd (on_loudness x clk g0) = true ->
          exceeds_threshold x
          /\ (cooldown_duration < t_test clk - last_beep_time g0)%Q)
      /\ (fits_binary32 x ->
          exceeds_threshold x ->
          (cooldown_duration < t_test clk - last_beep_time g0)%Q ->
          snd (on_loudness x clk g0) = true
          \/ (Q_of_f32 x == Q_of_f32 THRESHOLD_f32)%Q))
  /\
  (forall (calls : list (float32 * Q)) (g : globals)
          (i j : nat) (xi xj : float32) (ti tj : Q),
      (i < j)%nat ->
      calls !! i = Some (xi, ti) ->
      calls !! j = Some (xj, tj) ->
      snd (run_loudness (instants calls) g) !! i = Some true ->
      snd (run_loudness (instants calls) g) !! j = Some true ->
      (cooldown_duration < tj - ti)%Q)
  /\
  (forall (inputs : list (float32 * clock)) (g : globals),
      Forall (fun xc => clock_forward (snd xc)) inputs ->
      forall (i j : nat) (xi xj : float32) (ci cj : clock),
        (i < j)%nat ->
        inputs !! i = Some (xi, ci) ->
        inputs !! j = Some (xj, cj) ->
        snd (run_loudness inputs g) !! i = Some true ->
        snd (run_loudness inputs g) !! j = Some true ->
        (cooldown_duration < t_test cj - t_test ci)%Q).
Proof.
  split; [|split].
  - intros x clk g0. split; [apply should_alert_iff|]. split.
    + intros H. apply should_alert_iff in H. destruct H as [Hx Ht].
      split; [apply exceeds_threshold_f32_exceeds, Hx | exact Ht].
    + intros Hfit Hx Ht.
      destruct (exceeds_threshold_gap x Hfit Hx) as [Habove|Heq].
      * left. apply should_alert_iff. split; assumption.
      * right. exact Heq.
  - intros calls g i j xi xj ti tj Hij Hi Hj Hbi Hbj.
    exact (proj2 (alerts_spaced (instants calls) (instants_clock_forward calls)
                    g i j xi xj (at_instant ti) (at_instant tj) Hij
                    (instants_lookup _ _ _ _ Hi) (instants_lookup _ _ _ _ Hj)
                    Hbi Hbj)).
  - intros inputs g Hclk i j xi xj ci cj Hij Hi Hj Hbi Hbj.
    exact (proj2 (alerts_spaced inputs Hclk g i j xi xj ci cj Hij Hi Hj Hbi Hbj)).
Qed.

(** One second of the constant sample [13421773 * 2^-28]: the squares,
    their pairwise sum, the mean and the square root round so that the
    loudness is that very number. *)
Lemma rms_of_block_at_threshold : rms_of block_at_threshold = THRESHOLD_f32.
Proof. vm_compute. reflexivity. Qed.

(** The loudness [13421773 * 2^-28], a binary32 number above 0.05, long
    after the last beep: no beep is started, be it given as a loudness or as
    the block of 44100 samples that has it. *)
Lemma no_beep_at_converted_threshold :
  valid_binary prec emax THRESHOLD_f32 = true
  /\ exceeds_threshold THRESHOLD_f32
  /\ (cooldown_duration < 1700000000 - last_beep_time initial_globals)%Q
  /\ snd (on_loudness THRESHOLD_f32 (at_instant 1700000000) initial_globals) = false
  /\ rms_of block_at_threshold = THRESHOLD_f32
  /\ snd (callback block_at_threshold (at_instant 1700000000) initial_globals)
     = false.
Proof.
  unfold callback, compute. rewrite rms_of_block_at_threshold.
  rewrite THRESHOLD_f32_value. repeat split.
Qed.

(** C5: a callback that starts a beep sets [last_beep_time] to the clock it
    reads at line 156; a callback that starts none leaves [last_beep_time] as
    it was; either way [beep_playing] is untouched and the queue grows by the
    published sample.  Hence
    [last_beep_time] never decreases along a run: along every run whose
    callbacks each happen at one instant [now] (with non-decreasing [now] in
    particular), and along every run whose callbacks read the clock twice in
    order. *)
Theorem last_beep_time_update_and_monotone :
  (forall (x : float32) (clk : clock) (g0 : globals),
      (snd (on_loudness x clk g0) = true ->
       last_beep_time (fst (on_loudness x clk g0)) = t_assign clk)
      /\ (snd (on_loudness x clk g0) = false ->
          last_beep_time (fst (on_loudness x clk g0)) = last_beep_time g0)
      /\ beep_playing (fst (on_loudness x clk g0)) = beep_playing g0
      /\ data_queue (fst (on_loudness x clk g0))
         = data_queue g0 ++ [{| rms := x; alarm := f32_gt x THRESHOLD |}])
  /\
  (forall (calls : list (float32 * Q)) (g : globals) (i j : nat) (ti tj : Q),
      (i <= j)%nat ->
      (last_beep_time g :: beep_times (instants calls) g) !! i = Some ti ->
      (last_beep_time g :: beep_times (instants calls) g) !! j = Some tj ->
      (ti <= tj)%Q)
  /\
  (forall (inputs : list (float32 * clock)) (g : globals),
      Forall (fun xc => clock_forward (snd xc)) inputs ->
      forall (i j : nat) (ti tj : Q),
        (i <= j)%nat ->
        (last_beep_time g :: beep_times inputs g) !! i = Some ti ->
        (last_beep_time g :: beep_times inputs g) !! j = Some tj ->
        (ti <= tj)%Q).
Proof.
  split; [|split].
  - intros x clk g0. rewrite on_loudness_last_beep_time.
    split; [intros ->; reflexivity|].
    split; [intros ->; reflexivity|].
    split; [apply on_loudness_beep_playing | apply on_loudness_queue].
  - intros calls g. apply beep_times_nondecreasing, instants_clock_forward.
  - intros inputs g Hclk. apply beep_times_nondecreasing. exact Hclk.
Qed.

(** Four callbacks one second apart, all loud: the first and the fourth
    start a beep, three seconds apart. *)
Lemma should_alert_respects_cooldown_witness :
  (cooldown_duration < 1700000003 - 1700000000)%Q.
Proof.
  apply (proj1 (proj2 should_alert_respects_cooldown)
           [(loudness_0_10, 1700000000%Q); (loudness_0_10, 1700000001%Q);
            (loudness_0_10, 1700000002%Q); (loudness_0_10, 1700000003%Q)]
           initial_globals 0%nat 3%nat loudness_0_10 loudness_0_10);
    [lia | reflexivity | reflexivity | reflexivity | reflexivity].
Defined.

(** Along the same four callbacks [last_beep_time] goes from 0 to the
    instant of the fourth. *)
Lemma last_beep_time_update_and_monotone_witness :
  (0 <= 1700000003)%Q.
Proof.
  apply (proj1 (proj2 last_beep_time_update_and_monotone)
           [(loudness_0_10, 1700000000%Q); (loudness_0_10, 1700000001%Q);
            (loudness_0_10, 1700000002%Q); (loudness_0_10, 1700000003%Q)]
           initial_globals 0%nat 4%nat);
    [lia | reflexivity | reflexivity].
Defined.

(** ** Scenario 1 *)

Lemma f32_gt_loudness_0_10 : f32_gt loudness_0_10 THRESHOLD = true.
Proof. reflexivity. Qed.

Ltac run_step :=
  rewrite run_loudness_cons;
  first
    [ rewrite on_loudness_alert
        by (first [exact f32_gt_loudness_0_10 | simpl; lra])
    | rewrite on_loudness_cooling
        by (first [exact f32_gt_loudness_0_10 | simpl; lra]) ];
  cbn [fst snd].

Lemma scenario1_unfold (t0 : Q) :
  scenario1 t0 =
    [(loudness_0_10, at_instant (t0 + 0)); (loudness_0_10, at_instant (t0 + 1));
     (loudness_0_10, at_instant (t0 + 2)); (loudness_0_10, at_instant (t0 + 3));
     (loudness_0_10, at_instant (t0 + 4)); (loudness_0_10, at_instant (t0 + 5));
     (loudness_0_10, at_instant (t0 + 6)); (loudness_0_10, at_instant (t0 + 7));
     (loudness_0_10, at_instant (t0 + 8)); (loudness_0_10, at_instant (t0 + 9))]%Q.
Proof. reflexivity. Qed.

(** The whole run of scenario 1 when the first block comes more than the
    cooldown after the initial [last_beep_time]: which callbacks start a
    beep. *)
Lemma scenario1_run (t0 : Q) :
  (cooldown_duration < t0 - last_beep_time initial_globals)%Q ->
  snd (run_loudness (scenario1 t0) initial_globals) =
    [true; false; false; true; false; false; true; false; false; true].
Proof.
  intros H0. unfold cooldown_duration in H0. simpl in H0.
  rewrite scenario1_unfold.
  do 10 run_step. reflexivity.
Qed.

Lemma run_loudness_queue (inputs : list (float32 * clock)) :
  forall g : globals,
    data_queue (fst (run_loudness inputs g)) =
      data_queue g
      ++ map (fun xc => {| rms := fst xc; alarm := f32_gt (fst xc) THRESHOLD |})
             inputs.
Proof.
  induction inputs as [|[x clk] rest IH]; intros g.
  - simpl. rewrite app_nil_r. reflexivity.
  - rewrite run_loudness_cons. cbn [fst]. rewrite IH, on_loudness_queue.
    rewrite <- app_assoc. reflexivity.
Qed.

(** C7, as the program runs it: with threshold 0.05, cooldown 2 seconds and
    ten blocks of loudness 0.10 one second apart, beeps are started at blocks
    1, 4, 7 and 10 and at no other block (not at 2, not at 3: at block 3
    exactly 2 seconds have passed, and line 155 asks for more), and each of
    the ten published samples has its [alarm] flag set; the run is the same
    when the callbacks are given blocks of that loudness. *)
Theorem scenario1_alerts_every_third_block :
  forall t0 : Q,
    (cooldown_duration < t0 - last_beep_time initial_globals)%Q ->
    alert_blocks (snd (run_loudness (scenario1 t0) initial_globals))
      = [1; 4; 7; 10]%nat
    /\ data_queue (fst (run_loudness (scenario1 t0) initial_globals))
      = repeat {| rms := loudness_0_10; alarm := true |} 10
    /\ run_callbacks (scenario1_blocks t0) initial_globals
      = run_loudness (scenario1 t0) initial_globals.
Proof.
  intros t0 H0. split; [|split].
  - rewrite scenario1_run by exact H0. reflexivity.
  - rewrite run_loudness_queue. reflexivity.
  - rewrite run_callbacks_loudness. reflexivity.
Qed.

(** Whatever the start time and the globals, the callbacks of blocks 1
    and 3 of scenario 1 never both start a beep. *)
Lemma scenario1_not_blocks_1_and_3 (t0 : Q) (g : globals) :
  snd (run_loudness (scenario1 t0) g) !! 0%nat = Some true ->
  snd (run_loudness (scenario1 t0) g) !! 2%nat = Some true ->
  False.
Proof.
  intros H1 H3.
  assert (Hclk : Forall (fun xc => clock_forward (snd xc)) (scenario1 t0)).
  { rewrite scenario1_unfold.
    repeat constructor; unfold clock_forward; simpl; apply Qle_refl. }
  destruct (alerts_spaced (scenario1 t0) Hclk g 0%nat 2%nat loudness_0_10
              loudness_0_10 (at_instant (t0 + 0)) (at_instant (t0 + 2))
              ltac:(lia) eq_refl eq_refl H1 H3) as [_ H].
  unfold cooldown_duration in H. simpl in H. lra.
Qed.

Lemma scenario1_alerts_every_third_block_witness :
  (cooldown_duration < 1700000000 - last_beep_time initial_globals)%Q
  /\ alert_blocks (snd (run_loudness (scenario1 1700000000) initial_globals))
     = [1; 4; 7; 10]%nat.
Proof.
  assert (H : (cooldown_duration < 1700000000 - last_beep_time initial_globals)%Q)
    by reflexivity.
  split; [exact H|].
  exact (proj1 (scenario1_alerts_every_third_block 1700000000 H)).
Defined.

(** Scenario 1 at a concrete start: the callback of block 3 starts no beep,
    the next beep after block 1 is at block 4. *)
Lemma scenario1_no_alert_at_block_3 :
  snd (run_loudness (scenario1 1700000000) initial_globals) !! 2%nat = Some false
  /\ alert_blocks (snd (run_loudness (scenario1 1700000000) initial_globals))
     = [1; 4; 7; 10]%nat.
Proof. split; reflexivity. Qed.

(** ** The beep player *)

Lemma beep_rounds_all_return (dev : device_behaviour) :
  (forall (k : nat) (c : sd_call), dev k c = returns) ->
  forall k n : nat,
    beep_rounds dev k n =
      (flat_map (fun i => [ev_tone i; ev_gap i]) (seq k n), returns).
Proof.
  intros Hdev k n. revert k.
  induction n as [|n IH]; intros k; simpl.
  - reflexivity.
  - rewrite !Hdev, IH. reflexivity.
Qed.

Lemma play_beep_busy (dev : device_behaviour) (g : globals) :
  beep_playing g = true -> play_beep dev g = (g, [], Return tt).
Proof.
  intros Hg. unfold play_beep, play_beep_enter. rewrite Hg. reflexivity.
Qed.

Lemma play_beep_started (dev : device_behaviour) (g : globals) :
  beep_playing g = false ->
  play_beep dev g
  = (play_beep_leave (set_beep_playing true g),
     fst (play_beep_sequence dev), snd (play_beep_sequence dev)).
Proof.
  intros Hg. unfold play_beep, play_beep_enter. rewrite Hg.
  destruct (play_beep_sequence dev) as [evs r]. reflexivity.
Qed.

Lemma play_beep_resets (dev : device_behaviour) (g : globals) :
  beep_playing g = false ->
  fst (fst (play_beep dev g)) = g.
Proof.
  intros Hg. rewrite play_beep_started by exact Hg.
  destruct g as [t b q]. simpl in Hg. subst b. reflexivity.
Qed.

Lemma play_beep_sequence_returns (dev : device_behaviour) :
  (forall (k : nat) (c : sd_call), dev k c <> raises_BaseException) ->
  snd (play_beep_sequence dev) = Return tt.
Proof.
  intros Hdev. unfold play_beep_sequence.
  destruct (beep_rounds dev 0 3) as [evs f] eqn:E.
  destruct f; try reflexivity.
  exfalso. simpl in E.
  repeat match type of E with
         | context [match dev ?k ?c with _ => _ end] =>
             let F := fresh "F" in
             destruct (dev k c) eqn:F;
             [ | try discriminate E | exact (Hdev _ _ F) ]
         end.
  discriminate E.
Qed.

(** C6: called while [beep_playing] is true, [play_beep] returns at once:
    the globals are untouched, nothing is played, nothing is raised.  Called
    while it is false, it sets [beep_playing] before the first tone, so that
    in the globals in which the tones are played the flag is true and any
    further call returns at once; the [finally] clause clears the flag in
    whatever globals it runs, so that the call ends with [beep_playing] false
    whatever the sound device does in any of the three rounds; it raises
    nothing when the device raises an [Exception], and it plays the three
    tones and gaps when the device raises nothing. *)
Theorem play_beep_single_flight :
  forall (dev : device_behaviour) (g : globals),
    (beep_playing g = true ->
     play_beep_enter g = None /\ play_beep dev g = (g, [], Return tt))
    /\ (beep_playing g = false ->
        exists g1 : globals,
          play_beep_enter g = Some g1
          /\ beep_playing g1 = true
          /\ last_beep_time g1 = last_beep_time g
          /\ data_queue g1 = data_queue g
          /\ (forall dev' : device_behaviour,
                play_beep dev' g1 = (g1, [], Return tt))
          /\ fst (fst (play_beep dev g)) = play_beep_leave g1
          /\ beep_playing (fst (fst (play_beep dev g))) = false
          /\ fst (fst (play_beep dev g)) = g
          /\ ((forall (k : nat) (c : sd_call), dev k c <> raises_BaseException) ->
              snd (play_beep dev g) = Return tt)
          /\ ((forall (k : nat) (c : sd_call), dev k c = returns) ->
              snd (fst (play_beep dev g))
              = [ev_tone 0; ev_gap 0; ev_tone 1; ev_gap 1; ev_tone 2; ev_gap 2]))
    /\ (forall g' : globals,
          beep_playing (play_beep_leave g') = false
          /\ last_beep_time (play_beep_leave g') = last_beep_time g'
          /\ data_queue (play_beep_leave g') = data_queue g').
Proof.
  intros dev g. split; [|split].
  - intros Hg. split; [|apply play_beep_busy, Hg].
    unfold play_beep_enter. rewrite Hg. reflexivity.
  - intros Hg. exists (set_beep_playing true g).
    split; [unfold play_beep_enter; rewrite Hg; reflexivity|].
    split; [reflexivity|]. split; [reflexivity|]. split; [reflexivity|].
    split; [intros dev'; apply play_beep_busy; reflexivity|].
    split; [rewrite play_beep_started by exact Hg; reflexivity|].
    split; [rewrite play_beep_started by exact Hg; reflexivity|].
    split; [apply play_beep_resets, Hg|].
    split.
    + intros Hdev. rewrite play_beep_started by exact Hg.
      apply play_beep_sequence_returns, Hdev.
    + intros Hdev. rewrite play_beep_started by exact Hg.
      cbn [fst snd]. unfold play_beep_sequence.
      rewrite beep_rounds_all_return by exact Hdev. reflexivity.
  - intros g'. repeat split.
Qed.

(** ** The queue and the subscribers *)



Lemma socketio_emit_received (d : delivery) (m : message) (h : hub) (c : nat) :
  received (fst (socketio_emit d m h)) c = received h c
  \/ received (fst (socketio_emit d m h)) c = received h c ++ [m].
Proof.
  simpl. destruct (bool_decide (c ∈ connected h) && reaches d c)%bool; auto.
Qed.







(** ** Device selection *)

Lemma py_getitem_In {A : Type} (l : list A) (i : Z) (x : A) :
  py_getitem l i = Return x -> In x l.
Proof.
  unfold py_getitem. intros H.
  destruct (_ && _)%bool; [|discriminate].
  destruct (nth_error l _) as [y|] eqn:E; [|discriminate].
  injection H as <-. eapply nth_error_In, E.
Qed.

Lemma py_getitem_nonneg {A : Type} (l : list A) (i : Z) (x : A) :
  (0 <= i)%Z -> nth_error l (Z.to_nat i) = Some x -> py_getitem l i = Return x.
Proof.
  intros Hi Hx. unfold py_getitem.
  assert (Hlen : (Z.to_nat i < length l)%nat).
  { apply nth_error_Some. rewrite Hx. discriminate. }
  replace (i <? 0)%Z with false by (symmetry; apply Z.ltb_ge; lia).
  replace (0 <=? i)%Z with true by (symmetry; apply Z.leb_le; lia).
  replace (i <? Z.of_nat (length l))%Z with true
    by (symmetry; apply Z.ltb_lt; lia).
  simpl. rewrite Hx. reflexivity.
Qed.

Lemma first_input_from_Some (devices : list device) :
  forall k i : Z,
    first_input_from k devices = Some i ->
    exists n : nat,
      i = (k + Z.of_nat n)%Z
      /\ (exists dev, nth_error devices n = Some dev
                      /\ (0 < max_input_channels dev)%Z)
      /\ forall (m : nat) (dev : device),
           (m < n)%nat -> nth_error devices m = Some dev ->
           (max_input_channels dev <= 0)%Z.
Proof.
  induction devices as [|d rest IH]; intros k i H; simpl in H.
  - discriminate.
  - destruct (0 <? max_input_channels d)%Z eqn:E.
    + injection H as <-. exists 0%nat. split; [lia|]. split.
      * exists d. split; [reflexivity | apply Z.ltb_lt, E].
      * intros m dev Hm. lia.
    + destruct (IH _ _ H) as (n & -> & Hdev & Hmin).
      exists (S n). split; [lia|]. split; [exact Hdev|].
      intros [|m] dev Hm Hnth; simpl in Hnth.
      * injection Hnth as <-. apply Z.ltb_ge, E.
      * apply (Hmin m dev); [lia | exact Hnth].
Qed.

Lemma first_input_from_None (devices : list device) :
  forall k : Z,
    first_input_from k devices = None <->
    forall dev, In dev devices -> (max_input_channels dev <= 0)%Z.
Proof.
  induction devices as [|d rest IH]; intros k; simpl.
  - split; [intros _ dev [] | reflexivity].
  - destruct (0 <? max_input_channels d)%Z eqn:E.
    + split; [discriminate|]. intros H. exfalso.
      apply Z.ltb_lt in E. specialize (H d (or_introl eq_refl)). lia.
    + rewrite IH. apply Z.ltb_ge in E. split.
      * intros H dev [<-|Hin]; [exact E | apply H, Hin].
      * intros H dev Hin. apply H. right. exact Hin.
Qed.

Lemma first_input_from_capable (devices : list device) (i : Z) :
  first_input_from 0 devices = Some i <-> first_input_capable devices i.
Proof.
  split.
  - intros H. destruct (first_input_from_Some _ _ _ H) as (n & -> & Hdev & Hmin).
    unfold first_input_capable. rewrite Z.add_0_l, Nat2Z.id.
    split; [lia|]. split; [exact Hdev|].
    intros m dev Hm. apply Hmin. lia.
  - intros (Hi & (dev & Hdev & Hch) & Hmin).
    destruct (first_input_from 0 devices) as [i'|] eqn:E.
    + destruct (first_input_from_Some _ _ _ E) as (n & -> & (dev' & Hdev' & Hch') & Hmin').
      rewrite Z.add_0_l. f_equal.
      destruct (Z.lt_trichotomy (Z.of_nat n) i) as [Hlt | [Heq | Hgt]].
      * specialize (Hmin n dev' Hlt Hdev'). lia.
      * exact Heq.
      * assert (Hlt' : (Z.to_nat i < n)%nat) by lia.
        specialize (Hmin' (Z.to_nat i) dev Hlt' Hdev). lia.
    + exfalso. pose proof (proj1 (first_input_from_None devices 0) E dev) as H.
      specialize (H (nth_error_In _ _ Hdev)). lia.
Qed.

Lemma select_fallback_sound (default_input : Z) (devices : list device) (i : Z) :
  select_fallback default_input devices = Return i ->
  exists dev, py_getitem devices i = Return dev
              /\ (0 < max_input_channels dev)%Z.
Proof.
  unfold select_fallback, bind_result. intros H.
  destruct (py_getitem devices default_input) as [dev|e] eqn:Ed; [|discriminate].
  destruct (0 <? max_input_channels dev)%Z eqn:Ech.
  - injection H as <-. exists dev. split; [exact Ed | apply Z.ltb_lt, Ech].
  - destruct (first_input_from 0 devices) as [i'|] eqn:Ef; [|discriminate].
    injection H as <-.
    apply first_input_from_capable in Ef.
    destruct Ef as (Hi & (dev' & Hdev' & Hch') & _).
    exists dev'. split; [apply py_getitem_nonneg; assumption | exact Hch'].
Qed.

Lemma select_device_sound (DEVICE_INDEX : option Z) (default_input : Z)
    (devices : list device) (i : Z) :
  select_device DEVICE_INDEX default_input devices = Return i ->
  exists dev, py_getitem devices i = Return dev
              /\ (0 < max_input_channels dev)%Z.
Proof.
  unfold select_device, bind_result. intros H.
  destruct DEVICE_INDEX as [d|]; [|exact (select_fallback_sound _ _ _ H)].
  destruct (d <? Z.of_nat (length devices))%Z;
    [|exact (select_fallback_sound _ _ _ H)].
  destruct (py_getitem devices d) as [dev|e] eqn:Ed; [|discriminate].
  destruct (0 <? max_input_channels dev)%Z eqn:Ech;
    [|exact (select_fallback_sound _ _ _ H)].
  injection H as <-. exists dev. split; [exact Ed | apply Z.ltb_lt, Ech].
Qed.

Lemma select_device_unusable (DEVICE_INDEX : option Z) (default_input : Z)
    (devices : list device) :
  configured_unusable DEVICE_INDEX devices ->
  select_device DEVICE_INDEX default_input devices
  = select_fallback default_input devices.
Proof.
  unfold configured_unusable, select_device, bind_result.
  destruct DEVICE_INDEX as [d|]; [|reflexivity].
  intros [Hlen | (dev & Hdev & Hch)].
  - replace (d <? Z.of_nat (length devices))%Z with false
      by (symmetry; apply Z.ltb_ge; exact Hlen).
    reflexivity.
  - destruct (d <? Z.of_nat (length devices))%Z; [|reflexivity].
    rewrite Hdev.
    replace (0 <? max_input_channels dev)%Z with false
      by (symmetry; apply Z.ltb_ge; exact Hch).
    reflexivity.
Qed.

Lemma py_getitem_range {A : Type} (l : list A) (i : Z) (x : A) :
  (0 <= i)%Z -> py_getitem l i = Return x -> (i < Z.of_nat (length l))%Z.
Proof.
  intros Hi. unfold py_getitem.
  replace (i <? 0)%Z with false by (symmetry; apply Z.ltb_ge; lia).
  destruct (i <? Z.of_nat (length l))%Z eqn:E.
  - intros _. apply Z.ltb_lt, E.
  - rewrite andb_false_r. discriminate.
Qed.

Lemma select_fallback_in_range (default_input : Z) (devices : list device) (i : Z) :
  (0 <= default_input)%Z ->
  select_fallback default_input devices = Return i ->
  (0 <= i < Z.of_nat (length devices))%Z.
Proof.
  intros Hdef. unfold select_fallback, bind_result. intros H.
  destruct (py_getitem devices default_input) as [dev|e] eqn:Ed; [|discriminate].
  destruct (0 <? max_input_channels dev)%Z.
  - injection H as <-. split; [exact Hdef | exact (py_getitem_range _ _ _ Hdef Ed)].
  - destruct (first_input_from 0 devices) as [i'|] eqn:Ef; [|discriminate].
    injection H as <-. apply first_input_from_capable in Ef.
    destruct Ef as (Hi & (dev' & Hdev' & _) & _). split; [exact Hi|].
    assert (Hlen : (Z.to_nat i' < length devices)%nat).
    { apply nth_error_Some. rewrite Hdev'. discriminate. }
    lia.
Qed.

Lemma select_device_in_range (DEVICE_INDEX : option Z) (default_input : Z)
    (devices : list device) (i : Z) :
  (0 <= default_input)%Z ->
  (forall d : Z, DEVICE_INDEX = Some d -> (0 <= d)%Z) ->
  select_device DEVICE_INDEX default_input devices = Return i ->
  (0 <= i < Z.of_nat (length devices))%Z.
Proof.
  intros Hdef Hcfg. unfold select_device, bind_result. intros H.
  destruct DEVICE_INDEX as [d|];
    [|exact (select_fallback_in_range _ _ _ Hdef H)].
  destruct (d <? Z.of_nat (length devices))%Z eqn:Elen;
    [|exact (select_fallback_in_range _ _ _ Hdef H)].
  destruct (py_getitem devices d) as [dev|e] eqn:Ed; [|discriminate].
  destruct (0 <? max_input_channels dev)%Z;
    [|exact (select_fallback_in_range _ _ _ Hdef H)].
  injection H as <-. split; [apply Hcfg; reflexivity | apply Z.ltb_lt, Elen].
Qed.

(** The policy of [select_device]: the configured index when it is below
    the length of the list and names a device with an input channel, else the
    default input when the device it names has one, else the first device of
    the list that has one. *)
Lemma select_device_policy (DEVICE_INDEX : option Z) (default_input : Z)
    (devices : list device) :
  (forall (d : Z) (dev : device),
      DEVICE_INDEX = Some d ->
      (d < Z.of_nat (length devices))%Z ->
      py_getitem devices d = Return dev ->
      (0 < max_input_channels dev)%Z ->
      select_device DEVICE_INDEX default_input devices = Return d)
  /\ (configured_unusable DEVICE_INDEX devices ->
      forall dev : device,
        py_getitem devices default_input = Return dev ->
        ((0 < max_input_channels dev)%Z ->
         select_device DEVICE_INDEX default_input devices
         = Return default_input)
        /\ ((max_input_channels dev <= 0)%Z ->
            forall i : Z,
              select_device DEVICE_INDEX default_input devices = Return i
              <-> first_input_capable devices i)).
Proof.
  split.
  - intros d dev -> Hlen Hdev Hch. unfold select_device, bind_result.
    replace (d <? Z.of_nat (length devices))%Z with true
      by (symmetry; apply Z.ltb_lt; exact Hlen).
    rewrite Hdev.
    replace (0 <? max_input_channels dev)%Z with true
      by (symmetry; apply Z.ltb_lt; exact Hch).
    reflexivity.
  - intros Hun dev Hdev.
    rewrite (select_device_unusable _ _ _ Hun).
    unfold select_fallback, bind_result. rewrite Hdev. split.
    + intros Hch.
      replace (0 <? max_input_channels dev)%Z with true
        by (symmetry; apply Z.ltb_lt; exact Hch).
      reflexivity.
    + intros Hch i.
      replace (0 <? max_input_channels dev)%Z with false
        by (symmetry; apply Z.ltb_ge; exact Hch).
      rewrite <- first_input_from_capable.
      destruct (first_input_from 0 devices) as [i'|]; split; congruence.
Qed.

(** C9, where the program departs from it.  PortAudio has no default input
    device ([sd.default.device[0]] is [-1]) and the devices have 0, 2 and 1
    input channels: [devices[-1]] is the last device of the list, which has
    an input channel, and [select_device] returns [-1]; that is no position
    of the list, and the first device with an input channel, at position 1,
    is passed over.  The same happens for a configured index of [-1].  With
    indices that are not negative the index returned is a position of the
    list, and the device there has an input channel. *)
Theorem select_device_returns_minus_one :
  select_device None (-1) [mk_device 0; mk_device 2; mk_device 1] = Return (-1)%Z
  /\ select_device (Some (-1)%Z) 0 [mk_device 0; mk_device 2; mk_device 1]
     = Return (-1)%Z
  /\ ~ (0 <= -1 < Z.of_nat (length [mk_device 0; mk_device 2; mk_device 1]))%Z
  /\ first_input_capable [mk_device 0; mk_device 2; mk_device 1] 1
  /\ (forall (DEVICE_INDEX : option Z) (default_input : Z)
             (devices : list device) (i : Z),
        (0 <= default_input)%Z ->
        (forall d : Z, DEVICE_INDEX = Some d -> (0 <= d)%Z) ->
        select_device DEVICE_INDEX default_input devices = Return i ->
        (0 <= i < Z.of_nat (length devices))%Z
        /\ exists dev : device,
             nth_error devices (Z.to_nat i) = Some dev
             /\ (0 < max_input_channels dev)%Z).
Proof.
  split; [reflexivity|]. split; [reflexivity|]. split; [simpl; lia|].
  split.
  - apply first_input_from_capable. reflexivity.
  - intros DEVICE_INDEX default_input devices i Hdef Hcfg Hsel.
    pose proof (select_device_in_range _ _ _ _ Hdef Hcfg Hsel) as Hrange.
    split; [exact Hrange|].
    destruct (select_device_sound _ _ _ _ Hsel) as (dev & Hdev & Hch).
    exists dev. split; [|exact Hch].
    unfold py_getitem in Hdev.
    replace (i <? 0)%Z with false in Hdev by (symmetry; apply Z.ltb_ge; lia).
    destruct ((0 <=? i)%Z && (i <? Z.of_nat (length devices))%Z)%bool;
      [|discriminate].
    destruct (nth_error devices (Z.to_nat i)) as [dev'|]; [|discriminate].
    congruence.
Qed.

(** ** The search for a free port *)

(** A returned port is the first one from [port] on that binds, every
    port before it having raised [OSError]. *)
Lemma find_free_port_from_Return (bind : Z -> bind_outcome) (start_port port : Z) :
  forall p : Z,
    snd (find_free_port_from bind start_port port) = Return p <->
    (port <= p < start_port + 100)%Z
    /\ bind p = binds
    /\ forall q : Z, (port <= q < p)%Z -> bind q = bind_OSError.
Proof.
  funelim (find_free_port_from bind start_port port); intros p; cbn [snd].
  - split; [discriminate | intros [Hp _]; lia].
  - split.
    + intros [= <-]. split; [lia|]. split; [assumption|]. intros q Hq. lia.
    + intros (Hp & Hb & Hq). f_equal.
      destruct (Z.eq_dec p port) as [->|Hne]; [reflexivity|].
      assert (Hport : bind port = bind_OSError) by (apply Hq; lia).
      congruence.
  - destruct (find_free_port_from bind start_port (port + 1)) as [tried r] eqn:E.
    cbn [snd] in *. rewrite H. split.
    + intros (Hp & Hb & Hq). split; [lia|]. split; [exact Hb|].
      intros q Hq'. destruct (Z.eq_dec q port) as [->|Hne]; [assumption|].
      apply Hq. lia.
    + intros (Hp & Hb & Hq).
      assert (Hne : p <> port) by congruence.
      split; [lia|]. split; [exact Hb|]. intros q Hq'. apply Hq. lia.
  - split; [discriminate|]. intros (Hp & Hb & Hq). exfalso.
    destruct (Z.eq_dec p port) as [->|Hne]; [congruence|].
    assert (Hport : bind port = bind_OSError) by (apply Hq; lia).
    congruence.
Qed.

(** The ports tried are consecutive from [port] on and stay below
    [start_port + 100]. *)
Lemma find_free_port_from_tried (bind : Z -> bind_outcome) (start_port port : Z) :
  exists n : nat,
    (Z.of_nat n <= Z.max 0 (start_port + 100 - port))%Z
    /\ fst (find_free_port_from bind start_port port)
       = map (fun k : nat => (port + Z.of_nat k)%Z) (seq 0 n).
Proof.
  funelim (find_free_port_from bind start_port port); cbn [fst].
  - exists 0%nat. split; [lia | reflexivity].
  - exists 1%nat. split; [lia|]. simpl. rewrite Z.add_0_r. reflexivity.
  - destruct (find_free_port_from bind start_port (port + 1)) as [tried r] eqn:E.
    cbn [fst] in *. destruct H as (n & Hn & ->).
    exists (S n). split; [lia|]. simpl. rewrite Z.add_0_r. f_equal.
    rewrite <- seq_shift, map_map. apply map_ext. intros k. lia.
  - exists 1%nat. split; [lia|]. simpl. rewrite Z.add_0_r. reflexivity.
Qed.

(** The search ends with the [OSError] of line 201 when every port from
    [port] up to [start_port + 99] raised [OSError]. *)
Lemma find_free_port_from_exhausted (bind : Z -> bind_outcome) (start_port port : Z) :
  (forall q : Z, (port <= q < start_port + 100)%Z -> bind q = bind_OSError) ->
  snd (find_free_port_from bind start_port port) = Raise OSError.
Proof.
  funelim (find_free_port_from bind start_port port); intros Hall; cbn [snd].
  - reflexivity.
  - assert (Hport : bind port = bind_OSError) by (apply Hall; lia). congruence.
  - destruct (find_free_port_from bind start_port (port + 1)) as [tried r] eqn:E.
    cbn [snd] in *. apply H. intros q Hq. apply Hall. lia.
  - assert (Hport : bind port = bind_OSError) by (apply Hall; lia). congruence.
Qed.

(** When every bind of the range either succeeds or raises [OSError],
    and one succeeds, the search returns. *)
Lemma find_free_port_from_finds (bind : Z -> bind_outcome) (start_port port : Z) :
  (forall (q : Z) (e : exn),
      (port <= q < start_port + 100)%Z -> bind q <> bind_raises e) ->
  (exists q : Z, (port <= q < start_port + 100)%Z /\ bind q = binds) ->
  exists p : Z, snd (find_free_port_from bind start_port port) = Return p.
Proof.
  funelim (find_free_port_from bind start_port port);
    intros Hcaught (q & Hq & Hb); cbn [snd].
  - lia.
  - exists port. reflexivity.
  - destruct (find_free_port_from bind start_port (port + 1)) as [tried r] eqn:E.
    cbn [snd] in *. apply H.
    + intros q' e Hq'. apply Hcaught. lia.
    + exists q. split; [|exact Hb].
      assert (Hne : q <> port) by congruence. lia.
  - exfalso. apply (Hcaught port e); [lia | assumption].
Qed.

(** C10: [find_free_port] is a total function (the loop is defined by
    recursion on the distance of [port] to [start_port + 100]): for every
    [start_port] it tries at most 100 ports, consecutive from [start_port];
    it returns [p] exactly when [p] is the first port of
    [start_port, start_port + 100) that binds, the ports before it having
    raised [OSError]; it raises when none of the 100 ports binds, with the
    [OSError] of line 201 when they all raised [OSError]; and it does return
    when some port of the range binds and no bind raises anything but
    [OSError]. *)
Theorem find_free_port_scans_100_ports :
  forall (bind : Z -> bind_outcome) (start_port : Z),
    (exists n : nat,
        (n <= 100)%nat
        /\ fst (find_free_port bind start_port)
           = map (fun k : nat => (start_port + Z.of_nat k)%Z) (seq 0 n))
    /\ (forall p : Z,
          snd (find_free_port bind start_port) = Return p <->
          (start_port <= p < start_port + 100)%Z
          /\ bind p = binds
          /\ forall q : Z, (start_port <= q < p)%Z -> bind q = bind_OSError)
    /\ ((forall q : Z, (start_port <= q < start_port + 100)%Z -> bind q <> binds) ->
        exists e : exn, snd (find_free_port bind start_port) = Raise e)
    /\ ((forall q : Z,
            (start_port <= q < start_port + 100)%Z -> bind q = bind_OSError) ->
        snd (find_free_port bind start_port) = Raise OSError)
    /\ ((forall (q : Z) (e : exn),
            (start_port <= q < start_port + 100)%Z -> bind q <> bind_raises e) ->
        (exists q : Z, (start_port <= q < start_port + 100)%Z /\ bind q = binds) ->
        exists p : Z, snd (find_free_port bind start_port) = Return p).
Proof.
  intros bind start_port. unfold find_free_port.
  split; [|split; [|split; [|split]]].
  - destruct (find_free_port_from_tried bind start_port start_port) as (n & Hn & Ht).
    exists n. split; [lia | exact Ht].
  - apply find_free_port_from_Return.
  - intros Hnone.
    destruct (snd (find_free_port_from bind start_port start_port)) as [p|e] eqn:E.
    + exfalso. apply find_free_port_from_Return in E.
      destruct E as (Hp & Hb & _). exact (Hnone p Hp Hb).
    + exists e. reflexivity.
  - apply find_free_port_from_exhausted.
  - apply find_free_port_from_finds.
Qed.

(** ** Rounding keeps the sign *)

Section Rounding.

Variables fprec femax : Z.

Lemma shr_1_nonneg (r : shr_record) :
  (0 <= shr_m r)%Z -> (0 <= shr_m (shr_1 r))%Z.
Proof.
  destruct r as [m r s]. simpl.
  destruct m as [|[p|p|]|[p|p|]]; simpl; lia.
Qed.

Lemma iter_pos_invariant {A : Type} (P : A -> Prop) (f : A -> A) :
  (forall x, P x -> P (f x)) ->
  forall (n : positive) (x : A), P x -> P (SpecFloat.iter_pos f n x).
Proof.
  intros Hf. induction n as [n IH|n IH|]; intros x Hx; simpl.
  - apply IH, IH, Hf, Hx.
  - apply IH, IH, Hx.
  - apply Hf, Hx.
Qed.

Lemma shr_fexp_nonneg (m e : Z) (l : location) :
  (0 <= m)%Z -> (0 <= shr_m (fst (shr_fexp fprec femax m e l)))%Z.
Proof.
  intros Hm. unfold shr_fexp, shr.
  assert (H0 : (0 <= shr_m (shr_record_of_loc m l))%Z).
  { destruct l as [|[| |]]; exact Hm. }
  destruct (fexp fprec femax (Zdigits2 m + e) - e)%Z as [|n|n]; simpl;
    try exact H0.
  apply (iter_pos_invariant (fun r => (0 <= shr_m r)%Z));
    [apply shr_1_nonneg | exact H0].
Qed.

Lemma round_nearest_even_nonneg (m : Z) (l : location) :
  (0 <= m)%Z -> (0 <= round_nearest_even m l)%Z.
Proof.
  intros Hm. destruct l as [|[| |]]; simpl; try lia.
  destruct (Z.even m); lia.
Qed.

(** Whatever is rounded, the result is [nan] or carries the sign asked
    for. *)
Lemma binary_round_aux_nan_or_sign (sx : bool) (m e : Z) (l : location) :
  nan_or_sign sx (binary_round_aux fprec femax sx m e l).
Proof.
  unfold binary_round_aux.
  destruct (shr_fexp fprec femax m e l) as [mrs1 e1].
  destruct (shr_fexp fprec femax _ e1 loc_Exact) as [mrs2 e2].
  destruct (shr_m mrs2) as [|q|q]; [reflexivity | | exact I].
  destruct (e2 <=? femax - fprec)%Z; reflexivity.
Qed.

(** Rounding a non-negative mantissa never gives [nan], and the result
    carries the sign asked for. *)
Lemma binary_round_aux_sign (sx : bool) (m e : Z) (l : location) :
  (0 <= m)%Z -> has_sign sx (binary_round_aux fprec femax sx m e l).
Proof.
  intros Hm. unfold binary_round_aux.
  pose proof (shr_fexp_nonneg m e l Hm) as H1.
  destruct (shr_fexp fprec femax m e l) as [mrs1 e1]. simpl in H1.
  pose proof (shr_fexp_nonneg _ e1 loc_Exact
                (round_nearest_even_nonneg _ (loc_of_shr_record mrs1) H1)) as H2.
  destruct (shr_fexp fprec femax _ e1 loc_Exact) as [mrs2 e2]. simpl in H2.
  destruct (shr_m mrs2) as [|q|q]; [reflexivity | | lia].
  destruct (e2 <=? femax - fprec)%Z; reflexivity.
Qed.

Lemma binary_round_sign (s : bool) (m : positive) (e : Z) :
  has_sign s (binary_round fprec femax s m e).
Proof.
  unfold binary_round.
  destruct (shl_align m e _) as [mz ez].
  apply binary_round_aux_sign. lia.
Qed.

(** A mantissa of full precision with an exponent in range is not
    rounded at all. *)
Lemma binary_round_aux_exact (s : bool) (m : positive) (e : Z) :
  Z.pos (digits2_pos m) = fprec ->
  (emin fprec femax <= e <= femax - fprec)%Z ->
  binary_round_aux fprec femax s (Z.pos m) e loc_Exact = S754_finite s m e.
Proof.
  intros Hd He.
  assert (Hshift : (fexp fprec femax (Zdigits2 (Z.pos m) + e) - e = 0)%Z).
  { unfold fexp. simpl Zdigits2. rewrite Hd. lia. }
  unfold binary_round_aux, shr_fexp. rewrite Hshift.
  cbn [shr shr_record_of_loc shr_m loc_of_shr_record round_nearest_even].
  rewrite Hshift. cbn [shr shr_record_of_loc shr_m].
  replace (e <=? femax - fprec)%Z with true by (symmetry; apply Z.leb_le; lia).
  reflexivity.
Qed.

End Rounding.

Lemma digits2_pos_size (p : positive) : digits2_pos p = Pos.size p.
Proof. induction p as [p IH|p IH|]; simpl; congruence. Qed.

Lemma digits2_pos_shift (p k : positive) :
  digits2_pos (Pos.iter xO p k) = (digits2_pos p + k)%positive.
Proof.
  induction k as [|k IH] using Pos.peano_ind.
  - simpl. lia.
  - rewrite Pos.iter_succ. simpl. rewrite IH. lia.
Qed.

Lemma digits2_pos_bound (p : positive) (k : Z) :
  (0 <= k)%Z -> (Z.pos p < 2 ^ k)%Z -> (Z.pos (digits2_pos p) <= k)%Z.
Proof.
  intros Hk Hp. rewrite digits2_pos_size.
  pose proof (Pos.size_le p) as Hle.
  apply Pos2Z.pos_le_pos in Hle. rewrite Pos2Z.inj_pow in Hle.
  change (Z.pos p~0) with (2 * Z.pos p)%Z in Hle.
  destruct (Z_le_gt_dec (Z.pos (Pos.size p)) k) as [H|H]; [exact H|].
  exfalso.
  assert (H2 : (2 ^ (k + 1) <= 2 ^ Z.pos (Pos.size p))%Z)
    by (apply Z.pow_le_mono_r; lia).
  rewrite Z.pow_add_r, Z.pow_1_r in H2 by lia. lia.
Qed.

(** ** Rounding keeps the magnitude *)

Section Magnitude.

Variables fprec femax : Z.
Hypothesis fprec_pos : (0 < fprec)%Z.

Lemma Zdigits2_log2 (m : Z) : (0 < m)%Z -> Zdigits2 m = (Z.log2 m + 1)%Z.
Proof.
  destruct m as [|p|p]; try lia. intros _. simpl Zdigits2.
  assert (H : forall q : positive, digits2_pos q = Pos.size q)
    by (induction q; simpl; congruence).
  rewrite H. destruct p; simpl; lia.
Qed.

Lemma shr_1_m (r : shr_record) :
  (0 <= shr_m r)%Z -> shr_m (shr_1 r) = Z.shiftr (shr_m r) 1.
Proof.
  destruct r as [m r s]. simpl shr_m at 1 3.
  intros Hm. rewrite <- Z.div2_spec.
  destruct m as [|[p|p|]|p]; try lia; reflexivity.
Qed.

Lemma iter_shr_1_m (n : positive) :
  forall r : shr_record,
    (0 <= shr_m r)%Z ->
    shr_m (SpecFloat.iter_pos shr_1 n r) = Z.shiftr (shr_m r) (Z.pos n).
Proof.
  assert (Hnn : forall (k : Z) (a : Z), (0 <= a)%Z -> (0 <= Z.shiftr a k)%Z)
    by (intros k a Ha; apply Z.shiftr_nonneg; exact Ha).
  induction n as [n IH|n IH|]; intros r Hr; simpl SpecFloat.iter_pos.
  - rewrite IH, IH, shr_1_m by
      (rewrite ?IH, ?shr_1_m by (rewrite ?shr_1_m by exact Hr; auto); auto).
    rewrite !Z.shiftr_shiftr by lia. f_equal. lia.
  - rewrite IH, IH by (rewrite ?IH by exact Hr; auto).
    rewrite !Z.shiftr_shiftr by lia. f_equal. lia.
  - apply shr_1_m, Hr.
Qed.

Lemma shr_record_of_loc_m (m : Z) (l : location) :
  shr_m (shr_record_of_loc m l) = m.
Proof. destruct l as [|[| |]]; reflexivity. Qed.

(** A mantissa that is not shifted out keeps its magnitude. *)
Lemma shr_fexp_magnitude (m e : Z) (l : location) :
  (0 < m)%Z ->
  (emin fprec femax <= Z.log2 m + e)%Z ->
  (0 < shr_m (fst (shr_fexp fprec femax m e l)))%Z
  /\ (Z.log2 (shr_m (fst (shr_fexp fprec femax m e l)))
      + snd (shr_fexp fprec femax m e l) = Z.log2 m + e)%Z.
Proof.
  intros Hm He. unfold shr_fexp, shr.
  rewrite (Zdigits2_log2 m Hm).
  destruct (fexp fprec femax (Z.log2 m + 1 + e) - e)%Z as [|n|n] eqn:En;
    cbn [fst snd]; rewrite ?shr_record_of_loc_m; try (split; [exact Hm | reflexivity]).
  rewrite iter_shr_1_m by (rewrite shr_record_of_loc_m; lia).
  rewrite shr_record_of_loc_m.
  assert (Hn : (Z.pos n <= Z.log2 m)%Z) by (unfold fexp in En; lia).
  pose proof (Z.log2_shiftr m (Z.pos n) Hm) as Hl.
  split; [|rewrite Hl; lia].
  rewrite Z.shiftr_div_pow2 by lia. apply Z.div_str_pos.
  split; [apply Z.pow_pos_nonneg; lia|].
  apply Z.le_trans with (2 ^ Z.log2 m)%Z;
    [apply Z.pow_le_mono_r; lia | apply Z.log2_spec; exact Hm].
Qed.

(** Whatever the exponent, the mantissa left fits the precision. *)
Lemma shr_fexp_fits (m e : Z) (l : location) :
  (0 <= m)%Z ->
  (0 <= shr_m (fst (shr_fexp fprec femax m e l)) < 2 ^ fprec)%Z.
Proof.
  intros Hm. unfold shr_fexp, shr.
  destruct (Z.eq_dec m 0%Z) as [->|Hne].
  { assert (H0 : forall k : Z, Z.shiftr 0%Z k = 0%Z) by (intros k; apply Z.shiftr_0_l).
    assert (Hp : (0 < 2 ^ fprec)%Z) by (apply Z.pow_pos_nonneg; lia).
    destruct (fexp fprec femax (Zdigits2 0 + e) - e)%Z as [|n|n];
      cbn [fst]; rewrite ?iter_shr_1_m by (rewrite shr_record_of_loc_m; lia);
      rewrite shr_record_of_loc_m, ?H0; lia. }
  assert (Hpos : (0 < m)%Z) by lia.
  rewrite (Zdigits2_log2 m Hpos).
  pose proof (Z.log2_spec m Hpos) as [Hlo Hhi].
  pose proof (Z.log2_nonneg m) as Hl0.
  destruct (fexp fprec femax (Z.log2 m + 1 + e) - e)%Z as [|n|n] eqn:En;
    cbn [fst]; rewrite ?iter_shr_1_m by (rewrite shr_record_of_loc_m; lia);
    rewrite shr_record_of_loc_m.
  - split; [lia|]. apply Z.lt_le_trans with (2 ^ Z.succ (Z.log2 m))%Z; [exact Hhi|].
    apply Z.pow_le_mono_r; unfold fexp in En; lia.
  - split; [apply Z.shiftr_nonneg; lia|].
    rewrite Z.shiftr_div_pow2 by lia.
    apply Z.div_lt_upper_bound; [apply Z.pow_pos_nonneg; lia|].
    rewrite <- Z.pow_add_r by lia.
    apply Z.lt_le_trans with (2 ^ Z.succ (Z.log2 m))%Z; [exact Hhi|].
    apply Z.pow_le_mono_r; unfold fexp in En; lia.
  - split; [lia|]. apply Z.lt_le_trans with (2 ^ Z.succ (Z.log2 m))%Z; [exact Hhi|].
    apply Z.pow_le_mono_r; unfold fexp in En; lia.
Qed.

Lemma round_nearest_even_bounds (m : Z) (l : location) :
  (m <= round_nearest_even m l <= m + 1)%Z.
Proof.
  destruct l as [|[| |]]; simpl; try lia. destruct (Z.even m); lia.
Qed.

(** Rounding a mantissa whose magnitude is in range gives a number of at
    least that magnitude, or an infinity. *)
Lemma binary_round_aux_magnitude (s : bool) (m e : Z) (l : location) (L : Z) :
  (0 < m)%Z ->
  (L <= Z.log2 m + e)%Z ->
  (emin fprec femax <= L)%Z ->
  magnitude_ge L (binary_round_aux fprec femax s m e l).
Proof.
  intros Hm HL Hmin. unfold binary_round_aux.
  assert (Hmin0 : (emin fprec femax <= Z.log2 m + e)%Z) by lia.
  destruct (shr_fexp_magnitude m e l Hm Hmin0) as [H1 H2].
  destruct (shr_fexp fprec femax m e l) as [mrs1 e1]. cbn [fst snd] in H1, H2.
  pose proof (round_nearest_even_bounds (shr_m mrs1) (loc_of_shr_record mrs1)) as Hr.
  set (m1 := round_nearest_even (shr_m mrs1) (loc_of_shr_record mrs1)) in *.
  assert (Hlog : (Z.log2 (shr_m mrs1) <= Z.log2 m1)%Z) by (apply Z.log2_le_mono; lia).
  assert (Hm1 : (0 < m1)%Z) by lia.
  assert (Hmin1 : (emin fprec femax <= Z.log2 m1 + e1)%Z) by lia.
  destruct (shr_fexp_magnitude m1 e1 loc_Exact Hm1 Hmin1) as [H3 H4].
  destruct (shr_fexp fprec femax m1 e1 loc_Exact) as [mrs2 e2].
  cbn [fst snd] in H3, H4.
  destruct (shr_m mrs2) as [|q|q]; try lia.
  destruct (e2 <=? femax - fprec)%Z; cbn [magnitude_ge]; [lia | exact I].
Qed.

(** What rounding returns fits the precision. *)
Lemma binary_round_aux_fits (s : bool) (m e : Z) (l : location) :
  (0 <= m)%Z ->
  match binary_round_aux fprec femax s m e l with
  | S754_finite _ q _ => (Z.pos q < 2 ^ fprec)%Z
  | _ => True
  end.
Proof.
  intros Hm. unfold binary_round_aux.
  pose proof (shr_fexp_fits m e l Hm) as H1.
  destruct (shr_fexp fprec femax m e l) as [mrs1 e1]. cbn [fst] in H1.
  pose proof (round_nearest_even_bounds (shr_m mrs1) (loc_of_shr_record mrs1)) as Hr.
  set (m1 := round_nearest_even (shr_m mrs1) (loc_of_shr_record mrs1)) in *.
  assert (Hm1 : (0 <= m1)%Z) by lia.
  pose proof (shr_fexp_fits m1 e1 loc_Exact Hm1) as H2.
  destruct (shr_fexp fprec femax m1 e1 loc_Exact) as [mrs2 e2]. cbn [fst] in H2.
  destruct (shr_m mrs2) as [|q|q]; try exact I.
  destruct (e2 <=? femax - fprec)%Z; [lia | exact I].
Qed.

Lemma digits2_pos_log2 (p : positive) :
  Z.pos (digits2_pos p) = (Z.log2 (Z.pos p) + 1)%Z.
Proof. exact (Zdigits2_log2 (Z.pos p) ltac:(lia)). Qed.

Lemma log2_iter_xO (p d : positive) :
  Z.log2 (Z.pos (Pos.iter xO p d)) = (Z.log2 (Z.pos p) + Z.pos d)%Z.
Proof.
  assert (Hs : digits2_pos (Pos.iter xO p d) = (digits2_pos p + d)%positive).
  { induction d as [|d IH] using Pos.peano_ind.
    - simpl. lia.
    - rewrite Pos.iter_succ. simpl. rewrite IH. lia. }
  pose proof (digits2_pos_log2 (Pos.iter xO p d)) as H.
  pose proof (digits2_pos_log2 p) as Hp.
  rewrite Hs in H. lia.
Qed.

(** Aligning a mantissa on a smaller exponent keeps the magnitude. *)
Lemma shl_align_magnitude (m : positive) (e e' : Z) :
  (Z.log2 (Z.pos (fst (shl_align m e e'))) + snd (shl_align m e e')
   = Z.log2 (Z.pos m) + e)%Z
  /\ (snd (shl_align m e e') = Z.min e e')%Z.
Proof.
  unfold shl_align. destruct (e' - e)%Z as [|d|d] eqn:E; cbn [fst snd]; try lia.
  rewrite log2_iter_xO. lia.
Qed.

Lemma binary_round_magnitude (m : positive) (e L : Z) :
  (L <= Z.log2 (Z.pos m) + e)%Z ->
  (emin fprec femax <= L)%Z ->
  magnitude_ge L (binary_round fprec femax false m e).
Proof.
  intros HL Hmin. unfold binary_round.
  destruct (shl_align_magnitude m e (fexp fprec femax (Z.pos (digits2_pos m) + e)))
    as [H _].
  destruct (shl_align m e _) as [mz ez]. cbn [fst snd] in H.
  apply binary_round_aux_magnitude; lia.
Qed.

(** The quotient of the division of two positive mantissas, the divisor
    below [2^B]. *)
Lemma SFdiv_core_binary_magnitude (m1 m2 : positive) (e1 e2 L B : Z) :
  (L <= Z.log2 (Z.pos m1) + e1)%Z ->
  (Z.log2 (Z.pos m2) + e2 < B)%Z ->
  (emin fprec femax <= L - B)%Z ->
  let q := fst (fst (SFdiv_core_binary fprec femax (Z.pos m1) e1 (Z.pos m2) e2)) in
  let e := snd (fst (SFdiv_core_binary fprec femax (Z.pos m1) e1 (Z.pos m2) e2)) in
  (0 < q)%Z /\ (L - B <= Z.log2 q + e)%Z.
Proof.
  intros HL H2 Hmin. unfold SFdiv_core_binary.
  rewrite !Zdigits2_log2 by lia.
  set (l1 := Z.log2 (Z.pos m1)) in *. set (l2 := Z.log2 (Z.pos m2)) in *.
  set (e' := Z.min (fexp fprec femax (l1 + 1 + e1 - (l2 + 1 + e2))) (e1 - e2)).
  set (s := (e1 - e2 - e')%Z).
  assert (Hl1 : (0 <= l1)%Z) by apply Z.log2_nonneg.
  assert (Hl2 : (0 <= l2)%Z) by apply Z.log2_nonneg.
  assert (Hs : (l2 + 1 - l1 <= s)%Z) by (unfold s, e', fexp; lia).
  assert (Hs0 : (0 <= s)%Z) by (unfold s, e'; lia).
  set (m' := match s with
             | Z0 => Z.pos m1
             | Z.pos _ => Z.shiftl (Z.pos m1) s
             | Z.neg _ => 0%Z
             end).
  assert (Hm' : m' = (Z.pos m1 * 2 ^ s)%Z).
  { unfold m'. destruct s as [|p|p]; [lia | apply Z.shiftl_mul_pow2; lia | lia]. }
  pose proof (Z.log2_spec (Z.pos m1) ltac:(lia)) as [Hlo1 _].
  pose proof (Z.log2_spec (Z.pos m2) ltac:(lia)) as [_ Hhi2].
  fold l1 in Hlo1. fold l2 in Hhi2.
  set (k := (l1 + s - l2 - 1)%Z).
  assert (Hk : (0 <= k)%Z) by (unfold k; lia).
  assert (Hlow : (2 ^ k * Z.pos m2 <= m')%Z).
  { rewrite Hm'.
    apply Z.le_trans with (2 ^ k * 2 ^ Z.succ l2)%Z.
    - apply Z.mul_le_mono_nonneg_l; [apply Z.pow_nonneg; lia | lia].
    - rewrite <- Z.pow_add_r by lia.
      replace (k + Z.succ l2)%Z with (l1 + s)%Z by (unfold k; lia).
      rewrite Z.pow_add_r by lia.
      apply Z.mul_le_mono_nonneg_r; [apply Z.pow_nonneg; lia | exact Hlo1]. }
  assert (Hq : (2 ^ k <= m' / Z.pos m2)%Z).
  { apply Z.div_le_lower_bound; [lia|]. lia. }
  unfold Z.div in Hq.
  destruct (Z.div_eucl m' (Z.pos m2)) as [q r]. cbn [fst snd].
  assert (Hpow : (0 < 2 ^ k)%Z) by (apply Z.pow_pos_nonneg; lia).
  split; [lia|].
  assert (Hlog : (k <= Z.log2 q)%Z).
  { rewrite <- (Z.log2_pow2 k Hk). apply Z.log2_le_mono. exact Hq. }
  unfold k, s in Hlog. lia.
Qed.

(** A quotient whose magnitude is in range is not rounded away. *)
Lemma SFdiv_magnitude (x : spec_float) (m : positive) (e L B : Z) :
  has_sign false x ->
  magnitude_ge L x ->
  (Z.log2 (Z.pos m) + e < B)%Z ->
  (emin fprec femax <= L - B)%Z ->
  magnitude_ge (L - B) (SFdiv fprec femax x (S754_finite false m e)).
Proof.
  destruct x as [sx|sx| |sx mx ex]; cbn [has_sign magnitude_ge];
    intros Hx HL Hm Hmin; try contradiction; subst; [exact I|].
  unfold SFdiv.
  destruct (SFdiv_core_binary_magnitude mx m ex e L B HL Hm Hmin) as [Hq Hl].
  destruct (SFdiv_core_binary fprec femax (Z.pos mx) ex (Z.pos m) e) as [[mz ez] lz].
  cbn [fst snd] in Hq, Hl.
  apply binary_round_aux_magnitude; [exact Hq | exact Hl | exact Hmin].
Qed.

End Magnitude.

Lemma emin_32 : emin prec emax = (-149)%Z.
Proof. reflexivity. Qed.

(** The square of a number of magnitude at least [2^L] has magnitude at
    least [2^(2L)], when that is in the range of binary32. *)
Lemma np_square_magnitude (x : float32) (L : Z) :
  magnitude_ge L x -> (-149 <= 2 * L)%Z -> magnitude_ge (2 * L) (np_square x).
Proof.
  unfold np_square, f32_mul.
  destruct x as [s|s| |s m e]; cbn [magnitude_ge]; try contradiction.
  - intros _ _. exact I.
  - intros HL Hmin. unfold SFmul.
    pose proof (Z.log2_mul_below (Z.pos m) (Z.pos m) ltac:(lia) ltac:(lia)) as Hlog.
    apply binary_round_aux_magnitude;
      [reflexivity | lia | rewrite Pos2Z.inj_mul; lia | rewrite emin_32; lia].
Qed.

(** Adding a number that is not negative to one of magnitude at least
    [2^L] gives a number of magnitude at least [2^L]. *)
Lemma f32_add_magnitude_l (x y : float32) (L : Z) :
  (-149 <= L)%Z ->
  has_sign false x -> has_sign false y ->
  magnitude_ge L x -> magnitude_ge L (f32_add x y).
Proof.
  intros Hmin. unfold f32_add.
  destruct x as [sx|sx| |sx mx ex]; destruct y as [sy|sy| |sy my ey];
    cbn [has_sign magnitude_ge]; intros Hx Hy HL; try contradiction; subst;
    try exact I; try exact HL.
  unfold SFadd, cond_Zopp.
  destruct (shl_align_magnitude mx ex (Z.min ex ey)) as [Hax _].
  destruct (shl_align_magnitude my ey (Z.min ex ey)) as [Hay _].
  set (a := fst (shl_align mx ex (Z.min ex ey))) in *.
  set (b := fst (shl_align my ey (Z.min ex ey))) in *.
  assert (Hea : snd (shl_align mx ex (Z.min ex ey)) = Z.min ex ey).
  { destruct (shl_align_magnitude mx ex (Z.min ex ey)) as [_ ->]. lia. }
  rewrite Hea in Hax.
  change (Z.pos a + Z.pos b)%Z with (Z.pos (a + b)). cbn [binary_normalize].
  assert (Hlog : (Z.log2 (Z.pos a) <= Z.log2 (Z.pos (a + b)))%Z)
    by (apply Z.log2_le_mono; lia).
  apply binary_round_magnitude; [reflexivity | lia | rewrite emin_32; lia].
Qed.

Lemma f32_add_magnitude_r (x y : float32) (L : Z) :
  (-149 <= L)%Z ->
  has_sign false x -> has_sign false y ->
  magnitude_ge L y -> magnitude_ge L (f32_add x y).
Proof.
  intros Hmin. unfold f32_add.
  destruct x as [sx|sx| |sx mx ex]; destruct y as [sy|sy| |sy my ey];
    cbn [has_sign magnitude_ge]; intros Hx Hy HL; try contradiction; subst;
    try exact I; try exact HL.
  unfold SFadd, cond_Zopp.
  destruct (shl_align_magnitude my ey (Z.min ex ey)) as [Hay _].
  set (a := fst (shl_align mx ex (Z.min ex ey))) in *.
  set (b := fst (shl_align my ey (Z.min ex ey))) in *.
  assert (Heb : snd (shl_align my ey (Z.min ex ey)) = Z.min ex ey).
  { destruct (shl_align_magnitude my ey (Z.min ex ey)) as [_ ->]. lia. }
  rewrite Heb in Hay.
  change (Z.pos a + Z.pos b)%Z with (Z.pos (a + b)). cbn [binary_normalize].
  assert (Hlog : (Z.log2 (Z.pos b) <= Z.log2 (Z.pos (a + b)))%Z)
    by (apply Z.log2_le_mono; lia).
  apply binary_round_magnitude; [reflexivity | lia | rewrite emin_32; lia].
Qed.

Lemma SFsqrt_core_binary_magnitude (m : positive) (e : Z) :
  (-149 <= Z.log2 (Z.pos m) + e)%Z ->
  let q := fst (fst (SFsqrt_core_binary prec emax (Z.pos m) e)) in
  let e' := snd (fst (SFsqrt_core_binary prec emax (Z.pos m) e)) in
  (0 < q)%Z /\ (-149 <= Z.log2 q + e')%Z.
Proof.
  intros HL. unfold SFsqrt_core_binary.
  rewrite !Zdigits2_log2 by lia.
  set (l := Z.log2 (Z.pos m)) in *.
  set (e' := Z.min (fexp prec emax (Z.div2 (l + 1 + e + 1))) (Z.div2 e)).
  set (s := (e - 2 * e')%Z).
  assert (Hl0 : (0 <= l)%Z) by apply Z.log2_nonneg.
  pose proof (Z.div2_odd e) as He2.
  assert (Hs0 : (0 <= s)%Z).
  { unfold s, e'. destruct (Z.odd e); simpl Z.b2z in He2; lia. }
  set (m' := match s with
             | Z0 => Z.pos m
             | Z.pos _ => Z.shiftl (Z.pos m) s
             | Z.neg _ => 0%Z
             end).
  assert (Hm' : m' = (Z.pos m * 2 ^ s)%Z).
  { unfold m'. destruct s as [|p|p]; [lia | apply Z.shiftl_mul_pow2; lia | lia]. }
  pose proof (Z.log2_spec (Z.pos m) ltac:(lia)) as [Hlo _]. fold l in Hlo.
  set (k := Z.div2 (l + s)).
  pose proof (Z.div2_odd (l + s)) as Hk2. fold k in Hk2.
  assert (Hk : (0 <= k)%Z) by (destruct (Z.odd (l + s)); simpl Z.b2z in Hk2; lia).
  assert (Hlow : (2 ^ k * 2 ^ k <= m')%Z).
  { rewrite Hm', <- Z.pow_add_r by lia.
    apply Z.le_trans with (2 ^ (l + s))%Z.
    - apply Z.pow_le_mono_r; [lia|].
      destruct (Z.odd (l + s)); simpl Z.b2z in Hk2; lia.
    - rewrite Z.pow_add_r by lia.
      apply Z.mul_le_mono_nonneg_r; [apply Z.pow_nonneg; lia | exact Hlo]. }
  assert (Hpow : (0 < 2 ^ k)%Z) by (apply Z.pow_pos_nonneg; lia).
  assert (Hq : (2 ^ k <= Z.sqrt m')%Z).
  { rewrite <- (Z.sqrt_square (2 ^ k)) by lia. apply Z.sqrt_le_mono. exact Hlow. }
  pose proof (Z.sqrtrem_sqrt m') as Hsq.
  destruct (Z.sqrtrem m') as [q r]. cbn [fst] in Hsq. subst q. cbn [fst snd].
  split; [lia|].
  assert (Hlog : (k <= Z.log2 (Z.sqrt m'))%Z).
  { rewrite <- (Z.log2_pow2 k Hk). apply Z.log2_le_mono. exact Hq. }
  assert (He' : (-149 <= e')%Z \/ (2 * e' = e - Z.b2z (Z.odd e))%Z).
  { unfold e', fexp. change (emin prec emax) with (-149)%Z. lia. }
  unfold s in Hk2. destruct (Z.odd (l + (e - 2 * e'))); simpl Z.b2z in Hk2;
    destruct (Z.odd e); simpl Z.b2z in *; lia.
Qed.

(** The square root of a positive number of the range of binary32 is not
    zero. *)
Lemma f32_sqrt_magnitude (x : float32) :
  has_sign false x -> magnitude_ge (-149) x -> magnitude_ge (-149) (f32_sqrt x).
Proof.
  unfold f32_sqrt.
  destruct x as [sx|sx| |sx mx ex]; cbn [has_sign magnitude_ge];
    intros Hx HL; try contradiction; subst; [exact I|].
  unfold SFsqrt.
  destruct (SFsqrt_core_binary_magnitude mx ex HL) as [Hq Hl].
  destruct (SFsqrt_core_binary prec emax (Z.pos mx) ex) as [[mz ez] lz].
  cbn [fst snd] in Hq, Hl.
  apply binary_round_aux_magnitude; [reflexivity | exact Hq | exact Hl |].
  rewrite emin_32. lia.
Qed.

(** ** The loudness metric *)

Lemma has_sign_ge_zero (x : float32) : has_sign false x -> f32_ge_zero x.
Proof.
  unfold f32_ge_zero. destruct x as [s|s| |s m e]; simpl; intros H;
    try contradiction; subst; reflexivity.
Qed.

Lemma np_square_sign (x : float32) :
  x <> S754_nan -> has_sign false (np_square x).
Proof.
  intros Hx. unfold np_square, f32_mul.
  destruct x as [s|s| |s m e]; try (destruct s; reflexivity); [congruence|].
  unfold SFmul. rewrite xorb_nilpotent. apply binary_round_aux_sign. lia.
Qed.

Lemma np_square_zero (x : float32) : is_zero x -> np_square x = f32_zero.
Proof.
  destruct x as [s|s| |s m e]; simpl; try contradiction.
  intros _. destruct s; reflexivity.
Qed.

Lemma f32_add_sign (x y : float32) :
  has_sign false x -> has_sign false y -> has_sign false (f32_add x y).
Proof.
  unfold f32_add.
  destruct x as [sx|sx| |sx mx ex]; destruct y as [sy|sy| |sy my ey];
    simpl; intros Hx Hy; try contradiction; subst; try reflexivity.
  apply (binary_round_sign prec emax false).
Qed.

Lemma SFdiv_core_binary_nonneg (fprec femax : Z) (m1 m2 : positive) (e1 e2 : Z) :
  (0 <= fst (fst (SFdiv_core_binary fprec femax (Z.pos m1) e1 (Z.pos m2) e2)))%Z.
Proof.
  unfold SFdiv_core_binary.
  set (s := (e1 - e2 - _)%Z).
  set (m' := match s with
             | Z0 => Z.pos m1
             | Z.pos _ => Z.shiftl (Z.pos m1) s
             | Z.neg _ => 0%Z
             end).
  assert (Hm' : (0 <= m')%Z).
  { unfold m'. destruct s; [lia | apply Z.shiftl_nonneg; lia | lia]. }
  pose proof (Z.div_pos m' (Z.pos m2) Hm' ltac:(lia)) as Hq.
  unfold Z.div in Hq.
  destruct (Z.div_eucl m' (Z.pos m2)) as [q r]. exact Hq.
Qed.

Lemma SFdiv_sign (fprec femax : Z) (x : spec_float) (m : positive) (e : Z) :
  has_sign false x ->
  has_sign false (SFdiv fprec femax x (S754_finite false m e)).
Proof.
  destruct x as [sx|sx| |sx mx ex]; simpl; intros Hx; try contradiction;
    subst; try reflexivity.
  pose proof (SFdiv_core_binary_nonneg fprec femax mx m ex e) as Hq.
  destruct (SFdiv_core_binary fprec femax (Z.pos mx) ex (Z.pos m) e)
    as [[mz ez] lz].
  apply binary_round_aux_sign. exact Hq.
Qed.

Lemma f32_of_float_sign (s : bool) (x : spec_float) :
  has_sign s x -> has_sign s (f32_of_float x).
Proof.
  destruct x as [sx|sx| |sx m e]; simpl; intros Hx; try contradiction;
    try exact Hx.
  subst. destruct s; apply binary_round_sign.
Qed.

Lemma f32_of_float_magnitude (x : spec_float) (L : Z) :
  (-149 <= L)%Z ->
  has_sign false x -> magnitude_ge L x -> magnitude_ge L (f32_of_float x).
Proof.
  intros Hmin.
  destruct x as [sx|sx| |sx m e]; cbn [has_sign magnitude_ge f32_of_float];
    intros Hx HL; try contradiction; [exact I|].
  subst. cbn [cond_Zopp binary_normalize].
  apply binary_round_magnitude; [reflexivity | exact HL | rewrite emin_32; exact Hmin].
Qed.

(** A count below [2^24] is a binary64 number below [2^24]. *)
Lemma count_binary64 (n : Z) :
  (0 < n < 2 ^ prec)%Z ->
  exists (m : positive) (e : Z),
    binary_normalize 53 1024 n 0 false = S754_finite false m e
    /\ (Z.log2 (Z.pos m) + e < prec)%Z.
Proof.
  intros [Hpos Hlt]. destruct n as [|p|p]; try lia.
  pose proof (digits2_pos_bound p prec ltac:(unfold prec; lia) Hlt) as Hd.
  pose proof (digits2_pos_log2 p) as Hlog.
  unfold binary_normalize, binary_round, shl_align.
  assert (Hfexp : fexp 53 1024 (Z.pos (digits2_pos p) + 0)
                  = (Z.pos (digits2_pos p) - 53)%Z).
  { unfold fexp, emin, prec in *. lia. }
  rewrite Hfexp. rewrite Z.sub_0_r.
  destruct (Z.pos (digits2_pos p) - 53)%Z as [|k|k] eqn:Ek;
    try (unfold prec in *; lia).
  exists (Pos.iter xO p k), (Z.neg k). split.
  - apply binary_round_aux_exact.
    + rewrite digits2_pos_shift. lia.
    + unfold emin, prec in *. lia.
  - rewrite log2_iter_xO. lia.
Qed.

Lemma mean_of_sum_sign (x : float32) (n : nat) :
  (0 < Z.of_nat n < 2 ^ prec)%Z ->
  has_sign false x -> has_sign false (mean_of_sum x n).
Proof.
  intros Hn Hx. unfold mean_of_sum.
  destruct (count_binary64 _ Hn) as (m & e & -> & _).
  apply f32_of_float_sign, SFdiv_sign, Hx.
Qed.

(** The mean of a sum of magnitude at least [2^L] over fewer than [2^24]
    elements has magnitude at least [2^(L - 24)]. *)
Lemma mean_of_sum_magnitude (x : float32) (n : nat) (L : Z) :
  (0 < Z.of_nat n < 2 ^ prec)%Z ->
  (-149 <= L - prec)%Z ->
  has_sign false x -> magnitude_ge L x ->
  magnitude_ge (L - prec) (mean_of_sum x n).
Proof.
  intros Hn Hmin Hx HL. unfold mean_of_sum.
  destruct (count_binary64 _ Hn) as (m & e & -> & Hm).
  apply f32_of_float_magnitude; [exact Hmin | apply SFdiv_sign, Hx|].
  apply SFdiv_magnitude; [reflexivity | exact Hx | exact HL | exact Hm|].
  unfold emin, prec in *. lia.
Qed.

Lemma mean_of_sum_zero (n : nat) :
  (0 < Z.of_nat n < 2 ^ prec)%Z -> mean_of_sum f32_zero n = f32_zero.
Proof.
  intros Hn. unfold mean_of_sum.
  destruct (count_binary64 _ Hn) as (m & e & -> & _). reflexivity.
Qed.

Lemma mean_of_sum_inf (n : nat) :
  (0 < Z.of_nat n < 2 ^ prec)%Z ->
  mean_of_sum (S754_infinity false) n = S754_infinity false.
Proof.
  intros Hn. unfold mean_of_sum.
  destruct (count_binary64 _ Hn) as (m & e & -> & _). reflexivity.
Qed.

Lemma mean_of_sum_nan (n : nat) : mean_of_sum S754_nan n = S754_nan.
Proof. reflexivity. Qed.

Lemma SFsqrt_core_binary_nonneg (m : positive) (e : Z) :
  (0 <= fst (fst (SFsqrt_core_binary prec emax (Z.pos m) e)))%Z.
Proof.
  unfold SFsqrt_core_binary.
  set (s := (e - 2 * _)%Z).
  set (m' := match s with
             | Z0 => Z.pos m
             | Z.pos _ => Z.shiftl (Z.pos m) s
             | Z.neg _ => 0%Z
             end).
  pose proof (Z.sqrtrem_sqrt m') as Hs. pose proof (Z.sqrt_nonneg m') as Hn.
  destruct (Z.sqrtrem m') as [q r]. simpl in Hs. subst q. exact Hn.
Qed.

Lemma f32_sqrt_sign (x : float32) :
  has_sign false x -> has_sign false (f32_sqrt x).
Proof.
  unfold f32_sqrt.
  destruct x as [sx|sx| |sx mx ex]; simpl; intros Hx; try contradiction;
    subst; try reflexivity.
  pose proof (SFsqrt_core_binary_nonneg mx ex) as Hq.
  destruct (SFsqrt_core_binary prec emax (Z.pos mx) ex) as [[mz ez] lz].
  apply binary_round_aux_sign. exact Hq.
Qed.

Lemma has_sign_nan_or_sign (s : bool) (x : float32) :
  has_sign s x -> nan_or_sign s x.
Proof. destruct x; simpl; tauto. Qed.

Lemma nan_or_sign_cases (s : bool) (x : float32) :
  nan_or_sign s x -> x = S754_nan \/ has_sign s x.
Proof. destruct x; simpl; auto. Qed.

Lemma np_square_nan_or (x : float32) : nan_or_sign false (np_square x).
Proof.
  destruct x as [s|s| |s m e]; try (destruct s; reflexivity); [exact I|].
  apply has_sign_nan_or_sign, np_square_sign. discriminate.
Qed.

Lemma f32_add_nan_or (x y : float32) :
  nan_or_sign false x -> nan_or_sign false y -> nan_or_sign false (f32_add x y).
Proof.
  intros Hx Hy.
  destruct (nan_or_sign_cases _ _ Hx) as [-> | Hx'];
    [destruct y; exact I|].
  destruct (nan_or_sign_cases _ _ Hy) as [-> | Hy'];
    [destruct x; exact I|].
  apply has_sign_nan_or_sign, f32_add_sign; assumption.
Qed.

Lemma mean_of_sum_nan_or (x : float32) (n : nat) :
  nan_or_sign false x -> nan_or_sign false (mean_of_sum x n).
Proof.
  intros Hx. unfold mean_of_sum.
  assert (Hn : has_sign false (binary_normalize 53 1024 (Z.of_nat n) 0 false)).
  { unfold binary_normalize. destruct (Z.of_nat n) as [|p|p] eqn:E;
      [reflexivity | apply binary_round_sign | lia]. }
  destruct (binary_normalize 53 1024 (Z.of_nat n) 0 false) as [sy|sy| |sy my ey];
    simpl in Hn; try contradiction; subst.
  - destruct x as [sx|sx| |sx mx ex]; simpl in *; subst; exact I || reflexivity.
  - destruct x as [sx|sx| |sx mx ex]; simpl in *; subst; exact I || reflexivity.
  - destruct x as [sx|sx| |sx mx ex]; simpl in Hx; subst;
      try reflexivity; try exact I.
    unfold SFdiv. cbn [xorb].
    destruct (SFdiv_core_binary 53 1024 (Z.pos mx) ex (Z.pos my) ey)
      as [[mz ez] lz].
    pose proof (binary_round_aux_nan_or_sign 53 1024 false mz ez lz) as H.
    destruct (binary_round_aux 53 1024 false mz ez lz) as [s|s| |s m e];
      simpl in H; subst; try exact I; try reflexivity.
    apply has_sign_nan_or_sign, (f32_of_float_sign false). reflexivity.
Qed.

Lemma f32_sqrt_nan_or (x : float32) :
  nan_or_sign false x -> nan_or_sign false (f32_sqrt x).
Proof.
  unfold f32_sqrt.
  destruct x as [sx|sx| |sx mx ex]; simpl; intros Hx; subst; try reflexivity.
  destruct (SFsqrt_core_binary prec emax (Z.pos mx) ex) as [[mz ez] lz].
  apply binary_round_aux_nan_or_sign.
Qed.

Lemma fold_left_summation (xs : list float32) :
  forall acc : summation,
    sum_terms (fold_left (fun t x => sum_add t (sum_term x)) xs acc)
    = sum_terms acc ++ xs
    /\ sum_value (fold_left (fun t x => sum_add t (sum_term x)) xs acc)
       = fold_left f32_add xs (sum_value acc).
Proof.
  induction xs as [|x xs IH]; intros acc; simpl.
  - rewrite app_nil_r. split; reflexivity.
  - destruct (IH (sum_add acc (sum_term x))) as [-> ->]. simpl.
    rewrite <- app_assoc. split; reflexivity.
Qed.

Lemma left_to_right_spec (xs : list float32) :
  sum_terms (left_to_right xs) = xs
  /\ sum_value (left_to_right xs) = fold_left f32_add xs f32_zero.
Proof. apply (fold_left_summation xs sum_start). Qed.

(** Adding to [-0.0] changes nothing. *)
Lemma f32_add_neg_zero_l (x : float32) : f32_add (S754_zero true) x = x.
Proof. destruct x as [s|s| |s m e]; try reflexivity. destruct s; reflexivity. Qed.

Lemma Permutation_move (X A R R' : list float32) (x : float32) :
  Permutation ((X ++ [x]) ++ R) R' ->
  Permutation (X ++ (A ++ [x]) ++ R) (A ++ R').
Proof.
  intros H. rewrite <- (app_assoc A [x] R).
  rewrite (Permutation_app_swap_app X A ([x] ++ R)).
  apply Permutation_app_head. rewrite app_assoc. exact H.
Qed.

(** The unrolled loop adds up, in some order, what its accumulators hold
    and the elements it is given. *)
Lemma pairwise_unrolled_summation (n : nat) :
  forall (a : list float32) (t0 t1 t2 t3 t4 t5 t6 t7 : summation),
    (length a <= n)%nat ->
    exists t : summation,
      sum_value t
      = pairwise_unrolled (sum_value t0) (sum_value t1) (sum_value t2)
          (sum_value t3) (sum_value t4) (sum_value t5) (sum_value t6)
          (sum_value t7) a
      /\ Permutation (sum_terms t)
           (sum_terms t0 ++ sum_terms t1 ++ sum_terms t2 ++ sum_terms t3
            ++ sum_terms t4 ++ sum_terms t5 ++ sum_terms t6 ++ sum_terms t7
            ++ a).
Proof.
  induction n as [|n IH]; intros a t0 t1 t2 t3 t4 t5 t6 t7 Hlen.
  all: destruct a as [|x0 [|x1 [|x2 [|x3 [|x4 [|x5 [|x6 [|x7 rest]]]]]]]];
    try (simpl in Hlen; lia).
  all: try (
    match goal with
    | |- context [pairwise_unrolled _ _ _ _ _ _ _ _ ?a] =>
        destruct (fold_left_summation a
                    (sum_add (sum_add (sum_add t0 t1) (sum_add t2 t3))
                             (sum_add (sum_add t4 t5) (sum_add t6 t7))))
          as [Ht Hv];
        eexists; split; [exact Hv|]; rewrite Ht; cbn [sum_terms];
        rewrite <- !app_assoc; reflexivity
    end).
  destruct (IH rest (sum_add t0 (sum_term x0)) (sum_add t1 (sum_term x1))
              (sum_add t2 (sum_term x2)) (sum_add t3 (sum_term x3))
              (sum_add t4 (sum_term x4)) (sum_add t5 (sum_term x5))
              (sum_add t6 (sum_term x6)) (sum_add t7 (sum_term x7)))
    as (t & Hv & Hp); [simpl in Hlen; lia|].
  exists t. split; [exact Hv|].
  etransitivity; [exact Hp|]. cbn [sum_terms].
  apply (Permutation_move []), (Permutation_move [x0]),
    (Permutation_move [x0; x1]), (Permutation_move [x0; x1; x2]),
    (Permutation_move [x0; x1; x2; x3]), (Permutation_move [x0; x1; x2; x3; x4]),
    (Permutation_move [x0; x1; x2; x3; x4; x5]),
    (Permutation_move [x0; x1; x2; x3; x4; x5; x6]).
  reflexivity.
Qed.

Lemma pairwise_block_summation (a : list float32) :
  a <> [] ->
  exists t : summation,
    sum_value t = pairwise_block a /\ Permutation (sum_terms t) a.
Proof.
  intros Ha.
  destruct a as [|x0 [|x1 [|x2 [|x3 [|x4 [|x5 [|x6 [|x7 rest]]]]]]]];
    [congruence | | | | | | | |].
  all: try (
    match goal with
    | |- context [pairwise_block (?x :: ?a)] =>
        destruct (fold_left_summation a (sum_term x)) as [Ht Hv];
        eexists; split;
        [ rewrite Hv; unfold pairwise_block; cbn [fold_left];
          rewrite f32_add_neg_zero_l; reflexivity
        | rewrite Ht; reflexivity ]
    end).
  destruct (pairwise_unrolled_summation (length rest) rest
              (sum_term x0) (sum_term x1) (sum_term x2) (sum_term x3)
              (sum_term x4) (sum_term x5) (sum_term x6) (sum_term x7)
              (Nat.le_refl _)) as (t & Hv & Hp).
  exists t. split; [exact Hv | exact Hp].
Qed.

(** The pairwise sum adds up the elements of the array, each once, in
    some order and grouping. *)
Lemma pairwise_sum_summation (a : list float32) :
  a <> [] ->
  exists t : summation,
    sum_value t = pairwise_sum a /\ Permutation (sum_terms t) a.
Proof.
  funelim (pairwise_sum a); intros Ha.
  - apply pairwise_block_summation, Ha.
  - unfold PW_BLOCKSIZE in *.
    set (n2 := (length a / 2 - (length a / 2) mod 8)%nat) in *.
    assert (Hn2 : (0 < n2 < length a)%nat).
    { unfold n2. pose proof (Nat.div_mod_eq (length a) 2) as Hd.
      pose proof (Nat.mod_upper_bound (length a) 2 ltac:(lia)).
      pose proof (Nat.mod_upper_bound (length a / 2) 8 ltac:(lia)). lia. }
    destruct H as (t1 & Hv1 & Hp1).
    { intros E. apply (f_equal (@length float32)) in E.
      rewrite length_take in E. simpl in E. lia. }
    destruct H0 as (t2 & Hv2 & Hp2).
    { intros E. apply (f_equal (@length float32)) in E.
      rewrite length_drop in E. simpl in E. lia. }
    exists (sum_add t1 t2). split.
    + simpl. rewrite Hv1, Hv2. reflexivity.
    + simpl. rewrite Hp1, Hp2, take_drop. reflexivity.
Qed.

Lemma np_sum_summation (xs : list float32) :
  xs <> [] ->
  exists t : summation,
    sum_value t = np_sum xs /\ Permutation (sum_terms t) xs.
Proof.
  intros Hxs. destruct (pairwise_sum_summation xs Hxs) as (t & Hv & Hp).
  exists t. split; [|exact Hp].
  unfold np_sum. destruct xs; [congruence|].
  rewrite f32_add_neg_zero_l. exact Hv.
Qed.

(** The program's loudness is the one of a summation of the squares. *)
Lemma rms_of_summed (indata : list float32) :
  indata <> [] ->
  exists t : summation,
    Permutation (sum_terms t) (map np_square indata)
    /\ rms_of indata = rms_summed t.
Proof.
  intros Hne.
  destruct (np_sum_summation (map np_square indata)) as (t & Hv & Hp).
  { destruct indata; [congruence | discriminate]. }
  exists t. split; [exact Hp|].
  unfold rms_of, rms_summed, np_mean.
  rewrite Hv, (Permutation_length Hp). reflexivity.
Qed.

Lemma sum_value_sign (t : summation) :
  Forall (has_sign false) (sum_terms t) -> has_sign false (sum_value t).
Proof.
  induction t as [|x|a IHa b IHb]; simpl; intros H.
  - reflexivity.
  - inversion H; assumption.
  - apply List.Forall_app in H. destruct H as [Ha Hb].
    apply f32_add_sign; [apply IHa, Ha | apply IHb, Hb].
Qed.

Lemma sum_value_zeros (t : summation) :
  Forall (fun x => x = f32_zero) (sum_terms t) -> sum_value t = f32_zero.
Proof.
  induction t as [|x|a IHa b IHb]; simpl; intros H.
  - reflexivity.
  - inversion H; assumption.
  - apply List.Forall_app in H. destruct H as [Ha Hb].
    rewrite IHa, IHb by assumption. reflexivity.
Qed.

Lemma sum_value_nan (t : summation) :
  Exists (fun x => x = S754_nan) (sum_terms t) -> sum_value t = S754_nan.
Proof.
  induction t as [|x|a IHa b IHb]; simpl; intros H.
  - inversion H.
  - inversion H as [? ? Hx | ? ? Hx]; [exact Hx | inversion Hx].
  - apply List.Exists_app in H. destruct H as [Ha | Hb].
    + rewrite IHa by exact Ha. reflexivity.
    + rewrite IHb by exact Hb. destruct (sum_value a); reflexivity.
Qed.

Lemma sum_value_nan_or (t : summation) :
  Forall (nan_or_sign false) (sum_terms t) -> nan_or_sign false (sum_value t).
Proof.
  induction t as [|x|a IHa b IHb]; simpl; intros H.
  - reflexivity.
  - inversion H; assumption.
  - apply List.Forall_app in H. destruct H as [Ha Hb].
    apply f32_add_nan_or; [apply IHa, Ha | apply IHb, Hb].
Qed.

Lemma sum_value_magnitude (L : Z) (t : summation) :
  (-149 <= L)%Z ->
  Forall (has_sign false) (sum_terms t) ->
  Exists (magnitude_ge L) (sum_terms t) ->
  magnitude_ge L (sum_value t).
Proof.
  intros HL. induction t as [|x|a IHa b IHb]; simpl; intros Hs He.
  - inversion He.
  - inversion He as [? ? Hx | ? ? Hx]; [exact Hx | inversion Hx].
  - apply List.Forall_app in Hs. destruct Hs as [Ha Hb].
    pose proof (sum_value_sign a Ha) as Hsa.
    pose proof (sum_value_sign b Hb) as Hsb.
    apply List.Exists_app in He. destruct He as [He | He].
    + apply f32_add_magnitude_l; auto.
    + apply f32_add_magnitude_r; auto.
Qed.

Lemma magnitude_ge_weaken (L L' : Z) (x : float32) :
  (L' <= L)%Z -> magnitude_ge L x -> magnitude_ge L' x.
Proof. destruct x; simpl; try tauto. lia. Qed.

Lemma magnitude_ge_not_zero (L : Z) (x : float32) :
  magnitude_ge L x -> ~ is_zero x.
Proof. destruct x; simpl; tauto. Qed.

Lemma all_zero_or_not (l : list float32) :
  Forall is_zero l \/ Exists (fun x => ~ is_zero x) l.
Proof.
  induction l as [|x l [IH|IH]].
  - left. constructor.
  - destruct x as [s|s| |s m e];
      try (right; left; simpl; tauto).
    left. constructor; [exact I | exact IH].
  - right. right. exact IH.
Qed.

Lemma some_nan_or_none (l : list float32) :
  Exists (fun x => x = S754_nan) l \/ Forall (fun x => x <> S754_nan) l.
Proof.
  induction l as [|x l [IH|IH]].
  - right. constructor.
  - left. right. exact IH.
  - destruct x as [s|s| |s m e];
      try (right; constructor; [discriminate | exact IH]).
    left. left. reflexivity.
Qed.

(** In whatever order the squares are added up, and whatever the block,
    the loudness is never negative: it is [nan] or [>= 0]. *)
Lemma rms_summed_never_negative (indata : list float32) (t : summation) :
  Permutation (sum_terms t) (map np_square indata) ->
  rms_summed t = S754_nan \/ f32_ge_zero (rms_summed t).
Proof.
  intros Ht.
  assert (H : nan_or_sign false (rms_summed t)).
  { unfold rms_summed, np_sqrt.
    apply f32_sqrt_nan_or, mean_of_sum_nan_or, sum_value_nan_or.
    eapply Permutation_Forall; [symmetry; exact Ht|].
    apply List.Forall_map, List.Forall_forall.
    intros x _. apply np_square_nan_or. }
  destruct (nan_or_sign_cases _ _ H) as [Hn | Hs];
    [left; exact Hn | right; apply has_sign_ge_zero, Hs].
Qed.

(** What holds of the loudness in whatever order the squares are added
    up: for a block of at least one and fewer than [2^24] samples it is a
    number [>= 0] when no sample is [nan], [nan] when one is, [+0.0] when
    all samples are zero, and not zero when some sample is not zero and none
    is a non-zero number below [2^-62]. *)
Lemma rms_summed_properties (indata : list float32) (t : summation) :
  Permutation (sum_terms t) (map np_square indata) ->
  (0 < Z.of_nat (length indata) < 2 ^ prec)%Z ->
  (Forall (fun x => x <> S754_nan) indata -> f32_ge_zero (rms_summed t))
  /\ (Exists (fun x => x = S754_nan) indata -> rms_summed t = S754_nan)
  /\ (Forall is_zero indata -> rms_summed t = f32_zero)
  /\ (Forall not_tiny indata -> is_zero (rms_summed t) -> Forall is_zero indata).
Proof.
  intros Ht Hlen. unfold rms_summed, np_sqrt.
  rewrite (Permutation_length Ht), length_map.
  assert (Hsigns : Forall (fun x => x <> S754_nan) indata ->
                   Forall (has_sign false) (sum_terms t)).
  { intros Hnan. eapply Permutation_Forall; [symmetry; exact Ht|].
    apply List.Forall_map. eapply List.Forall_impl; [|exact Hnan].
    intros x Hx. apply np_square_sign, Hx. }
  assert (Hnans : Exists (fun x => x = S754_nan) indata ->
                  f32_sqrt (mean_of_sum (sum_value t) (length indata))
                  = S754_nan).
  { intros Hnan. rewrite sum_value_nan; [reflexivity|].
    eapply Permutation_Exists; [symmetry; exact Ht|].
    apply List.Exists_map. eapply List.Exists_impl; [|exact Hnan].
    intros x ->. reflexivity. }
  split; [|split; [|split]].
  - intros Hnan.
    apply has_sign_ge_zero, f32_sqrt_sign, mean_of_sum_sign; [exact Hlen|].
    apply sum_value_sign, Hsigns, Hnan.
  - exact Hnans.
  - intros Hz. rewrite sum_value_zeros.
    + rewrite mean_of_sum_zero by exact Hlen. reflexivity.
    + eapply Permutation_Forall; [symmetry; exact Ht|].
      apply List.Forall_map.
      eapply List.Forall_impl; [|exact Hz].
      intros x Hx. apply np_square_zero, Hx.
  - intros Htiny Hzero.
    destruct (all_zero_or_not indata) as [Hall|Hsome]; [exact Hall|].
    exfalso.
    destruct (some_nan_or_none indata) as [Hnan|Hnan].
    { rewrite (Hnans Hnan) in Hzero. exact Hzero. }
    assert (Hbig : Exists (magnitude_ge (-124)) (sum_terms t)).
    { eapply Permutation_Exists; [symmetry; exact Ht|].
      apply List.Exists_map. rewrite List.Exists_exists in Hsome.
      destruct Hsome as (x & Hin & Hx). apply List.Exists_exists.
      exists x. split; [exact Hin|].
      rewrite List.Forall_forall in Htiny, Hnan.
      specialize (Htiny x Hin). specialize (Hnan x Hin).
      change (-124)%Z with (2 * -62)%Z.
      apply np_square_magnitude; [|lia].
      destruct x as [s|s| |s mx ex]; simpl in *; tauto. }
    pose proof (sum_value_sign t (Hsigns Hnan)) as Hsum.
    pose proof (sum_value_magnitude (-124) t ltac:(lia) (Hsigns Hnan) Hbig) as Hmag.
    pose proof (mean_of_sum_magnitude _ (length indata) (-124) Hlen
                  ltac:(unfold prec; lia) Hsum Hmag) as Hdiv.
    pose proof (mean_of_sum_sign _ (length indata) Hlen Hsum) as Hdivs.
    apply (magnitude_ge_weaken _ (-149)) in Hdiv; [|unfold prec; lia].
    exact (magnitude_ge_not_zero _ _ (f32_sqrt_magnitude _ Hdivs Hdiv) Hzero).
Qed.

(** The loudness the program computes fits binary32. *)
Lemma rms_of_fits (indata : list float32) : fits_binary32 (rms_of indata).
Proof.
  unfold rms_of, np_sqrt, f32_sqrt.
  destruct (np_mean (map np_square indata)) as [s|s| |s m e]; simpl;
    try exact I; try (destruct s; exact I).
  destruct s; [exact I|].
  pose proof (SFsqrt_core_binary_nonneg m e) as Hq.
  destruct (SFsqrt_core_binary prec emax (Z.pos m) e) as [[mz ez] lz].
  simpl in Hq.
  exact (binary_round_aux_fits prec emax ltac:(reflexivity) false mz ez lz Hq).
Qed.

(** C2, as the program computes it: the loudness of a block is
    [sqrt(mean(sample_i^2))] evaluated in binary32, the squares being added
    up each once, in NumPy's order; it is never negative: [nan] or [>= 0],
    whatever the block.  For a block of at least one and fewer than [2^24]
    samples (the program's blocks have 44100) it is [>= 0] whenever no sample
    is [nan] (and [nan] when one is), it is [+0.0] whenever every sample is
    zero, and, when no sample is a non-zero number below [2^-62], it is zero
    only if every sample is zero.  For smaller samples the converse fails:
    squares underflow. *)
Theorem rms_nonnegative_and_zero_on_silence :
  forall indata : list float32,
    (indata <> [] ->
     exists t : summation,
       Permutation (sum_terms t) (map np_square indata)
       /\ rms_of indata
          = np_sqrt (mean_of_sum (sum_value t) (length indata)))
    /\ (rms_of indata = S754_nan \/ f32_ge_zero (rms_of indata))
    /\ ((0 < Z.of_nat (length indata) < 2 ^ prec)%Z ->
        (Forall (fun x => x <> S754_nan) indata -> f32_ge_zero (rms_of indata))
        /\ (Exists (fun x => x = S754_nan) indata -> rms_of indata = S754_nan)
        /\ (Forall is_zero indata -> rms_of indata = f32_zero)
        /\ (Forall not_tiny indata ->
            is_zero (rms_of indata) -> Forall is_zero indata)).
Proof.
  intros indata. split; [|split].
  - intros Hne. destruct (rms_of_summed indata Hne) as (t & Hp & Hr).
    exists t. split; [exact Hp|]. rewrite Hr. unfold rms_summed.
    rewrite (Permutation_length Hp), length_map. reflexivity.
  - destruct indata as [|x indata]; [left; reflexivity|].
    destruct (rms_of_summed (x :: indata) ltac:(discriminate)) as (t & Hp & ->).
    apply (rms_summed_never_negative (x :: indata)), Hp.
  - intros Hlen.
    assert (Hne : indata <> []) by (intros ->; simpl in Hlen; lia).
    destruct (rms_of_summed indata Hne) as (t & Hp & ->).
    apply rms_summed_properties; assumption.
Qed.

(** The block [0.10, 0.0]: a loudness that is [>= 0]. *)
Lemma rms_nonnegative_and_zero_on_silence_witness :
  f32_ge_zero (rms_of [loudness_0_10; f32_zero]).
Proof.
  apply (proj1 (proj2 (proj2 (rms_nonnegative_and_zero_on_silence
                                [loudness_0_10; f32_zero]))
                  ltac:(split; reflexivity))).
  repeat constructor; discriminate.
Defined.

(** A block whose samples are not zero and whose loudness is zero: the
    square of [2^-100] underflows to [+0.0] in binary32.  One such sample,
    and a full block of them; and a [nan] sample gives a loudness that is
    not [>= 0]. *)
Lemma rms_zero_of_nonzero_block :
  valid_binary prec emax tiny_sample = true
  /\ (0 < Q_of_f32 tiny_sample)%Q
  /\ rms_of [tiny_sample] = f32_zero
  /\ rms_of (repeat tiny_sample block_size) = f32_zero
  /\ SFleb f32_zero (rms_of [S754_nan]) = false.
Proof.
  split; [reflexivity|]. split; [reflexivity|]. split; [reflexivity|].
  split; [vm_compute; reflexivity | reflexivity].
Qed.

(** C4, as the program computes the flag: the sample a callback puts on
    the queue carries the loudness of its block, and its [alarm] flag is true
    exactly when that loudness strictly exceeds [THRESHOLD] converted to
    binary32.  A flagged loudness exceeds 0.05, and the only loudness above
    0.05 that is not flagged is the converted threshold itself.  The very
    same sample is published whatever the clock and the globals
    ([last_beep_time] among them) are. *)
Theorem is_alarm_iff_above_threshold :
  forall (indata : list float32) (clk : clock) (g : globals),
    exists s : sample,
      data_queue (fst (callback indata clk g)) = data_queue g ++ [s]
      /\ rms s = rms_of indata
      /\ (alarm s = true <-> exceeds_threshold_f32 (rms_of indata))
      /\ (alarm s = true -> exceeds_threshold (rms_of indata))
      /\ (exceeds_threshold (rms_of indata) ->
          alarm s = true
          \/ (Q_of_f32 (rms_of indata) == Q_of_f32 THRESHOLD_f32)%Q)
      /\ (forall (clk' : clock) (g' : globals),
            data_queue (fst (callback indata clk' g')) = data_queue g' ++ [s]).
Proof.
  intros indata clk g.
  exists {| rms := rms_of indata; alarm := f32_gt (rms_of indata) THRESHOLD |}.
  unfold callback, compute. cbn [rms alarm].
  split; [apply on_loudness_queue|]. split; [reflexivity|].
  split; [apply f32_gt_exceeds_f32|]. split; [apply f32_gt_exceeds|].
  split.
  - intros Hx.
    destruct (exceeds_threshold_gap _ (rms_of_fits indata) Hx) as [H|H].
    + left. apply f32_gt_exceeds_f32, H.
    + right. exact H.
  - intros clk' g'. apply on_loudness_queue.
Qed.

(** A block of one second whose loudness is [13421773 * 2^-28], a
    binary32 number above 0.05: the flag of the published sample is off.  So
    it is for the block of that one sample. *)
Lemma alarm_off_at_converted_threshold :
  valid_binary prec emax THRESHOLD_f32 = true
  /\ rms_of block_at_threshold = THRESHOLD_f32
  /\ exceeds_threshold (rms_of block_at_threshold)
  /\ data_queue (fst (callback block_at_threshold (at_instant 1700000000)
                        initial_globals))
     = [{| rms := THRESHOLD_f32; alarm := false |}]
  /\ rms_of [THRESHOLD_f32] = THRESHOLD_f32
  /\ data_queue (fst (callback [THRESHOLD_f32] (at_instant 1700000000)
                        initial_globals))
     = [{| rms := THRESHOLD_f32; alarm := false |}].
Proof.
  unfold callback, compute. rewrite rms_of_block_at_threshold.
  rewrite THRESHOLD_f32_value. repeat split.
Qed.

(** C3, as the program behaves: the metric never raises, [InvalidBlock]
    or anything else, whatever the block; for a block of length 0 it returns
    [nan] (the mean of no element is [0.0 / 0]), and the callback publishes
    that [nan] with the [alarm] flag off and starts no beep. *)
Theorem compute_never_raises :
  forall indata : list float32,
    compute indata = Return (rms_of indata)
    /\ compute indata <> Raise InvalidBlock
    /\ (indata = [] -> rms_of indata = S754_nan)
    /\ (indata = [] ->
        forall (clk : clock) (g : globals),
          callback indata clk g
          = (queue_put {| rms := S754_nan; alarm := false |} g, false)).
Proof.
  intros indata. split; [reflexivity|]. split; [discriminate|]. split.
  - intros ->. reflexivity.
  - intros -> clk g. reflexivity.
Qed.

(** The metric on the block of length 0: a value, [nan], and no
    exception. *)
Lemma compute_empty_block_returns_nan :
  compute [] = Return S754_nan
  /\ fst (callback [] (at_instant 1700000000) initial_globals)
     = queue_put {| rms := S754_nan; alarm := false |} initial_globals.
Proof. split; reflexivity. Qed.

(* ===================================================================== *)
(** * Part III: further properties of the program *)
(* ===================================================================== *)

(** ** The rate of alerts *)

Lemma alert_times_cons (x : float32) (clk : clock)
    (rest : list (float32 * clock)) (g : globals) :
  alert_times ((x, clk) :: rest) g
  = (if snd (on_loudness x clk g) then [t_test clk] else [])
    ++ alert_times rest (fst (on_loudness x clk g)).
Proof. reflexivity. Qed.

(** All the beeps of a run whose callbacks happen no later than [b] fit
    between the initial [last_beep_time] and [b], each taking more than the
    cooldown. *)
Lemma alert_times_fit (b : Q) (inputs : list (float32 * clock)) :
  Forall (fun xc => clock_forward (snd xc)) inputs ->
  Forall (fun xc => (t_test (snd xc) <= b)%Q) inputs ->
  forall (g : globals) (k : nat),
    length (alert_times inputs g) = S k ->
    (last_beep_time g + cooldown_duration * inject_Z (Z.of_nat (S k)) < b)%Q.
Proof.
  induction 1 as [|[x clk] rest Hclk Hrest IH]; intros Hb g k Hlen.
  - discriminate.
  - inversion Hb as [|? ? Hb1 Hb2]; subst. simpl in Hclk, Hb1.
    rewrite alert_times_cons in Hlen.
    pose proof (on_loudness_last_beep_time x clk g) as Hlast.
    destruct (snd (on_loudness x clk g)) eqn:Hs.
    + apply should_alert_iff in Hs. destruct Hs as [_ Hs].
      unfold cooldown_duration in *. unfold clock_forward in Hclk.
      simpl in Hlen. injection Hlen as Hlen.
      destruct k as [|k].
      * change (inject_Z (Z.of_nat 1)) with 1%Q. lra.
      * specialize (IH Hb2 _ _ Hlen). rewrite Hlast in IH.
        rewrite (Nat2Z.inj_succ (S k)), <- Z.add_1_r, inject_Z_plus.
        change (inject_Z 1) with 1%Q. lra.
    + simpl in Hlen. specialize (IH Hb2 _ _ Hlen). rewrite Hlast in IH.
      exact IH.
Qed.

(** X1: rate limit.  In a run whose callbacks all happen between the
    instants [a] and [b] (each reading the clock in order), [k + 1] beeps
    need a window of at least [k] cooldowns: at most one beep is started per
    two seconds, however loud and however frequent the blocks are. *)
Theorem alerts_rate_limited :
  forall (a b : Q) (inputs : list (float32 * clock)) (g : globals) (k : nat),
    Forall (fun xc => clock_forward (snd xc)) inputs ->
    Forall (fun xc => (a <= t_test (snd xc) <= b)%Q) inputs ->
    length (alert_times inputs g) = S k ->
    (cooldown_duration * inject_Z (Z.of_nat k) <= b - a)%Q.
Proof.
  intros a b inputs g k Hclk. revert g k.
  induction Hclk as [|[x clk] rest Hclk Hrest IH]; intros g k Hab Hlen.
  - discriminate.
  - inversion Hab as [|? ? Hab1 Hab2]; subst. simpl in Hclk, Hab1.
    rewrite alert_times_cons in Hlen.
    destruct (snd (on_loudness x clk g)) eqn:Hs.
    + simpl in Hlen. injection Hlen as Hlen.
      destruct k as [|k].
      * unfold cooldown_duration. change (inject_Z (Z.of_nat 0)) with 0%Q. lra.
      * assert (Hb : Forall (fun xc => (t_test (snd xc) <= b)%Q) rest).
        { eapply List.Forall_impl; [|exact Hab2]. intros xc H. apply H. }
        pose proof (alert_times_fit b rest Hrest Hb _ _ Hlen) as Hfit.
        rewrite on_loudness_last_beep_time, Hs in Hfit.
        unfold clock_forward in Hclk. lra.
    + simpl in Hlen. exact (IH _ _ Hab2 Hlen).
Qed.

Lemma alerts_rate_limited_witness :
  (cooldown_duration * inject_Z (Z.of_nat 3) <= 1700000009 - 1700000000)%Q.
Proof.
  apply (alerts_rate_limited 1700000000 1700000009
           (scenario1 1700000000) initial_globals 3).
  - repeat constructor; unfold clock_forward; simpl; apply Qle_refl.
  - rewrite scenario1_unfold.
    repeat (apply List.Forall_cons; [simpl; split; lra|]). apply List.Forall_nil.
  - reflexivity.
Defined.

(** ** Quiet runs *)

(** X2: a run in which no loudness exceeds the threshold starts no beep at
    all, leaves [last_beep_time] and [beep_playing] as they were, and
    publishes every sample with the [alarm] flag off. *)
Theorem quiet_run_never_alerts :
  forall (inputs : list (float32 * clock)) (g : globals),
    Forall (fun xc => f32_gt (fst xc) THRESHOLD = false) inputs ->
    snd (run_loudness inputs g) = repeat false (length inputs)
    /\ last_beep_time (fst (run_loudness inputs g)) = last_beep_time g
    /\ beep_playing (fst (run_loudness inputs g)) = beep_playing g
    /\ data_queue (fst (run_loudness inputs g))
       = data_queue g
         ++ map (fun xc => {| rms := fst xc; alarm := false |}) inputs.
Proof.
  intros inputs g H. revert g.
  induction H as [|[x clk] rest Hx Hrest IH]; intros g.
  - simpl. rewrite app_nil_r. repeat split.
  - rewrite run_loudness_cons. simpl in Hx.
    rewrite (on_loudness_below x clk g Hx). cbn [fst snd].
    destruct (IH (queue_put {| rms := x; alarm := false |} g))
      as (Hb & Hl & Hp & Hq).
    rewrite Hb, Hl, Hp, Hq. simpl. rewrite <- app_assoc. repeat split.
Qed.

Lemma quiet_run_never_alerts_witness :
  snd (run_loudness [(f32_zero, at_instant 1700000000);
                     (S754_nan, at_instant 1700000003)] initial_globals)
  = [false; false].
Proof.
  apply (proj1 (quiet_run_never_alerts
                  [(f32_zero, at_instant 1700000000);
                   (S754_nan, at_instant 1700000003)] initial_globals
                  ltac:(repeat constructor))).
Defined.

(** ** The metric at its edges *)

Lemma np_sum_nan (xs : list float32) :
  Exists (fun x => x = S754_nan) xs -> np_sum xs = S754_nan.
Proof.
  intros H.
  destruct (np_sum_summation xs) as (t & <- & Hp).
  { intros ->. inversion H. }
  apply sum_value_nan.
  eapply Permutation_Exists; [symmetry; exact Hp | exact H].
Qed.

Lemma rms_of_nan_sample (indata : list float32) :
  Exists (fun x => x = S754_nan) indata -> rms_of indata = S754_nan.
Proof.
  intros H. unfold rms_of, np_sqrt, np_mean.
  rewrite np_sum_nan; [reflexivity|].
  apply List.Exists_map. eapply List.Exists_impl; [|exact H].
  intros x ->. reflexivity.
Qed.

(** X3: one [nan] sample silences the block.  Whatever the other samples
    are, however loud, and whatever the block length, the loudness of a
    block with a [nan] sample is [nan]; the callback publishes it with the
    [alarm] flag off and starts no beep, since [nan > THRESHOLD] is false. *)
Theorem nan_sample_silences_block :
  forall (indata : list float32) (clk : clock) (g : globals),
    Exists (fun x => x = S754_nan) indata ->
    rms_of indata = S754_nan
    /\ callback indata clk g
       = (queue_put {| rms := S754_nan; alarm := false |} g, false).
Proof.
  intros indata clk g H.
  pose proof (rms_of_nan_sample indata H) as Hr. split; [exact Hr|].
  unfold callback, compute. rewrite Hr. reflexivity.
Qed.

Lemma nan_sample_silences_block_witness :
  callback [f32_of_Z 1000; S754_nan; f32_of_Z 1000]
           (at_instant 1700000000) initial_globals
  = (queue_put {| rms := S754_nan; alarm := false |} initial_globals, false).
Proof.
  apply (proj2 (nan_sample_silences_block
                  [f32_of_Z 1000; S754_nan; f32_of_Z 1000]
                  (at_instant 1700000000) initial_globals
                  ltac:(right; left; reflexivity))).
Defined.

Lemma f32_add_inf_l (y : float32) :
  has_sign false y -> f32_add (S754_infinity false) y = S754_infinity false.
Proof.
  destruct y as [s|s| |s m e]; simpl; intros H; try contradiction; subst;
    reflexivity.
Qed.

Lemma f32_add_inf_r (x : float32) :
  has_sign false x -> f32_add x (S754_infinity false) = S754_infinity false.
Proof.
  destruct x as [s|s| |s m e]; simpl; intros H; try contradiction; subst;
    reflexivity.
Qed.

Lemma sum_value_inf (t : summation) :
  Forall (has_sign false) (sum_terms t) ->
  Exists (fun x => x = S754_infinity false) (sum_terms t) ->
  sum_value t = S754_infinity false.
Proof.
  induction t as [|x|a IHa b IHb]; simpl; intros Hs He.
  - inversion He.
  - inversion He as [? ? Hx | ? ? Hx]; [exact Hx | inversion Hx].
  - apply List.Forall_app in Hs. destruct Hs as [Ha Hb].
    apply List.Exists_app in He. destruct He as [He | He].
    + rewrite (IHa Ha He). apply f32_add_inf_l, sum_value_sign, Hb.
    + rewrite (IHb Hb He). apply f32_add_inf_r, sum_value_sign, Ha.
Qed.

(** X4: overflow saturates.  In a block without [nan], of at least one and
    fewer than [2^24] samples, a sample whose square is [+inf] in binary32
    (an infinite sample, or a finite one of magnitude [2^64] or more) makes
    the loudness [+inf], in whatever order the squares are added; the
    callback then publishes the sample with the [alarm] flag on. *)
Theorem overflow_gives_infinite_loudness :
  forall (indata : list float32) (t : summation),
    sum_terms t = map np_square indata ->
    (0 < Z.of_nat (length indata) < 2 ^ prec)%Z ->
    Forall (fun x => x <> S754_nan) indata ->
    Exists (fun x => np_square x = S754_infinity false) indata ->
    rms_summed t = S754_infinity false
    /\ rms_of indata = S754_infinity false
    /\ forall (clk : clock) (g : globals),
         data_queue (fst (callback indata clk g))
         = data_queue g ++ [{| rms := S754_infinity false; alarm := true |}].
Proof.
  intros indata t Ht Hlen Hnan Hinf.
  assert (Hsigns : Forall (has_sign false) (map np_square indata)).
  { apply List.Forall_map. eapply List.Forall_impl; [|exact Hnan].
    intros x Hx. apply np_square_sign, Hx. }
  assert (Hex : Exists (fun x => x = S754_infinity false) (map np_square indata)).
  { apply List.Exists_map. exact Hinf. }
  assert (Hany : forall t' : summation,
             Permutation (sum_terms t') (map np_square indata) ->
             rms_summed t' = S754_infinity false).
  { intros t' Ht'. unfold rms_summed, np_sqrt.
    rewrite sum_value_inf
      by (first [ eapply Permutation_Forall; [symmetry; exact Ht' | assumption]
                | eapply Permutation_Exists; [symmetry; exact Ht' | assumption] ]).
    rewrite (Permutation_length Ht'), length_map.
    rewrite mean_of_sum_inf by exact Hlen. reflexivity. }
  assert (Hr : rms_of indata = S754_infinity false).
  { destruct (rms_of_summed indata) as (t' & Hp & ->).
    - intros ->. simpl in Hlen. lia.
    - apply Hany, Hp. }
  split; [apply Hany; rewrite Ht; reflexivity|]. split; [exact Hr|].
  intros clk g. unfold callback, compute.
  rewrite on_loudness_queue, Hr. reflexivity.
Qed.

Lemma overflow_gives_infinite_loudness_witness :
  rms_of [f32_zero; S754_finite false 8388608 41] = S754_infinity false.
Proof.
  apply (proj1 (proj2 (overflow_gives_infinite_loudness
                         [f32_zero; S754_finite false 8388608 41]
                         (left_to_right
                            (map np_square [f32_zero; S754_finite false 8388608 41]))
                         (proj1 (left_to_right_spec _))
                         ltac:(split; reflexivity)
                         ltac:(repeat constructor; discriminate)
                         ltac:(right; left; reflexivity)))).
Defined.

Lemma np_square_opp (x : float32) : np_square (SFopp x) = np_square x.
Proof.
  destruct x as [s|s| |s m e]; try reflexivity; destruct s; reflexivity.
Qed.

(** X5: the loudness does not depend on the polarity of the signal: the
    block with every sample negated has, bit for bit, the same loudness, and
    the callback publishes the same sample and takes the same decision. *)
Theorem loudness_ignores_polarity :
  forall (indata : list float32) (clk : clock) (g : globals),
    rms_of (map SFopp indata) = rms_of indata
    /\ callback (map SFopp indata) clk g = callback indata clk g.
Proof.
  intros indata clk g.
  assert (H : rms_of (map SFopp indata) = rms_of indata).
  { unfold rms_of, np_mean. rewrite map_map, !length_map.
    rewrite (map_ext (fun x => np_square (SFopp x)) np_square np_square_opp).
    reflexivity. }
  split; [exact H|]. unfold callback, compute. rewrite H. reflexivity.
Qed.

(** ** The beep player and the callback together *)

(** X6: an alert that finds the player busy is lost, and still restarts the
    cooldown.  When the callback starts a beep thread while [beep_playing]
    is set, the callback has already moved [last_beep_time] to the clock of
    line 156, and the thread it started returns at once: no tone, no error,
    the globals untouched. *)
Theorem busy_alert_dropped_cooldown_restarted :
  forall (dev : device_behaviour) (x : float32) (clk : clock) (g : globals),
    beep_playing g = true ->
    snd (on_loudness x clk g) = true ->
    last_beep_time (fst (on_loudness x clk g)) = t_assign clk
    /\ play_beep dev (fst (on_loudness x clk g))
       = (fst (on_loudness x clk g), [], Return tt).
Proof.
  intros dev x clk g Hbusy Halert. split.
  - rewrite on_loudness_last_beep_time, Halert. reflexivity.
  - apply play_beep_busy. rewrite on_loudness_beep_playing. exact Hbusy.
Qed.

Lemma busy_alert_dropped_cooldown_restarted_witness :
  play_beep (fun _ _ => returns)
    (fst (on_loudness loudness_0_10 (at_instant 1700000000)
            (set_beep_playing true initial_globals)))
  = (fst (on_loudness loudness_0_10 (at_instant 1700000000)
            (set_beep_playing true initial_globals)), [], Return tt).
Proof.
  apply (proj2 (busy_alert_dropped_cooldown_restarted
                  (fun _ _ => returns) loudness_0_10 (at_instant 1700000000)
                  (set_beep_playing true initial_globals)
                  eq_refl eq_refl)).
Defined.

Lemma beep_rounds_prefix (dev : device_behaviour) :
  forall k n : nat,
    fst (beep_rounds dev k n)
    `prefix_of` flat_map (fun i => [ev_tone i; ev_gap i]) (seq k n).
Proof.
  intros k n. revert k.
  induction n as [|n IH]; intros k; simpl.
  - reflexivity.
  - destruct (dev k sd_play); simpl; try apply prefix_nil.
    destruct (dev k sd_wait); simpl;
      try (apply prefix_cons, prefix_nil).
    destruct (dev k time_sleep); simpl;
      try (apply prefix_cons, prefix_nil).
    specialize (IH (S k)).
    destruct (beep_rounds dev (S k) n) as [evs f]. simpl in *.
    apply prefix_cons, prefix_cons, IH.
Qed.

Lemma beep_rounds_returns (dev : device_behaviour) :
  forall k n : nat,
    snd (beep_rounds dev k n) = returns ->
    fst (beep_rounds dev k n)
    = flat_map (fun i => [ev_tone i; ev_gap i]) (seq k n).
Proof.
  intros k n. revert k.
  induction n as [|n IH]; intros k; simpl.
  - reflexivity.
  - destruct (dev k sd_play); simpl; try discriminate.
    destruct (dev k sd_wait); simpl; try discriminate.
    destruct (dev k time_sleep); simpl; try discriminate.
    specialize (IH (S k)).
    destruct (beep_rounds dev (S k) n) as [evs f]. simpl in *.
    intros Hf. rewrite (IH Hf). reflexivity.
Qed.

(** X7: what a call of [play_beep] can play.  Whatever the sound device
    does, the tones and gaps played are an initial part of the sequence
    tone, gap, tone, gap, tone, gap: never a fourth tone, never a gap before
    its tone; an error line is printed at most once, after them; and when the
    call ends without an exception and without an error line while the flag
    was clear, the whole sequence was played. *)
Theorem play_beep_plays_a_prefix :
  forall (dev : device_behaviour) (g : globals),
    exists played : list beep_event,
      played `prefix_of`
        [ev_tone 0; ev_gap 0; ev_tone 1; ev_gap 1; ev_tone 2; ev_gap 2]
      /\ (snd (fst (play_beep dev g)) = played
          \/ snd (fst (play_beep dev g)) = played ++ [ev_error_printed])
      /\ (beep_playing g = false ->
          play_beep dev g = (g, played, Return tt) ->
          played
          = [ev_tone 0; ev_gap 0; ev_tone 1; ev_gap 1; ev_tone 2; ev_gap 2]).
Proof.
  intros dev g. unfold play_beep, play_beep_enter, play_beep_sequence.
  destruct (beep_playing g) eqn:Hg.
  - exists []. split; [apply prefix_nil|]. split; [left; reflexivity|].
    discriminate.
  - pose proof (beep_rounds_prefix dev 0 3) as Hp.
    pose proof (beep_rounds_returns dev 0 3) as Hr.
    destruct (beep_rounds dev 0 3) as [evs f]. simpl in Hp, Hr.
    exists evs. split; [exact Hp|].
    destruct f; simpl.
    + split; [left; reflexivity|]. intros _ _. apply Hr. reflexivity.
    + split; [right; reflexivity|]. intros _ H.
      injection H as _ H. exfalso.
      apply (f_equal (@length beep_event)) in H.
      rewrite length_app in H. simpl in H. lia.
    + split; [left; reflexivity|]. intros _ H. discriminate H.
Qed.

(** ** The emitter and the queue *)

Lemma run_steps_cons (s : step) (steps : list step) (st : globals * hub) :
  run_steps (s :: steps) st = run_steps steps (do_step s st).
Proof. reflexivity. Qed.

(** X8: the emitter takes one sample per turn and never puts one back.
    After [k] emitter turns in a row the queue has lost its [k] oldest
    samples (all of them when it held fewer), whatever became of the
    deliveries: a sample whose emit raised or reached nobody is gone, not
    retried.  The turns change nothing else in the globals. *)
Theorem emitter_drains_queue :
  forall (turns : list (Q * delivery * delivery)) (g : globals) (h : hub),
    data_queue (fst (run_steps (emitter_turns turns) (g, h)))
    = drop (length turns) (data_queue g)
    /\ last_beep_time (fst (run_steps (emitter_turns turns) (g, h)))
       = last_beep_time g
    /\ beep_playing (fst (run_steps (emitter_turns turns) (g, h)))
       = beep_playing g.
Proof.
  induction turns as [|[[now d1] d2] turns IH]; intros g h.
  - simpl. rewrite drop_0. repeat split.
  - unfold emitter_turns. rewrite map_cons. fold (emitter_turns turns).
    rewrite run_steps_cons. cbn [fst snd do_step].
    unfold emit_data_turn.
    destruct (data_queue g) as [|data rest] eqn:Eq.
    + destruct (IH g h) as (H1 & H2 & H3). rewrite H1, H2, H3, Eq.
      rewrite !drop_nil. repeat split.
    + destruct (socketio_emit d1 (rms_update (rms data) now) h) as [h1 ok].
      destruct ok; [destruct (alarm data)|];
        match goal with
        | |- context [run_steps (emitter_turns turns) (?g1, ?h1)] =>
            destruct (IH g1 h1) as (H1 & H2 & H3); rewrite H1, H2, H3
        end; simpl; repeat split.
Qed.

Lemma socketio_emit_sound (d : delivery) (m : message) (h : hub) :
  alarm_is_loud m ->
  (forall c : nat, Forall alarm_is_loud (received h c)) ->
  forall c : nat, Forall alarm_is_loud (received (fst (socketio_emit d m h)) c).
Proof.
  intros Hm Hh c.
  destruct (socketio_emit_received d m h c) as [-> | ->]; [apply Hh|].
  apply List.Forall_app. split; [apply Hh | repeat constructor; exact Hm].
Qed.

Lemma queue_and_inboxes_sound_step (s : step) (st : globals * hub) :
  queue_and_inboxes_sound st -> queue_and_inboxes_sound (do_step s st).
Proof.
  intros [Hq Hr]. destruct st as [g h]. cbn [fst snd] in Hq, Hr.
  destruct s as [indata clk|now d1 d2|c|c]; cbn [do_step].
  - split; [|exact Hr]. cbn [fst snd].
    unfold callback, compute. rewrite on_loudness_queue.
    apply List.Forall_app. split; [exact Hq|]. repeat constructor.
  - unfold emit_data_turn.
    destruct (data_queue g) as [|data rest] eqn:Eq.
    + split; [cbn [fst]; rewrite Eq; constructor | exact Hr].
    + inversion Hq as [|? ? Hdata Hrest]; subst.
      pose proof (socketio_emit_sound d1 (rms_update (rms data) now) h I Hr) as H1.
      destruct (socketio_emit d1 (rms_update (rms data) now) h) as [h1 ok].
      cbn [fst] in H1.
      destruct ok; [destruct (alarm data) eqn:Ea|];
        (split; [exact Hrest | cbn [fst snd]]); try exact H1.
      apply socketio_emit_sound; [|exact H1].
      simpl. apply f32_gt_exceeds. rewrite <- Hdata. exact Ea.
  - split; assumption.
  - split; assumption.
Qed.

Lemma queue_and_inboxes_sound_run (steps : list step) :
  forall st : globals * hub,
    queue_and_inboxes_sound st -> queue_and_inboxes_sound (run_steps steps st).
Proof.
  induction steps as [|s steps IH]; intros st H.
  - exact H.
  - rewrite run_steps_cons. apply IH, queue_and_inboxes_sound_step, H.
Qed.

(** X9: no false alarm reaches a browser.  In every run of the program
    from its initial state, callbacks, emitter turns, connections and
    disconnections in any order, every [alarm] event any client has received
    carries a loudness strictly above the threshold, and every sample still
    in the queue has the flag of its loudness. *)
Theorem alarm_events_are_loud :
  forall (steps : list step) (c : nat),
    Forall alarm_is_loud
      (received (snd (run_steps steps (initial_globals, initial_hub))) c)
    /\ Forall flag_matches
         (data_queue (fst (run_steps steps (initial_globals, initial_hub)))).
Proof.
  intros steps c.
  assert (H0 : queue_and_inboxes_sound (initial_globals, initial_hub)).
  { split; [constructor | intros c'; constructor]. }
  destruct (queue_and_inboxes_sound_run steps _ H0) as [Hq Hr].
  split; [apply Hr | exact Hq].
Qed.

(** ** Late subscribers *)






(** ** Device selection: how it fails *)

Lemma py_getitem_raises_IndexError {A : Type} (l : list A) (i : Z) (e : exn) :
  py_getitem l i = Raise e -> e = IndexError.
Proof.
  unfold py_getitem. destruct (_ && _)%bool; [|congruence].
  destruct (nth_error l _); congruence.
Qed.

Lemma select_fallback_ValueError (default_input : Z) (devices : list device) :
  select_fallback default_input devices = Raise ValueError <->
  (exists dev, py_getitem devices default_input = Return dev)
  /\ forall dev, In dev devices -> (max_input_channels dev <= 0)%Z.
Proof.
  unfold select_fallback, bind_result. split.
  - intros H.
    destruct (py_getitem devices default_input) as [dev|e] eqn:Ed.
    + destruct (0 <? max_input_channels dev)%Z; [discriminate|].
      destruct (first_input_from 0 devices) as [i|] eqn:Ef; [discriminate|].
      split; [exists dev; reflexivity|].
      apply (first_input_from_None devices 0), Ef.
    + apply py_getitem_raises_IndexError in Ed. congruence.
  - intros [[dev Hdev] Hnone]. rewrite Hdev.
    replace (0 <? max_input_channels dev)%Z with false.
    + rewrite (proj2 (first_input_from_None devices 0) Hnone). reflexivity.
    + symmetry. apply Z.ltb_ge, Hnone. eapply py_getitem_In, Hdev.
Qed.

Lemma select_device_raises_only (DEVICE_INDEX : option Z) (default_input : Z)
    (devices : list device) (e : exn) :
  select_device DEVICE_INDEX default_input devices = Raise e ->
  e = ValueError \/ e = IndexError.
Proof.
  intros H.
  assert (Hf : forall e', select_fallback default_input devices = Raise e' ->
                          e' = ValueError \/ e' = IndexError).
  { intros e'. unfold select_fallback, bind_result.
    destruct (py_getitem devices default_input) as [dev|e0] eqn:Ed.
    - destruct (0 <? max_input_channels dev)%Z; [discriminate|].
      destruct (first_input_from 0 devices); [discriminate|].
      intros [= <-]. left. reflexivity.
    - intros [= <-]. right. eapply py_getitem_raises_IndexError, Ed. }
  unfold select_device, bind_result in H.
  destruct DEVICE_INDEX as [d|]; [|exact (Hf _ H)].
  destruct (d <? Z.of_nat (length devices))%Z; [|exact (Hf _ H)].
  destruct (py_getitem devices d) as [dev|e0] eqn:Ed.
  - destruct (0 <? max_input_channels dev)%Z; [discriminate | exact (Hf _ H)].
  - injection H as <-. right. eapply py_getitem_raises_IndexError, Ed.
Qed.

(** X11: without an input device the selection fails.  When no device of
    the list has an input channel, [select_device] returns no index at all:
    it raises [ValueError] or [IndexError], whatever the configured index
    and the default input are.  On an empty list it is always [IndexError]:
    the [ValueError] "No input devices found" of line 190 is not reached,
    because [devices[default_input]] raises first. *)
Theorem select_device_raises_without_inputs :
  forall (DEVICE_INDEX : option Z) (default_input : Z) (devices : list device),
    (forall dev, In dev devices -> (max_input_channels dev <= 0)%Z) ->
    exists e : exn,
      select_device DEVICE_INDEX default_input devices = Raise e
      /\ (e = ValueError \/ e = IndexError)
      /\ (devices = [] -> e = IndexError).
Proof.
  intros DEVICE_INDEX default_input devices Hnone.
  destruct (select_device DEVICE_INDEX default_input devices) as [i|e] eqn:E.
  - exfalso. destruct (select_device_sound _ _ _ _ E) as (dev & Hdev & Hch).
    apply py_getitem_In in Hdev. specialize (Hnone dev Hdev). lia.
  - exists e. split; [reflexivity|].
    split; [exact (select_device_raises_only _ _ _ _ E)|].
    intros ->.
    assert (Hnil : forall i : Z, py_getitem (@nil device) i = Raise IndexError).
    { intros i. unfold py_getitem.
      destruct (_ && _)%bool; [|reflexivity].
      destruct (Z.to_nat _); reflexivity. }
    unfold select_device, select_fallback in E.
    destruct DEVICE_INDEX as [d|].
    + rewrite !Hnil in E. destruct (d <? _)%Z; simpl in E; congruence.
    + rewrite Hnil in E. simpl in E. congruence.
Qed.

Lemma select_device_raises_without_inputs_witness :
  exists e : exn,
    select_device (Some 0%Z) 1 [mk_device 0; mk_device 0] = Raise e
    /\ (e = ValueError \/ e = IndexError)
    /\ ([mk_device 0; mk_device 0] = [] -> e = IndexError).
Proof.
  apply (select_device_raises_without_inputs
           (Some 0%Z) 1 [mk_device 0; mk_device 0]).
  intros dev [<- | [<- | []]]; simpl; lia.
Defined.

(** X12: when "No input devices found" is raised.  [select_device] raises
    [ValueError] exactly when the configured index cannot be used, the
    default input index names a device of the list, and no device of the
    list has an input channel; every other failure of [select_device] is an
    [IndexError] of [devices[...]]. *)
Theorem select_device_ValueError_iff :
  forall (DEVICE_INDEX : option Z) (default_input : Z) (devices : list device),
    (select_device DEVICE_INDEX default_input devices = Raise ValueError <->
     configured_unusable DEVICE_INDEX devices
     /\ (exists dev, py_getitem devices default_input = Return dev)
     /\ forall dev, In dev devices -> (max_input_channels dev <= 0)%Z)
    /\ (forall e : exn,
          select_device DEVICE_INDEX default_input devices = Raise e ->
          e = ValueError \/ e = IndexError).
Proof.
  intros DEVICE_INDEX default_input devices. split.
  - split.
    + intros H.
      assert (Hun : configured_unusable DEVICE_INDEX devices).
      { unfold select_device, bind_result, configured_unusable in *.
        destruct DEVICE_INDEX as [d|]; [|exact I].
        destruct (d <? Z.of_nat (length devices))%Z eqn:E;
          [|left; apply Z.ltb_ge, E].
        destruct (py_getitem devices d) as [dev|e] eqn:Ed.
        - destruct (0 <? max_input_channels dev)%Z eqn:Ec; [discriminate|].
          right. exists dev. split; [reflexivity | apply Z.ltb_ge, Ec].
        - apply py_getitem_raises_IndexError in Ed. congruence. }
      split; [exact Hun|].
      rewrite (select_device_unusable _ _ _ Hun) in H.
      apply select_fallback_ValueError, H.
    + intros (Hun & Hdef & Hnone).
      rewrite (select_device_unusable _ _ _ Hun).
      apply select_fallback_ValueError. split; assumption.
  - intros e. apply select_device_raises_only.
Qed.

(** ** The port search: its trace and its restarts *)

(** X13: searching again from anywhere between the start and the port
    found finds the same port.  If the search from [start_port] returns [p],
    then for the same behaviour of [bind] the search from every [s] with
    [start_port <= s <= p] returns [p] too; in particular the search from
    [p] itself returns [p] at its first attempt. *)
Theorem find_free_port_restart :
  forall (bind : Z -> bind_outcome) (start_port p s : Z),
    snd (find_free_port bind start_port) = Return p ->
    (start_port <= s <= p)%Z ->
    snd (find_free_port bind s) = Return p
    /\ find_free_port bind p = ([p], Return p).
Proof.
  intros bind start_port p s H Hs. unfold find_free_port in *.
  apply find_free_port_from_Return in H. destruct H as (Hp & Hb & Hq).
  split.
  - apply find_free_port_from_Return. split; [lia|]. split; [exact Hb|].
    intros q Hq'. apply Hq. lia.
  - rewrite find_free_port_from_equation_1.
    destruct (Z_lt_dec p (p + 100)) as [Hlt|Hge]; [|lia].
    simpl. rewrite Hb. reflexivity.
Qed.

Lemma find_free_port_restart_witness :
  snd (find_free_port
         (fun p => if (p <? 5003)%Z then bind_OSError else binds) 5002)
  = Return 5003%Z.
Proof.
  apply (proj1 (find_free_port_restart
                  (fun p => if (p <? 5003)%Z then bind_OSError else binds)
                  5000 5003 5002 eq_refl ltac:(lia))).
Defined.

Lemma find_free_port_from_trace_Return (bind : Z -> bind_outcome)
    (start_port port : Z) :
  forall p : Z,
    snd (find_free_port_from bind start_port port) = Return p ->
    fst (find_free_port_from bind start_port port)
    = map (fun k : nat => (port + Z.of_nat k)%Z) (seq 0 (S (Z.to_nat (p - port)))).
Proof.
  funelim (find_free_port_from bind start_port port); intros p; cbn [fst snd].
  - discriminate.
  - intros [= <-]. rewrite Z.sub_diag. simpl. rewrite Z.add_0_r. reflexivity.
  - pose proof (find_free_port_from_Return bind start_port (port + 1) p) as Hspec.
    destruct (find_free_port_from bind start_port (port + 1)) as [tried r] eqn:E.
    cbn [fst snd] in *. intros Hr.
    rewrite (H p Hr). apply Hspec in Hr. destruct Hr as (Hp & _).
    replace (Z.to_nat (p - port)) with (S (Z.to_nat (p - (port + 1)))) by lia.
    remember (S (Z.to_nat (p - (port + 1)))) as n.
    simpl. rewrite Z.add_0_r. f_equal.
    rewrite <- seq_shift, map_map. apply map_ext. intros k. lia.
  - discriminate.
Qed.

Lemma find_free_port_from_trace_exhausted (bind : Z -> bind_outcome)
    (start_port port : Z) :
  (forall q : Z, (port <= q < start_port + 100)%Z -> bind q = bind_OSError) ->
  fst (find_free_port_from bind start_port port)
  = map (fun k : nat => (port + Z.of_nat k)%Z)
        (seq 0 (Z.to_nat (start_port + 100 - port))).
Proof.
  funelim (find_free_port_from bind start_port port); intros Hall; cbn [fst].
  - replace (Z.to_nat (start_port + 100 - port)) with 0%nat by lia. reflexivity.
  - assert (Hport : bind port = bind_OSError) by (apply Hall; lia). congruence.
  - destruct (find_free_port_from bind start_port (port + 1)) as [tried r] eqn:E.
    cbn [fst] in *. rewrite H by (intros q Hq; apply Hall; lia).
    replace (Z.to_nat (start_port + 100 - port))
      with (S (Z.to_nat (start_port + 100 - (port + 1)))) by lia.
    remember (Z.to_nat (start_port + 100 - (port + 1))) as n.
    simpl. rewrite Z.add_0_r. f_equal.
    rewrite <- seq_shift, map_map. apply map_ext. intros k. lia.
  - assert (Hport : bind port = bind_OSError) by (apply Hall; lia). congruence.
Qed.

(** X14: the sockets the search opens.  When [find_free_port] returns [p]
    it has tried exactly the ports [start_port, start_port + 1, ..., p], each
    once and in that order, [p - start_port + 1] binds in all; when every
    port of the range raises [OSError] it has tried all 100 of them, once
    each, before raising. *)
Theorem find_free_port_trace :
  forall (bind : Z -> bind_outcome) (start_port : Z),
    (forall p : Z,
        snd (find_free_port bind start_port) = Return p ->
        fst (find_free_port bind start_port)
        = map (fun k : nat => (start_port + Z.of_nat k)%Z)
              (seq 0 (S (Z.to_nat (p - start_port)))))
    /\ ((forall q : Z,
            (start_port <= q < start_port + 100)%Z -> bind q = bind_OSError) ->
        fst (find_free_port bind start_port)
        = map (fun k : nat => (start_port + Z.of_nat k)%Z) (seq 0 100)).
Proof.
  intros bind start_port. unfold find_free_port. split.
  - apply find_free_port_from_trace_Return.
  - intros Hall.
    rewrite (find_free_port_from_trace_exhausted bind start_port start_port Hall).
    replace (Z.to_nat (start_port + 100 - start_port)) with 100%nat by lia.
    reflexivity.
Qed.

(** ** The start-up script *)

Ltac main_script_cases DEVICE_INDEX h :=
  unfold main, main_try, main_handlers;
  destruct (select_device DEVICE_INDEX (host_default_input h) (host_devices h))
    as [d|e0] eqn:Esel;
  [ destruct (py_getitem (host_devices_again h) d) as [dev|e0] eqn:Eagain;
    [ destruct (host_open_stream h d) as [[]|e0] eqn:Eopen;
      [ destruct (host_start_stream h) as [[]|e0] eqn:Estart;
        [ destruct (host_start_task h) as [[]|e0] eqn:Etask;
          [ destruct (snd (find_free_port (host_bind h) 5000))
              as [port|e0] eqn:Eport;
            [ destruct (host_run_server h port) as [[]|e0] eqn:Erun | ]
          | ]
        | ]
      | ]
    | ]
  | ];
  try destruct e0;
  try (destruct (host_stop_stream h) as [[]|estop] eqn:Estop;
       [ destruct (host_close_stream h) as [[]|eclose] eqn:Eclose | ]);
  cbn [fst snd is_Exception].

(** X15: the stream is released exactly when it was opened.  In every run
    of the start-up script, [stream.stop()] is called if and only if
    [sd.InputStream(...)] returned, [stream.close()] is called if and only
    if moreover [stream.stop()] returned, and these calls are the last
    things the script does: whatever failed before, and however the server
    ended. *)
Theorem main_releases_stream_iff_opened :
  forall (DEVICE_INDEX : option Z) (h : host),
    let evs := fst (main DEVICE_INDEX h) in
    ((exists d : Z, In (ev_stream_opened d) evs) <-> In ev_stop_called evs)
    /\ (In ev_close_called evs <->
        In ev_stop_called evs /\ host_stop_stream h = Return tt)
    /\ exists body tail : list main_event,
         evs = body ++ tail
         /\ Forall (fun e => cleanup_event e = false) body
         /\ (tail = [] \/ tail = [ev_stop_called]
             \/ tail = [ev_stop_called; ev_close_called]).
Proof.
  intros DEVICE_INDEX h evs. subst evs.
  main_script_cases DEVICE_INDEX h.
  all: split;
    [ split;
      [ intros [d' Hin]; simpl in Hin |- *; intuition (try discriminate; auto)
      | intros Hin; simpl in Hin; intuition (try discriminate);
        exists d; simpl; tauto ]
    | split;
      [ split;
        [ intros Hin; simpl in Hin |- *; intuition (try discriminate; auto)
        | intros [Hin Hst]; simpl in Hin |- *;
          intuition (try discriminate; auto) ]
      | ] ].
  all: try (eexists; exists (@nil main_event); split;
            [ symmetry; apply app_nil_r
            | split; [simpl; repeat constructor | left; reflexivity] ]; fail).
  all: try (match goal with
            | |- exists body tail, ?pre ++ [ev_stop_called] = _ /\ _ =>
                exists pre, [ev_stop_called]; split; [reflexivity|];
                split; [simpl; repeat constructor | right; left; reflexivity]
            | |- exists body tail, ?pre ++ [ev_stop_called; ev_close_called] = _ /\ _ =>
                exists pre, [ev_stop_called; ev_close_called];
                split; [reflexivity|];
                split; [simpl; repeat constructor | right; right; reflexivity]
            end).
Qed.

(** X16: the server is started only on a ready program.  When the script
    reaches [socketio.run(app, port=p)], the selected device names an entry
    of the device list with at least one input channel, the input stream on
    that device was opened and started, the emitter task was started, and
    [p] is the first port from 5000 on, below 5100, whose bind did not
    raise; these are the script's events, in this order, before the server
    runs. *)
Theorem server_runs_only_when_ready :
  forall (DEVICE_INDEX : option Z) (h : host) (p : Z),
    In (ev_server_run p) (fst (main DEVICE_INDEX h)) ->
    exists (d : Z) (dev : device) (rest : list main_event),
      select_device DEVICE_INDEX (host_default_input h) (host_devices h) = Return d
      /\ py_getitem (host_devices h) d = Return dev
      /\ (0 < max_input_channels dev)%Z
      /\ host_open_stream h d = Return tt
      /\ host_start_stream h = Return tt
      /\ host_start_task h = Return tt
      /\ (5000 <= p < 5100)%Z
      /\ host_bind h p = binds
      /\ (forall q : Z, (5000 <= q < p)%Z -> host_bind h q = bind_OSError)
      /\ fst (main DEVICE_INDEX h)
         = [ev_print_using d; ev_stream_opened d; ev_stream_started;
            ev_task_started; ev_print_listening d p; ev_server_run p] ++ rest.
Proof.
  intros DEVICE_INDEX h p.
  main_script_cases DEVICE_INDEX h.
  all: intros Hin; simpl in Hin.
  all: try (exfalso; intuition discriminate).
  all: assert (Hp : port = p)
    by (intuition (try discriminate); congruence); subst port.
  all: destruct (select_device_sound _ _ _ _ Esel) as (dev' & Hdev & Hch).
  all: apply find_free_port_from_Return in Eport;
    destruct Eport as (Hrange & Hbind & Hbefore).
  all: exists d, dev'; eexists.
  all: repeat (split; [first [assumption | reflexivity | lia]|]).
  all: rewrite <- ?app_assoc; reflexivity.
Qed.

Lemma server_runs_only_when_ready_witness :
  In (ev_server_run 5001) (fst (main (Some 7%Z) working_host))
  /\ exists (d : Z) (dev : device) (rest : list main_event),
      select_device (Some 7%Z) (host_default_input working_host)
        (host_devices working_host) = Return d
      /\ py_getitem (host_devices working_host) d = Return dev
      /\ (0 < max_input_channels dev)%Z
      /\ host_open_stream working_host d = Return tt
      /\ host_start_stream working_host = Return tt
      /\ host_start_task working_host = Return tt
      /\ (5000 <= 5001 < 5100)%Z
      /\ host_bind working_host 5001 = binds
      /\ (forall q : Z, (5000 <= q < 5001)%Z ->
                        host_bind working_host q = bind_OSError)
      /\ fst (main (Some 7%Z) working_host)
         = [ev_print_using d; ev_stream_opened d; ev_stream_started;
            ev_task_started; ev_print_listening d 5001; ev_server_run 5001]
           ++ rest.
Proof.
  assert (Hin : In (ev_server_run 5001) (fst (main (Some 7%Z) working_host))).
  { vm_compute. do 5 right. left. reflexivity. }
  split; [exact Hin|].
  exact (server_runs_only_when_ready (Some 7%Z) working_host 5001 Hin).
Defined.

(** X17: what can leave the start-up script.  An exception leaves the
    script only from the [finally] clause (the stream had been opened and
    [stream.stop()] or [stream.close()] raised it), or because the [try]
    body raised an exception that is neither an [Exception] nor a
    [KeyboardInterrupt], [SystemExit] for one.  Every other failure of the
    [try] body is printed and swallowed; in particular when [select_device]
    raises, the script prints that error, opens no stream, binds no port,
    and ends normally. *)
Theorem main_contains_errors :
  forall (DEVICE_INDEX : option Z) (h : host),
    (forall e : exn,
        snd (main DEVICE_INDEX h) = Raise e ->
        ((exists d : Z, In (ev_stream_opened d) (fst (main DEVICE_INDEX h)))
         /\ (host_stop_stream h = Raise e
             \/ host_stop_stream h = Return tt /\ host_close_stream h = Raise e))
        \/ (is_Exception e = false
            /\ e <> KeyboardInterrupt
            /\ snd (main_try DEVICE_INDEX h) = Raise e))
    /\ (forall e : exn,
          snd (main_try DEVICE_INDEX h) = Raise e ->
          is_Exception e = true \/ e = KeyboardInterrupt ->
          (host_stop_stream h = Return tt /\ host_close_stream h = Return tt
           \/ snd (fst (main_try DEVICE_INDEX h)) = false) ->
          snd (main DEVICE_INDEX h) = Return tt)
    /\ (forall e : exn,
          select_device DEVICE_INDEX (host_default_input h) (host_devices h)
          = Raise e ->
          main DEVICE_INDEX h = ([ev_print_error e], Return tt))
    /\ (forall (d : Z) (e : exn),
          select_device DEVICE_INDEX (host_default_input h) (host_devices h)
          = Return d ->
          host_open_stream h d = Raise e ->
          is_Exception e = true \/ e = KeyboardInterrupt ->
          ~ In ev_stop_called (fst (main DEVICE_INDEX h))
          /\ snd (main DEVICE_INDEX h) = Return tt).
Proof.
  intros DEVICE_INDEX h. split; [|split; [|split]].
  - intros e. main_script_cases DEVICE_INDEX h.
    all: try discriminate.
    all: intros [= <-].
    all: first
      [ left; split; [exists d; simpl; tauto | solve [auto]]
      | right; repeat split; first [reflexivity | discriminate] ].
  - intros e. main_script_cases DEVICE_INDEX h.
    all: try reflexivity.
    all: intros He [Hexc | Hexc] Hfin.
    all: try discriminate.
    all: try (injection He as <-; discriminate).
    all: destruct Hfin as [[? ?] | ?]; discriminate.
  - intros e He.
    destruct (select_device_raises_only _ _ _ _ He) as [-> | ->];
      unfold main, main_try; rewrite He; reflexivity.
  - intros d0 e Hsel Hopen Hexc. main_script_cases DEVICE_INDEX h.
    all: try congruence.
    all: try (apply py_getitem_raises_IndexError in Eagain; discriminate Eagain).
    all: try (split; [simpl; intuition discriminate | reflexivity]).
    all: injection Hsel as <-; rewrite Hopen in Eopen;
      first [ discriminate Eopen
            | injection Eopen as ->; destruct Hexc; discriminate ].
Qed.

(** ** The chart of the page *)

Lemma last_n_length {A : Type} (n : nat) (l : list A) :
  length (last_n n l) = Nat.min n (length l).
Proof. unfold last_n. rewrite length_drop. lia. Qed.

Lemma last_n_push_small {A : Type} (n : nat) (l : list A) (x : A) :
  (length l < n)%nat -> last_n n (l ++ [x]) = last_n n l ++ [x].
Proof.
  intros H. unfold last_n. rewrite length_app. simpl.
  replace (length l + 1 - n)%nat with 0%nat by lia.
  replace (length l - n)%nat with 0%nat by lia. reflexivity.
Qed.

Lemma last_n_push_full {A : Type} (n : nat) (l : list A) (x : A) :
  (0 < n <= length l)%nat -> last_n n (l ++ [x]) = tl (last_n n l ++ [x]).
Proof.
  intros H. unfold last_n. rewrite length_app. simpl.
  replace (length l + 1 - n)%nat with (S (length l - n)) by lia.
  destruct (lookup_lt_is_Some_2 l (length l - n)%nat) as [y Hy]; [lia|].
  rewrite (drop_S l y _ Hy). simpl.
  rewrite drop_app_le by lia. reflexivity.
Qed.

Lemma chart_after_snoc (events : list page_event) (e : page_event) (c : chart) :
  chart_after (events ++ [e]) c = chart_on e (chart_after events c).
Proof. unfold chart_after. rewrite fold_left_app. reflexivity. Qed.

Lemma update_times_snoc (events : list page_event) (e : page_event) :
  update_times (events ++ [e])
  = update_times events
    ++ match e with page_update t _ => [t] | page_alarm _ _ => [] end.
Proof.
  induction events as [|[t x|t x] rest IH]; simpl.
  - destruct e; reflexivity.
  - rewrite IH. reflexivity.
  - exact IH.
Qed.

Lemma update_values_snoc (events : list page_event) (e : page_event) :
  update_values (events ++ [e])
  = update_values events
    ++ match e with page_update _ x => [x] | page_alarm _ _ => [] end.
Proof.
  induction events as [|[t x|t x] rest IH]; simpl.
  - destruct e; reflexivity.
  - rewrite IH. reflexivity.
  - exact IH.
Qed.

Lemma alarm_points_snoc (events : list page_event) (e : page_event) :
  alarm_points (events ++ [e])
  = alarm_points events
    ++ match e with page_update _ _ => [] | page_alarm t x => [(t, x)] end.
Proof.
  induction events as [|[t x|t x] rest IH]; simpl.
  - destruct e; reflexivity.
  - exact IH.
  - rewrite IH. reflexivity.
Qed.

Lemma update_values_length (events : list page_event) :
  length (update_values events) = length (update_times events).
Proof.
  induction events as [|[t x|t x] rest IH]; simpl; [reflexivity | | exact IH].
  rewrite IH. reflexivity.
Qed.

Lemma chart_on_update_small (t : Q) (x : float32) (c : chart) :
  (length (chart_labels c) < 50)%nat ->
  chart_on_update t x c
  = {| chart_labels := chart_labels c ++ [t];
       chart_rms := chart_rms c ++ [x];
       chart_threshold := chart_threshold c ++ [THRESHOLD];
       chart_alarms := chart_alarms c |}.
Proof.
  intros H. unfold chart_on_update. rewrite length_app. cbn [length].
  replace (50 <? length (chart_labels c) + 1)%nat
    with false by (symmetry; apply Nat.ltb_ge; lia).
  reflexivity.
Qed.

Lemma chart_on_update_full (t : Q) (x : float32) (c : chart)
    (m : Q) (rest : list Q) :
  chart_labels c = m :: rest ->
  (50 <= length (chart_labels c))%nat ->
  chart_on_update t x c
  = {| chart_labels := rest ++ [t];
       chart_rms := tl (chart_rms c ++ [x]);
       chart_threshold := tl (chart_threshold c ++ [THRESHOLD]);
       chart_alarms :=
         List.filter (fun p => Qle_bool m (fst p)) (chart_alarms c) |}.
Proof.
  intros E H. unfold chart_on_update. rewrite length_app. cbn [length].
  replace (50 <? length (chart_labels c) + 1)%nat
    with true by (symmetry; apply Nat.ltb_lt; lia).
  rewrite E. reflexivity.
Qed.

(** The three lines of the chart after any events. *)
Lemma chart_lines (events : list page_event) :
  chart_labels (chart_after events empty_chart) = last_n 50 (update_times events)
  /\ chart_rms (chart_after events empty_chart) = last_n 50 (update_values events)
  /\ chart_threshold (chart_after events empty_chart)
     = repeat THRESHOLD (Nat.min 50 (length (update_times events))).
Proof.
  induction events as [|e events IH] using rev_ind.
  - repeat split.
  - destruct IH as (Hl & Hr & Ht).
    rewrite chart_after_snoc, update_times_snoc, update_values_snoc.
    destruct e as [t x|t x]; cbn [chart_on].
    + pose proof (update_values_length events) as Hlen.
      pose proof (last_n_length 50 (update_times events)) as Hn.
      rewrite <- Hl in Hn.
      destruct (Nat.le_gt_cases 50 (length (update_times events))) as [Hfull|Hsmall].
      * destruct (chart_labels (chart_after events empty_chart))
          as [|m rest] eqn:E; [cbn [length] in Hn; lia|].
        rewrite (chart_on_update_full t x _ m rest E) by (rewrite E; lia).
        cbn [chart_labels chart_rms chart_threshold].
        rewrite Hr, Ht, !last_n_push_full by lia.
        rewrite <- Hl. cbn [app tl]. rewrite length_app. cbn [length].
        replace (Nat.min 50 (length (update_times events) + 1)) with 50%nat by lia.
        replace (Nat.min 50 (length (update_times events))) with 50%nat by lia.
        repeat split; rewrite <- repeat_cons; reflexivity.
      * rewrite chart_on_update_small by lia.
        cbn [chart_labels chart_rms chart_threshold].
        rewrite Hl, Hr, Ht, !last_n_push_small by lia.
        rewrite length_app. cbn [length]. repeat split.
        replace (Nat.min 50 (length (update_times events) + 1))
          with (S (Nat.min 50 (length (update_times events)))) by lia.
        rewrite <- repeat_cons. reflexivity.
    + cbn [chart_on_alarm chart_labels chart_rms chart_threshold].
      rewrite !app_nil_r. repeat split; assumption.
Qed.

(** X18: the chart is a sliding window of 50.  After any sequence of
    events from an empty chart, the labels and the loudness line are the
    times and values of the last 50 [rms_update] events, in order; the
    threshold line has the same length and is constant; none of the three
    ever holds more than 50 entries; and until the 51st update arrives,
    every alarm point received is on the chart. *)
Theorem chart_keeps_last_50_updates :
  forall events : list page_event,
    let c := chart_after events empty_chart in
    chart_labels c = last_n 50 (update_times events)
    /\ chart_rms c = last_n 50 (update_values events)
    /\ chart_threshold c = repeat THRESHOLD (length (chart_labels c))
    /\ (length (chart_labels c) <= 50)%nat
    /\ length (chart_rms c) = length (chart_labels c)
    /\ ((length (update_times events) <= 50)%nat ->
        chart_alarms c = alarm_points events).
Proof.
  intros events c. subst c.
  destruct (chart_lines events) as (Hl & Hr & Ht).
  rewrite Hl, Hr, Ht, !last_n_length, update_values_length.
  repeat split; try lia.
  clear Hl Hr Ht.
  induction events as [|e events IH] using rev_ind; [reflexivity|].
  rewrite chart_after_snoc, update_times_snoc, alarm_points_snoc.
  destruct (chart_lines events) as (Hl' & _).
  pose proof (last_n_length 50 (update_times events)) as Hn.
  rewrite <- Hl' in Hn.
  destruct e as [t x|t x]; cbn [chart_on].
  - rewrite length_app. cbn [length]. intros Hlen.
    rewrite chart_on_update_small by lia.
    cbn [chart_alarms]. rewrite app_nil_r. apply IH. lia.
  - rewrite app_nil_r. intros Hlen. cbn [chart_on_alarm chart_alarms].
    rewrite (IH Hlen). reflexivity.
Qed.

Lemma arrival_ordered_snoc (events : list page_event) (e : page_event) :
  arrival_ordered (events ++ [e]) ->
  arrival_ordered events
  /\ Forall (fun e0 => (event_time e0 <= event_time e)%Q) events.
Proof.
  induction events as [|e1 rest IH]; simpl.
  - intros _. split; [exact I | constructor].
  - intros [Hall Hrest]. destruct (IH Hrest) as [Hord Hle].
    apply List.Forall_app in Hall. destruct Hall as [Hall1 Hall2].
    split; [split; assumption|].
    constructor; [|exact Hle]. inversion Hall2; assumption.
Qed.

Lemma update_times_In (l : Q) (events : list page_event) :
  In l (update_times events) ->
  exists e : page_event, In e events /\ event_time e = l.
Proof.
  induction events as [|[t x|t x] rest IH]; simpl; [tauto| |].
  - intros [<-|Hin].
    + eexists. split; [left; reflexivity | reflexivity].
    + destruct (IH Hin) as (e & He & Ht). exists e. tauto.
  - intros Hin. destruct (IH Hin) as (e & He & Ht). exists e. tauto.
Qed.

Lemma shifted_out_In (l : Q) (events : list page_event) :
  In l (shifted_out events) -> In l (update_times events).
Proof.
  unfold shifted_out. intros Hin.
  rewrite <- (take_drop (length (update_times events) - 50) (update_times events)).
  apply in_or_app. left. exact Hin.
Qed.

Lemma shifted_out_small (events : list page_event) :
  (length (update_times events) <= 50)%nat -> shifted_out events = [].
Proof.
  intros H. unfold shifted_out.
  replace (length (update_times events) - 50)%nat with 0%nat by lia.
  reflexivity.
Qed.

Lemma shifted_out_full (events : list page_event) (t : Q) (x : float32)
    (m : Q) (rest : list Q) :
  (50 <= length (update_times events))%nat ->
  last_n 50 (update_times events) = m :: rest ->
  shifted_out (events ++ [page_update t x]) = shifted_out events ++ [m].
Proof.
  intros Hfull E. unfold shifted_out. rewrite update_times_snoc, length_app.
  cbn [length].
  replace (length (update_times events) + 1 - 50)%nat
    with (S (length (update_times events) - 50)) by lia.
  rewrite take_app_le by lia.
  apply take_S_r.
  unfold last_n in E.
  rewrite <- (Nat.add_0_r (length (update_times events) - 50)).
  rewrite <- lookup_drop, E. reflexivity.
Qed.

Lemma filter_filter {A : Type} (f g : A -> bool) (l : list A) :
  List.filter f (List.filter g l) = List.filter (fun a => g a && f a) l.
Proof.
  induction l as [|a l IH]; simpl; [reflexivity|].
  destruct (g a); simpl; [destruct (f a)|]; rewrite IH; reflexivity.
Qed.

(** X19: which alarm points the chart shows.  When the page clock does not
    run backwards between arrivals, the alarm points on the chart are
    exactly the received ones that are not older than any label that has
    been shifted out of the window, in the order of arrival: an alarm point
    leaves the chart when, and only when, a label newer than it leaves. *)
Theorem chart_shows_recent_alarm_points :
  forall events : list page_event,
    arrival_ordered events ->
    chart_alarms (chart_after events empty_chart)
    = List.filter (not_older_than (shifted_out events)) (alarm_points events).
Proof.
  induction events as [|e events IH] using rev_ind; [reflexivity|].
  intros Hord. apply arrival_ordered_snoc in Hord. destruct Hord as [Hord Hle].
  specialize (IH Hord).
  rewrite chart_after_snoc, alarm_points_snoc.
  destruct (chart_lines events) as (Hl & _).
  pose proof (last_n_length 50 (update_times events)) as Hn.
  destruct e as [t x|t x]; cbn [chart_on].
  - rewrite app_nil_r.
    destruct (Nat.le_gt_cases 50 (length (update_times events))) as [Hfull|Hsmall].
    + destruct (last_n 50 (update_times events)) as [|m rest] eqn:E;
        [cbn [length] in Hn; lia|].
      rewrite (chart_on_update_full t x _ m rest Hl) by (rewrite Hl, Hn; lia).
      cbn [chart_alarms].
      rewrite (shifted_out_full events t x m rest Hfull E), IH, filter_filter.
      apply List.filter_ext. intros p. unfold not_older_than.
      rewrite forallb_app. cbn [forallb]. rewrite andb_true_r. reflexivity.
    + rewrite chart_on_update_small by (rewrite Hl, Hn; lia).
      cbn [chart_alarms]. rewrite IH.
      rewrite (shifted_out_small events) by lia.
      rewrite (shifted_out_small (events ++ [page_update t x]))
        by (rewrite update_times_snoc, length_app; cbn [length]; lia).
      reflexivity.
  - cbn [chart_on_alarm chart_alarms].
    assert (Hsame : shifted_out (events ++ [page_alarm t x]) = shifted_out events).
    { unfold shifted_out. rewrite update_times_snoc, app_nil_r. reflexivity. }
    rewrite Hsame, IH, List.filter_app. f_equal.
    cbn [List.filter].
    replace (not_older_than (shifted_out events) (t, x)) with true; [reflexivity|].
    symmetry. unfold not_older_than. apply forallb_forall. intros l Hin.
    apply shifted_out_In, update_times_In in Hin.
    destruct Hin as (e0 & He0 & <-).
    apply Qle_bool_iff. cbn [fst].
    rewrite List.Forall_forall in Hle. exact (Hle e0 He0).
Qed.

Lemma chart_shows_recent_alarm_points_witness :
  arrival_ordered [page_alarm 1 (S754_zero false); page_update 2 (S754_zero false)]
  /\ chart_alarms
       (chart_after [page_alarm 1 (S754_zero false); page_update 2 (S754_zero false)]
          empty_chart)
     = List.filter
         (not_older_than
            (shifted_out [page_alarm 1 (S754_zero false);
                          page_update 2 (S754_zero false)]))
         (alarm_points [page_alarm 1 (S754_zero false);
                        page_update 2 (S754_zero false)]).
Proof.
  assert (Hord : arrival_ordered
                   [page_alarm 1 (S754_zero false); page_update 2 (S754_zero false)]).
  { simpl. repeat constructor. discriminate. }
  split; [exact Hord|].
  exact (chart_shows_recent_alarm_points _ Hord).
Defined.
